(** * Contour extraction and smoothing (contour.cpp)

    A shallow embedding of [src/contour.cpp]: the split-point table and
    [splitpoint], the seed finder [contstarts], the mark operations, the
    tracers [intrace] and [trace], the boundary loop of [roughcontours] and
    the segment probe of [smoothcontours]; and of the class [segment] of
    [src/segment.cpp], whose [station] the smoothing asks for.

    Conventions.
    - A C++ [double] is a value of [double] below: NaN, a signed infinity or
      a rational number.  The module [Ieee] holds the arithmetic of the
      machine: the exact result of an operation rounded to binary64
      (binary32 for a [float]), to nearest with ties to even, with
      overflow to an infinity and underflow to the smallest numbers and
      0.  The sign of a zero is not kept.  The module [Dbl] holds the
      tests and comparisons, which do not round, and the operations on
      exact rationals.
    - [roughcontours] and the class [segment] are in the arithmetic of the
      machine.  [splitpoint] is given twice: [Rounded.splitpoint] in the
      arithmetic of the machine, with the table and the result in
      binary32, and [splitpoint] over exact rationals, which is the one
      that the embedding of [smoothcontours], also over exact rationals,
      calls.  What is said of the test of line 47 and of the branch behind
      it is said of [Rounded.splitpoint].
    - An [int] is a [Z]; a [uintptr_t] edge handle is a [Z] and keeps the bit
      operations of the source ([ep&-4], [ep&3]).
    - Dereferencing a null or foreign pointer, indexing outside an array and
      converting a non-finite value to [int] are undefined behaviour; they
      are the error results [None] and [Fault].
    - Loops take fuel; where a claim is about a loop, the theorems show how
      much fuel is enough. *)

From Stdlib Require Import ZArith QArith Qabs Qround Qpower Lia Lqa Bool.
From Stdlib Require Import Floats.
From stdpp Require Import base option list.

Local Open Scope Z_scope.

(** ** Doubles *)

Inductive double : Type :=
| NaN : double
| Inf (neg : bool) : double
| Fin (q : Q) : double.

Module Dbl.

Definition isnan (d : double) : bool :=
  match d with NaN => true | _ => false end.

Definition isfinite (d : double) : bool :=
  match d with Fin _ => true | _ => false end.

(** Sign bit of a rational; zero counts as positive. *)
Definition qneg (q : Q) : bool := Qnum q <? 0.

Definition qzero (q : Q) : bool := Qnum q =? 0.

Definition fabs (d : double) : double :=
  match d with
  | NaN => NaN
  | Inf _ => Inf false
  | Fin q => Fin (Qabs q)
  end.

Definition neg (d : double) : double :=
  match d with
  | NaN => NaN
  | Inf s => Inf (negb s)
  | Fin q => Fin (- q)
  end.

Definition add (a b : double) : double :=
  match a, b with
  | NaN, _ | _, NaN => NaN
  | Inf s, Inf s' => if eqb s s' then Inf s else NaN
  | Inf s, Fin _ | Fin _, Inf s => Inf s
  | Fin x, Fin y => Fin (x + y)
  end.

Definition sub (a b : double) : double := add a (neg b).

Definition mul (a b : double) : double :=
  match a, b with
  | NaN, _ | _, NaN => NaN
  | Inf s, Inf s' => Inf (xorb s s')
  | Inf s, Fin q | Fin q, Inf s =>
      if qzero q then NaN else Inf (xorb s (qneg q))
  | Fin x, Fin y => Fin (x * y)
  end.

Definition div (a b : double) : double :=
  match a, b with
  | NaN, _ | _, NaN => NaN
  | Inf _, Inf _ => NaN
  | Inf s, Fin q => Inf (xorb s (qneg q))
  | Fin _, Inf _ => Fin 0
  | Fin x, Fin y =>
      if qzero y then (if qzero x then NaN else Inf (qneg x))
      else Fin (x / y)
  end.

(** [a > b]; every comparison with NaN is false. *)
Definition gt (a b : double) : bool :=
  match a, b with
  | NaN, _ | _, NaN => false
  | Inf s, Inf s' => negb s && s'
  | Inf s, Fin _ => negb s
  | Fin _, Inf s => s
  | Fin x, Fin y => match x ?= y with Gt => true | _ => false end
  end%Q.

(** [a != b]; NaN differs from everything, itself included. *)
Definition ne (a b : double) : bool :=
  match a, b with
  | NaN, _ | _, NaN => true
  | Inf s, Inf s' => negb (eqb s s')
  | Inf _, Fin _ | Fin _, Inf _ => true
  | Fin x, Fin y => negb (Qeq_bool x y)
  end.

(** [rint] in the default rounding mode: to nearest, ties to even. *)
Definition rintQ (q : Q) : Z :=
  let f := Qfloor q in
  match (q - inject_Z f ?= 1 # 2)%Q with
  | Lt => f
  | Gt => f + 1
  | Eq => if Z.even f then f else f + 1
  end.

Definition rint (d : double) : double :=
  match d with
  | Fin q => Fin (inject_Z (rintQ q))
  | _ => d
  end.

(** The conversion [(int)d] of a 32-bit [int]: defined only for a finite
    value whose truncation is representable. *)
Definition to_int (d : double) : option Z :=
  match d with
  | Fin q =>
      let z := Z.quot (Qnum q) (Z.pos (Qden q)) in
      if (-2147483648 <=? z) && (z <=? 2147483647) then Some z else None
  | _ => None
  end.

End Dbl.

(** ** Binary floating point

    The arithmetic of the machine: a [double] is an IEEE 754 binary64
    number and a [float] a binary32 number.  The result of an operation is
    the exact result rounded to the nearest number of the format, a tie
    going to the number whose last digit is even; a result that rounds
    beyond the largest number of the format is an infinity, and a result
    too small for the smallest number is 0.  The sign of a zero is not
    kept. *)

Module Ieee.

(** A format: the number of digits of its significands, the exponent of
    its smallest positive number and the exponent of the first power of
    two beyond its largest number. *)
Record format : Type := mkformat { prec : Z; emin : Z; emax : Z }.

Definition binary64 : format := {| prec := 53; emin := -1074; emax := 1024 |}.

Definition binary32 : format := {| prec := 24; emin := -149; emax := 128 |}.

Definition pow2 (e : Z) : Q := (2 ^ e)%Q.

(** The exponent of the leading digit of a positive [q]: the largest [k]
    with [2^k <= q]. *)
Definition Qlog2 (q : Q) : Z :=
  let k := Z.log2 (Qnum q) - Z.log2 (Z.pos (Qden q)) in
  if Qle_bool (pow2 k) q then k else k - 1.

(** The exponent of the last digit the format keeps of a positive [q]. *)
Definition ulp_exp (f : format) (q : Q) : Z :=
  Z.max (emin f) (Qlog2 q - (prec f - 1)).

(** The multiple of [2^(ulp_exp f q)] nearest to a positive [q], ties to
    the even multiple. *)
Definition nearest_pos (f : format) (q : Q) : Q :=
  (inject_Z (Dbl.rintQ (q / pow2 (ulp_exp f q))) * pow2 (ulp_exp f q))%Q.

Definition nearest (f : format) (q : Q) : Q :=
  match (q ?= 0)%Q with
  | Eq => 0%Q
  | Gt => nearest_pos f q
  | Lt => (- nearest_pos f (- q))%Q
  end.

(** The number of the format that stores the exact value [q]. *)
Definition round (f : format) (q : Q) : double :=
  let v := Qred (nearest f q) in
  if Qle_bool (pow2 (emax f)) (Qabs v) then Inf (Dbl.qneg v) else Fin v.

(** An exact result as a [double] and as a [float] store it. *)
Definition to_double (d : double) : double :=
  match d with
  | Fin q => round binary64 q
  | _ => d
  end.

Definition to_float (d : double) : double :=
  match d with
  | Fin q => round binary32 q
  | _ => d
  end.

(** The operations on doubles. *)
Definition add (a b : double) : double := to_double (Dbl.add a b).

Definition sub (a b : double) : double := to_double (Dbl.sub a b).

Definition mul (a b : double) : double := to_double (Dbl.mul a b).

Definition div (a b : double) : double := to_double (Dbl.div a b).

(** [a-b] on floats. *)
Definition fsub (a b : double) : double := to_float (Dbl.sub a b).

End Ieee.

(** The binary64 numbers of the kernel, to check [Ieee] against: the value
    of a primitive float, and whether the four operations of [Ieee] on the
    values of [x] and [y] give the values of the primitive results. *)
Definition of_prim (x : float) : double :=
  match Prim2SF x with
  | S754_zero _ => Fin 0
  | S754_infinity s => Inf s
  | S754_nan => NaN
  | S754_finite s m e =>
      Fin (Qred ((if s then -1 else 1) * inject_Z (Z.pos m) * Ieee.pow2 e))
  end.

Definition same_value (a b : double) : bool :=
  match a, b with
  | NaN, NaN => true
  | Inf s, Inf s' => Bool.eqb s s'
  | Fin p, Fin q => Qeq_bool p q
  | _, _ => false
  end.

Definition agrees (xy : float * float) : bool :=
  let '(x, y) := xy in
  same_value (of_prim (x * y)%float) (Ieee.mul (of_prim x) (of_prim y)) &&
  same_value (of_prim (x / y)%float) (Ieee.div (of_prim x) (of_prim y)) &&
  same_value (of_prim (x + y)%float) (Ieee.add (of_prim x) (of_prim y)) &&
  same_value (of_prim (x - y)%float) (Ieee.sub (of_prim x) (of_prim y)).

(** ** The split-point table *)

(** The constant [CCHALONG] comes from a header outside the sources at
    hand; it is a parameter of the development. *)
Class SegmentConsts := { CCHALONG : Q }.

Definition splittab : list Q :=
  [ 0.2113;0.2123;0.2134;0.2145;0.2156;0.2167;0.2179;0.2191;0.2204;0.2216;0.2229;0.2244;0.2257;
    0.2272;0.2288;0.2303;0.2319;0.2337;0.2354;0.2372;0.2390;0.2410;0.2430;0.2451;0.2472;0.2495;
    0.2519;0.2544;0.2570;0.2597;0.2625;0.2654;0.2684;0.2716;0.2750;0.2786;0.2823;0.2861;0.2902;
    0.2945;0.2990;0.3038;0.3088;0.3141;0.3198;0.3258;0.3320;0.3386;0.3454;0.3527;0.3605;0.3687;
    0.3773;0.3862;0.3955;0.4053;0.4153;0.4256;0.4362;0.4469;0.4577;0.4684;0.4792;0.4897;0.5000
  ]%Q.

(** [splittab[i]] for an [int] index; outside the array the access is
    undefined. *)
Definition splittab_at (i : Z) : option Q :=
  if i <? 0 then None else splittab !! Z.to_nat i.

(** The test of line 47, on exact products. *)
Definition out_of_tolerance (leftclamp rightclamp tolerance : double) : bool :=
  Dbl.gt (Dbl.mul (Dbl.fabs leftclamp) (Fin 27)) (Dbl.mul tolerance (Fin 23))
  || Dbl.gt (Dbl.mul (Dbl.fabs rightclamp) (Fin 27)) (Dbl.mul tolerance (Fin 23)).

Definition whichbig (leftclamp rightclamp : double) : bool :=
  Dbl.gt (Dbl.fabs rightclamp) (Dbl.fabs leftclamp).

(** The divisor of line 50. *)
Definition splitdivisor (leftclamp rightclamp : double) : double :=
  if whichbig leftclamp rightclamp then rightclamp else leftclamp.

Definition splitratio (leftclamp rightclamp : double) : double :=
  if whichbig leftclamp rightclamp
  then Dbl.div leftclamp rightclamp
  else Dbl.div rightclamp leftclamp.

(** The index [(int)rint((ratio+1)*32)] of line 51. *)
Definition splitindex (leftclamp rightclamp : double) : option Z :=
  Dbl.to_int
    (Dbl.rint (Dbl.mul (Dbl.add (splitratio leftclamp rightclamp) (Fin 1)) (Fin 32))).

Definition splitpoint `{SegmentConsts}
    (leftclamp rightclamp tolerance : double) : option Q :=
  if Dbl.isnan leftclamp then Some CCHALONG
  else if Dbl.isnan rightclamp then Some (1 - CCHALONG)%Q
  else if out_of_tolerance leftclamp rightclamp tolerance then
    i ← splitindex leftclamp rightclamp;
    sp ← splittab_at i;
    Some (if whichbig leftclamp rightclamp then (1 - sp)%Q else sp)
  else Some 0%Q.

(** ** splitpoint in the arithmetic of the machine

    Lines 25-58 once more, with every operation on doubles rounded as
    binary64 rounds it, and the table, [sp] and the result in binary32.
    The literals of the table are doubles that the array stores as
    floats.  [CCHALONG] is taken to be a double. *)

Module Rounded.

Definition splittab : list double :=
  (fun v => Ieee.to_float (Ieee.to_double (Fin v))) <$> splittab.

Definition splittab_at (i : Z) : option double :=
  if i <? 0 then None else splittab !! Z.to_nat i.

(** One side of the test of line 47: [fabs(clamp)*27>tolerance*23]. *)
Definition exceeds (clamp tolerance : double) : bool :=
  Dbl.gt (Ieee.mul (Dbl.fabs clamp) (Fin 27)) (Ieee.mul tolerance (Fin 23)).

(** The test of line 47. *)
Definition out_of_tolerance (leftclamp rightclamp tolerance : double) : bool :=
  exceeds leftclamp tolerance || exceeds rightclamp tolerance.

Definition splitratio (leftclamp rightclamp : double) : double :=
  if whichbig leftclamp rightclamp
  then Ieee.div leftclamp rightclamp
  else Ieee.div rightclamp leftclamp.

(** The index [(int)rint((ratio+1)*32)] of line 51. *)
Definition splitindex (leftclamp rightclamp : double) : option Z :=
  Dbl.to_int
    (Dbl.rint (Ieee.mul (Ieee.add (splitratio leftclamp rightclamp) (Fin 1)) (Fin 32))).

Definition splitpoint `{SegmentConsts}
    (leftclamp rightclamp tolerance : double) : option double :=
  if Dbl.isnan leftclamp then Some (Ieee.to_float (Fin CCHALONG))
  else if Dbl.isnan rightclamp
  then Some (Ieee.to_float (Ieee.sub (Fin 1) (Fin CCHALONG)))
  else if out_of_tolerance leftclamp rightclamp tolerance then
    i ← splitindex leftclamp rightclamp;
    sp ← splittab_at i;
    Some (if whichbig leftclamp rightclamp then Ieee.fsub (Fin 1) sp else sp)
  else Some (Fin 0).

End Rounded.

(** ** Points and polylines *)

(** Modelled from the spec: the class [xy], declared outside the sources
    at hand.  A point is the pair of its coordinates, each a double that
    may be NaN; [isfinite] asks both to be finite, [isnan] one to be NaN,
    and [!=] compares the coordinates. *)
Record xy : Type := mkxy { east : double; north : double }.

Definition xy_isfinite (p : xy) : bool :=
  Dbl.isfinite (east p) && Dbl.isfinite (north p).

Definition xy_isnan (p : xy) : bool :=
  Dbl.isnan (east p) || Dbl.isnan (north p).

Definition xy_ne (p q : xy) : bool :=
  Dbl.ne (east p) (east q) || Dbl.ne (north p) (north q).

(** Modelled from the spec: the class [polyline], declared outside the
    sources at hand.  A polyline is an ordered sequence of points tagged
    with one elevation and an open/closed flag; it is in straight-segment
    form until [smooth] converts it to a spiral-arc chain ([curvy]).  A new
    polyline is empty, closed and straight. *)
Record polyline : Type := mkpolyline {
  elevation : double;
  endpoints : list xy;
  isopen : bool;
  curvy : bool
}.

Definition polyline_new (elev : double) : polyline :=
  {| elevation := elev; endpoints := []; isopen := false; curvy := false |}.

(** [ret.insert(p)]: append at the end. *)
Definition polyline_insert (p : xy) (c : polyline) : polyline :=
  {| elevation := elevation c; endpoints := endpoints c ++ [p];
     isopen := isopen c; curvy := curvy c |}.

(** [c.insert(p,pos)]: the point takes position [pos]. *)
Definition polyline_insert_at (p : xy) (pos : Z) (c : polyline) : polyline :=
  {| elevation := elevation c;
     endpoints := take (Z.to_nat pos) (endpoints c) ++ p :: drop (Z.to_nat pos) (endpoints c);
     isopen := isopen c; curvy := curvy c |}.

Definition polyline_open (c : polyline) : polyline :=
  {| elevation := elevation c; endpoints := endpoints c;
     isopen := true; curvy := curvy c |}.

Definition polyline_smooth (c : polyline) : polyline :=
  {| elevation := elevation c; endpoints := endpoints c;
     isopen := isopen c; curvy := true |}.

(** Modelled from the spec: [size()] is the segment count that the
    smoothing iterates over (4.7).  A closed polyline has as many segments
    as points, the last one leading back to the first point; an open one
    has one fewer. *)
Definition polyline_size (c : polyline) : Z :=
  if isopen c
  then Z.of_nat (length (endpoints c) - 1)
  else Z.of_nat (length (endpoints c)).

(** Modelled from the spec: the class [xyz], declared outside the sources
    at hand.  A point with its elevation; the operators are
    component-wise. *)
Record xyz : Type := mkxyz { xyz_east : double; xyz_north : double; xyz_elev : double }.

Definition xy_of (p : xyz) : xy := {| east := xyz_east p; north := xyz_north p |}.

Definition xyz_isfinite (p : xyz) : bool :=
  Dbl.isfinite (xyz_east p) && Dbl.isfinite (xyz_north p) && Dbl.isfinite (xyz_elev p).

Definition xyz_add (p q : xyz) : xyz :=
  {| xyz_east := Dbl.add (xyz_east p) (xyz_east q);
     xyz_north := Dbl.add (xyz_north p) (xyz_north q);
     xyz_elev := Dbl.add (xyz_elev p) (xyz_elev q) |}.

Definition xyz_sub (p q : xyz) : xyz :=
  {| xyz_east := Dbl.sub (xyz_east p) (xyz_east q);
     xyz_north := Dbl.sub (xyz_north p) (xyz_north q);
     xyz_elev := Dbl.sub (xyz_elev p) (xyz_elev q) |}.

Definition xyz_scale (k : double) (p : xyz) : xyz :=
  {| xyz_east := Dbl.mul k (xyz_east p);
     xyz_north := Dbl.mul k (xyz_north p);
     xyz_elev := Dbl.mul k (xyz_elev p) |}.

Definition xyz_div (p : xyz) (k : double) : xyz :=
  {| xyz_east := Dbl.div (xyz_east p) k;
     xyz_north := Dbl.div (xyz_north p) k;
     xyz_elev := Dbl.div (xyz_elev p) k |}.

(** ** The mesh *)

(** The triangle class is declared outside the sources at hand; its
    members used by the contouring code are parameters. *)
Class Triangles := {
  triangle : Type;
  subdir : triangle -> Z -> Z;
  crosses : triangle -> Z -> double -> bool;
  upleft : triangle -> Z -> bool;
  proceed : triangle -> Z -> double -> Z;
  contourcept : triangle -> Z -> double -> xy;
  edgepart : triangle -> Z -> Z;
  subdiv_size : triangle -> Z
}.

(** An edge with its two triangle pointers (null is [None]) and its mark
    bits [contour]. *)
Record edge `{Triangles} : Type := mkedge {
  tria : option triangle;
  trib : option triangle;
  contour : Z
}.

(** Modelled from the spec: the members [mark], [ismarked] and
    [clearmarks], declared outside the sources at hand.  An edge carries
    one mark bit per side: [mark(n)] sets bit [n], [ismarked(n)] reads it,
    [clearmarks] resets the bits of every edge. *)
Definition edge_mark `{Triangles} (n : Z) (e : edge) : edge :=
  {| tria := tria e; trib := trib e; contour := Z.lor (contour e) (Z.shiftl 1 n) |}.

Definition edge_ismarked `{Triangles} (n : Z) (e : edge) : bool :=
  Z.testbit (contour e) n.

Definition edge_clearmarks `{Triangles} (e : edge) : edge :=
  {| tria := tria e; trib := trib e; contour := 0 |}.

(** The remaining members of [edge]. *)
Class Edges `{Triangles} := {
  isinterior : edge -> bool;
  othertri : edge -> triangle -> option triangle
}.

(** Where the vector [pts.edges] lies in memory: the address of its first
    element and the size of an element.  The handles keep a side in the two
    low bits of an edge address, so both are multiples of 4. *)
Class EdgeLayout := {
  ebase : Z;
  esize : Z;
  ebase_pos : 0 < ebase;
  ebase_aligned : ebase mod 4 = 0;
  esize_pos : 0 < esize;
  esize_aligned : esize mod 4 = 0
}.

(** [(uintptr_t)&pts.edges[i]] *)
Definition edge_addr `{EdgeLayout} (i : nat) : Z := ebase + esize * Z.of_nat i.

(** The index of the element at address [a], if [a] is the address of one. *)
Definition edge_index `{EdgeLayout} (a : Z) : option nat :=
  if (ebase <=? a) && ((a - ebase) mod esize =? 0)
  then Some (Z.to_nat ((a - ebase) / esize))
  else None.

(** ** State, output and faults *)

(** What the code writes to [cerr] and [cout]. *)
Inductive message : Type :=
| TracingStartsOnNan                    (* cerr: Tracing STARTS on Nan *)
| ProceedFailed (size : Z)              (* cerr: proceed failed! size *)
| RepeatedContourcept (edgep size : Z)  (* cerr: Repeated contourcept: edgep size *)
| EdgeDidntChange                       (* cout: Edge didn't change *)
| ProceedFailedAgain                    (* cout: proceed failed! *)
| StoppedInMiddle (size : Z)            (* cout: Tracing stopped in middle of a triangle size *)
| Progress (i size : Z) (elev : double)  (* cout: smoothcontours i/size elev e *)
| Elev2032Size11                        (* cout: 203.2 11 *)
| Delta883276262                        (* cout: 883276262 *)
| MidptriNull.                          (* cerr: can't happen: midptri is null *)

(** The memory the code works on: the edges of the mesh with their mark
    bits, the contours of the point list and the text written so far.
    [marklog] is a ghost history: every call of [mark] with the handle and
    the value of its bit before the call. *)
Record state `{Triangles} : Type := mkstate {
  edges : list edge;
  triangles : list triangle;
  contours : list polyline;
  out : list message;
  marklog : list (Z * bool)
}.

Inductive result (A : Type) : Type :=
| Ok (a : A)
| Fault        (* undefined behaviour or a failed assertion *)
| OutOfFuel.   (* the model ran out of loop fuel *)
Arguments Ok {A} a.
Arguments Fault {A}.
Arguments OutOfFuel {A}.

Definition M `{Triangles} (A : Type) : Type := state -> result (A * state).

#[global] Instance M_ret `{Triangles} : MRet M := fun A a s => Ok (a, s).

#[global] Instance M_bind `{Triangles} : MBind M := fun A B f m s =>
  match m s with
  | Ok (a, s') => f a s'
  | Fault => Fault
  | OutOfFuel => OutOfFuel
  end.

#[global] Instance result_ret : MRet result := fun A a => Ok a.

#[global] Instance result_bind : MBind result := fun A B f m =>
  match m with
  | Ok a => f a
  | Fault => Fault
  | OutOfFuel => OutOfFuel
  end.

(** A computation that does not touch the state. *)
Definition lift `{Triangles} {A} (r : result A) : M A :=
  fun s => match r with
           | Ok a => Ok (a, s)
           | Fault => Fault
           | OutOfFuel => OutOfFuel
           end.

Definition fault `{Triangles} {A} : M A := fun _ => Fault.
Definition outoffuel `{Triangles} {A} : M A := fun _ => OutOfFuel.

Definition get_edges `{Triangles} : M (list edge) := fun s => Ok (edges s, s).

Definition put_edges `{Triangles} (es : list edge) : M unit :=
  fun s => Ok (tt, {| edges := es; triangles := triangles s; contours := contours s; out := out s;
                      marklog := marklog s |}).

(** [cerr<<...] and [cout<<...] *)
Definition say `{Triangles} (m : message) : M unit :=
  fun s => Ok (tt, {| edges := edges s; triangles := triangles s; contours := contours s;
                      out := out s ++ [m]; marklog := marklog s |}).

Definition log_mark `{Triangles} (ep : Z) (was : bool) : M unit :=
  fun s => Ok (tt, {| edges := edges s; triangles := triangles s; contours := contours s; out := out s;
                      marklog := marklog s ++ [(ep, was)] |}).

(** [pl.contours.push_back(c)] *)
Definition push_contour `{Triangles} (c : polyline) : M unit :=
  fun s => Ok (tt, {| edges := edges s; triangles := triangles s; contours := contours s ++ [c];
                      out := out s; marklog := marklog s |}).

Definition get_contours `{Triangles} : M (list polyline) :=
  fun s => Ok (contours s, s).

Definition put_contours `{Triangles} (cs : list polyline) : M unit :=
  fun s => Ok (tt, {| edges := edges s; triangles := triangles s; contours := cs;
                      out := out s; marklog := marklog s |}).

Definition get_triangles `{Triangles} : M (list triangle) :=
  fun s => Ok (triangles s, s).

(** [*(edge * )a]: the index and the value of the edge at address [a]. *)
Definition deref `{Triangles} `{EdgeLayout} (a : Z) : M (nat * edge) :=
  es ← get_edges;
  match edge_index a with
  | Some i => match es !! i with
              | Some e => mret (i, e)
              | None => fault
              end
  | None => fault
  end.

(** A null triangle pointer must not be dereferenced. *)
Definition nonnull `{Triangles} (t : option triangle) : M triangle :=
  match t with Some tri => mret tri | None => fault end.

(** ** Marks *)

Definition mark `{Triangles} `{EdgeLayout} (ep : Z) : M unit :=
  '(i, e) ← deref (Z.land ep (-4));
  es ← get_edges;
  log_mark ep (edge_ismarked (Z.land ep 3) e);;
  put_edges (<[i := edge_mark (Z.land ep 3) e]> es).

Definition ismarked `{Triangles} `{EdgeLayout} (ep : Z) : M bool :=
  '(i, e) ← deref (Z.land ep (-4));
  mret (edge_ismarked (Z.land ep 3) e).

(** [pl.clearmarks()]; a new sweep starts, so the ghost history is reset. *)
Definition clearmarks `{Triangles} : M unit :=
  fun s => Ok (tt, {| edges := edge_clearmarks <$> edges s; triangles := triangles s;
                      contours := contours s;
                      out := out s; marklog := [] |}).

(** [for (x : l) acc = body(x, acc)] *)
Fixpoint for_each `{Triangles} {A S : Type}
    (l : list A) (body : A -> S -> M S) (acc : S) : M S :=
  match l with
  | [] => mret acc
  | x :: l' => acc' ← body x acc; for_each l' body acc'
  end.

(** The elements of a vector with their indices, from index [n] on. *)
Fixpoint indexed {A : Type} (n : nat) (l : list A) : list (nat * A) :=
  match l with
  | [] => []
  | x :: l' => (n, x) :: indexed (S n) l'
  end.

(** ** contstarts *)

(** The triangle an edge is examined from: [tria], or [trib] when [tria]
    is null. *)
Definition edge_tri `{Triangles} (e : edge) : option triangle :=
  match tria e with
  | Some t => Some t
  | None => trib e
  end.

Definition contstarts `{Edges} `{EdgeLayout} (elev : double) : M (list Z) :=
  es ← get_edges;
  for_each [0; 1] (fun io ret =>
    for_each (indexed 0 es) (fun '(i, e) ret =>
      if io =? Z.b2z (isinterior e) then
        tri ← nonnull (edge_tri e);
        for_each [0; 1; 2] (fun j ret =>
          let ep := j + edge_addr i in
          let sd := subdir tri ep in
          if crosses tri sd elev && (negb (io =? 0) || upleft tri sd)
          then mret (ret ++ [ep])
          else mret ret) ret
      else mret ret) ret) [].

(** ** intrace *)

(** The test of the inner [for] of line 123. *)
Definition intrace_more `{Triangles}
    (tri : triangle) (start j : Z) (sube : list Z) : bool :=
  (Z.of_nat (length sube) =? 0)
  || ((Z.land j 65535 >? Z.land start 65535)
      && (Z.land j 65535 <? subdiv_size tri)
      && (Z.of_nat (length sube) <? 256)).

Fixpoint intrace_walk `{Triangles} (fuel : nat)
    (tri : triangle) (elev : double) (start j : Z) (sube : list Z)
    : result (Z * list Z) :=
  if intrace_more tri start j sube then
    match fuel with
    | O => OutOfFuel
    | S fuel' =>
        intrace_walk fuel' tri elev start (proceed tri j elev) (sube ++ [j])
    end
  else Ok (j, sube).

(** The loop of lines 116-127 over the sub-segments [subs]; it yields the
    final [j], [start] and [sube]. *)
Fixpoint intrace_scan `{Triangles} (fuel : nat)
    (tri : triangle) (elev : double) (subs : list Z)
    (j start : Z) (sube : list Z) : result (Z * Z * list Z) :=
  match subs with
  | [] => Ok (j, start, sube)
  | i :: subs' =>
      if crosses tri i elev then
        let start := if upleft tri i then i else i + 65536 in
        '(j, sube) ← intrace_walk fuel tri elev start start [];
        if j =? start then Ok (j, start, sube)
        else intrace_scan fuel tri elev subs' j start sube
      else intrace_scan fuel tri elev subs' j start sube
  end.

(** Lines 129-134: the finite crossing points of the sub-segments. *)
Definition insert_finite `{Triangles}
    (tri : triangle) (elev : double) (sube : list Z) (ret : polyline) : polyline :=
  fold_left (fun ret s =>
               let cept := contourcept tri s elev in
               if xy_isfinite cept then polyline_insert cept ret else ret)
            sube ret.

Definition intrace `{Triangles} (fuel : nat)
    (tri : triangle) (elev : double) : result polyline :=
  '(j, start, sube) ←
    intrace_scan fuel tri elev (seqZ 0 (subdiv_size tri)) (-610) (-987) [];
  mret (if j =? start
        then insert_finite tri elev sube (polyline_new elev)
        else polyline_new elev).

(** ** trace *)

(** The locals of [trace] that the inner loop of lines 165-185 changes,
    and the ghost count [steps] of the times its body ran. *)
Record walk : Type := mkwalk {
  w_subedge : Z;
  w_subnext : Z;
  w_lastcept : xy;
  w_ret : polyline;
  w_i : Z;
  steps : nat
}.

(** The walk the inner loop starts with ([subnext] is not yet set). *)
Definition walk_start (subedge : Z) (lastcept : xy) (ret : polyline) : walk :=
  {| w_subedge := subedge; w_subnext := 0; w_lastcept := lastcept;
     w_ret := ret; w_i := 0; steps := 0 |}.

(** The body of the inner loop, lines 167-184. *)
Definition trace_step `{Triangles}
    (tri : triangle) (elev : double) (edgep : Z) (w : walk) : M walk :=
  let subnext := proceed tri (w_subedge w) elev in
  if subnext >=? 0 then
    (if subnext =? w_subedge w
     then say (ProceedFailed (polyline_size (w_ret w)))
     else mret tt);;
    let subedge := subnext in
    let thiscept := contourcept tri subedge elev in
    if xy_isfinite thiscept then
      ret ← (if xy_ne thiscept (w_lastcept w)
             then mret (polyline_insert thiscept (w_ret w))
             else say (RepeatedContourcept edgep (polyline_size (w_ret w)));;
                  mret (w_ret w));
      mret {| w_subedge := subedge; w_subnext := subnext;
              w_lastcept := thiscept; w_ret := ret;
              w_i := w_i w; steps := S (steps w) |}
    else
      mret {| w_subedge := subedge; w_subnext := subnext;
              w_lastcept := w_lastcept w; w_ret := w_ret w;
              w_i := w_i w; steps := S (steps w) |}
  else
    mret {| w_subedge := w_subedge w; w_subnext := subnext;
            w_lastcept := w_lastcept w; w_ret := w_ret w;
            w_i := w_i w; steps := S (steps w) |}.

(** [++i] *)
Definition walk_incr (w : walk) : walk :=
  {| w_subedge := w_subedge w; w_subnext := w_subnext w;
     w_lastcept := w_lastcept w; w_ret := w_ret w;
     w_i := w_i w + 1; steps := steps w |}.

(** The inner loop [do ... while (subnext>=0 && ++i<256)], lines 165-185. *)
Fixpoint trace_proceed `{Triangles} (fuel : nat)
    (tri : triangle) (elev : double) (edgep : Z) (w : walk) : M walk :=
  match fuel with
  | O => outoffuel
  | S fuel' =>
      w ← trace_step tri elev edgep w;
      if w_subnext w >=? 0 then
        if w_i w + 1 <? 256
        then trace_proceed fuel' tri elev edgep (walk_incr w)
        else mret (walk_incr w)
      else mret w
  end.

(** Lines 189-201: the walk came back to the edge it started from.  The
    sub-segment computed here is not used afterwards. *)
Definition edge_unchanged `{Triangles}
    (tri : triangle) (elev : double) (edgep prevedgep : Z) : M unit :=
  if edgep =? prevedgep then
    say EdgeDidntChange;;
    let subedge := subdir tri edgep in
    let subnext := proceed tri subedge elev in
    if (subnext >=? 0) && (subnext =? subedge)
    then say ProceedFailedAgain
    else mret tt
  else mret tt.

(** The locals of [trace] when the outer loop of lines 159-225 ends. *)
Record traced `{Triangles} : Type := mktraced {
  t_ret : polyline;
  t_ntri : option triangle;
  t_wasmarked : option bool
}.

Fixpoint trace_loop `{Edges} `{EdgeLayout} (fuel : nat)
    (elev : double) (firstcept : xy)
    (edgep : Z) (tri : triangle) (wasmarked : option bool)
    (lastcept : xy) (ret : polyline) : M traced :=
  match fuel with
  | O => outoffuel
  | S fuel' =>
      let prevedgep := edgep in
      w ← trace_proceed fuel tri elev edgep
            (walk_start (subdir tri edgep) lastcept ret);
      let lastcept := w_lastcept w in
      let ret := w_ret w in
      let edgep := edgepart tri (w_subedge w) in
      edge_unchanged tri elev edgep prevedgep;;
      if edgep =? 0 then
        say (StoppedInMiddle (polyline_size ret));;
        mret {| t_ret := ret; t_ntri := None; t_wasmarked := wasmarked |}
      else
        was ← ismarked edgep;
        '(lastcept, ret) ←
          (if negb was then
             let thiscept := contourcept tri (subdir tri edgep) elev in
             mret (thiscept,
                   if xy_ne thiscept lastcept && xy_ne thiscept firstcept
                      && xy_isfinite thiscept
                   then polyline_insert thiscept ret
                   else ret)
           else mret (lastcept, ret));
        mark edgep;;
        '(_, e) ← deref (Z.land edgep (-4));
        match othertri e tri with
        | None =>
            mret {| t_ret := ret; t_ntri := None; t_wasmarked := Some was |}
        | Some ntri =>
            if (was : bool)
            then mret {| t_ret := ret; t_ntri := Some ntri; t_wasmarked := Some was |}
            else trace_loop fuel' elev firstcept edgep ntri (Some was) lastcept ret
        end
  end.

(** The result of [trace] and, when the outer loop ran, the locals it
    ended with (ghost). *)
Definition trace `{Edges} `{EdgeLayout} (fuel : nat)
    (edgep : Z) (elev : double) : M (polyline * option traced) :=
  let ret := polyline_new elev in
  '(_, e) ← deref (Z.land edgep (-4));
  let tri := tria e in
  let ntri := trib e in
  let tri := match tri with
             | None => ntri
             | Some t => if negb (upleft t (subdir t edgep)) then ntri else tri
             end in
  mark edgep;;
  tri ← nonnull tri;
  let firstcept := contourcept tri (subdir tri edgep) elev in
  if xy_isnan firstcept then
    say TracingStartsOnNan;;
    mret (ret, None)
  else
    t ← trace_loop fuel elev firstcept edgep tri None firstcept
          (polyline_insert firstcept ret);
    mret (match t_ntri t with
          | None => polyline_open (t_ret t)
          | Some _ => t_ret t
          end, Some t).

(** The triangle [trace] starts in, lines 146-149: [tria], or [trib] when
    [tria] is null or the crossing is not upleft in [tria]. *)
Definition start_tri `{Triangles} (e : edge) (edgep : Z) : option triangle :=
  match tria e with
  | None => trib e
  | Some t => if negb (upleft t (subdir t edgep)) then trib e else tria e
  end.

(** ** roughcontours: one elevation level *)

(** The curve classes and the remaining members of [polyline] are declared
    outside the sources at hand; they are parameters. *)
Class Curves := {
  spiralarc : Type;
  segment : Type;
  dedup : polyline -> polyline;
  getspiralarc : polyline -> Z -> spiralarc;
  sarc_length : spiralarc -> double;
  sarc_station : spiralarc -> double -> xyz;
  getstart : spiralarc -> xyz;
  getend : spiralarc -> xyz;
  getdelta : spiralarc -> Z;
  seg_station : segment -> double -> xyz;
  seg_contourcept : segment -> double -> double;
  relprime : Z -> Z;
  dir : xy -> xy -> Z;
  DEG90 : Z
}.

(** Lines 248-256: the boundary traces from the seeds [cstarts]. *)
Definition boundary_traces `{Edges} `{EdgeLayout} `{Curves} (fuel : nat)
    (cstarts : list Z) (elev : double) : M unit :=
  for_each cstarts (fun ep _ =>
    was ← ismarked ep;
    if negb was then
      '(ctour, _) ← trace fuel ep elev;
      push_contour (dedup ctour)
    else mret tt) tt.

(** Lines 257-265: the contours inside single triangles. *)
Definition interior_traces `{Triangles} (fuel : nat) (elev : double) : M unit :=
  ts ← get_triangles;
  for_each ts (fun tri _ =>
    ctour ← lift (intrace fuel tri elev);
    if negb (polyline_size ctour =? 0) then push_contour ctour else mret tt) tt.

(** The body of the loop of lines 244-266 at the level [elev]. *)
Definition roughcontours_level `{Edges} `{EdgeLayout} `{Curves} (fuel : nat)
    (elev : double) : M unit :=
  cstarts ← contstarts elev;
  clearmarks;;
  boundary_traces fuel cstarts elev;;
  interior_traces fuel elev.

(** ** roughcontours: the loop over the levels *)

(** [pointlist::lohi] is declared outside the sources at hand; it is a
    parameter.  It returns a vector of doubles. *)
Class Extent `{Triangles} := { lohi : state -> list double }.

Definition get_lohi `{Extent} : M (list double) := fun s => Ok (lohi s, s).

(** [v[i]] of a vector; an index out of range is undefined. *)
Definition at_index `{Triangles} {A : Type} (v : list A) (i : nat) : M A :=
  match v !! i with
  | Some x => mret x
  | None => fault
  end.

Definition dbl_floor (d : double) : double :=
  match d with
  | Fin q => Fin (inject_Z (Qfloor q))
  | _ => d
  end.

Definition dbl_ceil (d : double) : double :=
  match d with
  | Fin q => Fin (inject_Z (Qceiling q))
  | _ => d
  end.

(** [a <= b]; every comparison with NaN is false. *)
Definition dbl_le (a b : double) : bool :=
  match a, b with
  | NaN, _ | _, NaN => false
  | _, _ => negb (Dbl.gt a b)
  end.

(** The conversion of an [int] to [double]. *)
Definition of_int (i : Z) : double := Fin (inject_Z i).

(** The loop of lines 244-266 from [i] on; [top] is the value of
    [ceil(tinlohi[1]/conterval)].  Incrementing the largest [int] is
    undefined. *)
Fixpoint roughcontours_levels `{Edges} `{EdgeLayout} `{Curves}
    (lfuel fuel : nat) (conterval top : double) (i : Z) : M unit :=
  if dbl_le (of_int i) top then
    match lfuel with
    | O => outoffuel
    | S lfuel' =>
        roughcontours_level fuel (Ieee.mul (of_int i) conterval);;
        if i <? 2147483647
        then roughcontours_levels lfuel' fuel conterval top (i + 1)
        else fault
    end
  else mret tt.

(** [roughcontours], lines 231-267.  [lfuel] bounds the number of levels
    and [fuel] the loops of the tracers. *)
Definition roughcontours `{Edges} `{EdgeLayout} `{Curves} `{!Extent}
    (lfuel fuel : nat) (conterval : double) : M unit :=
  put_contours [];;
  tinlohi ← get_lohi;
  lo ← at_index tinlohi 0;
  first ← lift (match Dbl.to_int (dbl_floor (Ieee.div lo conterval)) with
                | Some i => Ok i
                | None => Fault
                end);
  hi ← at_index tinlohi 1;
  roughcontours_levels lfuel fuel conterval
    (dbl_ceil (Ieee.div hi conterval)) first.

(** ** smoothcontours *)

(** The point location, the triangle members and the surface query used
    by the smoothing; all declared outside the sources at hand. *)
Class Surface `{Triangles} `{Curves} := {
  findt : xy -> option triangle;
  tri_in : triangle -> xy -> bool;
  tri_elevation : triangle -> xy -> double;
  dirclip : triangle -> xy -> Z -> segment;
  pl_elevation : xy -> double
}.

(** Line 307. *)
Definition wide (k sz origsz : Z) : double :=
  Dbl.mul (if sz >? 2 * origsz
           then Dbl.div (Fin (inject_Z sz)) (Fin (inject_Z origsz))
           else Fin 1)
          (if negb (k =? 0) then Fin 0.5 else Fin 0.1).

(** [p.elev()-pl.elevation(p)]: the deviation of a sample point from the
    mesh-wide elevation query. *)
Definition mesh_deviation `{Surface} (p : xyz) : double :=
  Dbl.sub (xyz_elev p) (pl_elevation (xy_of p)).

(** [p.elev()-midptri->elevation(p)]: the deviation from the elevation
    function of the triangle [t]. *)
Definition tri_deviation `{Surface} (t : triangle) (p : xyz) : double :=
  Dbl.sub (xyz_elev p) (tri_elevation t (xy_of p)).

(** The midpoint at which line 315 locates a triangle. *)
Definition arc_middle `{Curves} (sarc : spiralarc) : xy :=
  xy_of (xyz_div (xyz_add (getstart sarc) (getend sarc)) (Fin 2)).

(** Lines 315-326: the split fraction of the arc [sarc] with the sample
    points [lpt] and [rpt]. *)
Definition probe `{Surface} `{SegmentConsts}
    (conterval wd : double) (sarc : spiralarc) (lpt rpt : xyz) : M Q :=
  let midptri := findt (arc_middle sarc) in
  match midptri with
  | Some t =>
      let sp :=
        if tri_in t (xy_of (getstart sarc)) && tri_in t (xy_of (getend sarc))
           && negb (tri_in t (xy_of lpt) && tri_in t (xy_of rpt))
        then splitpoint (mesh_deviation lpt) (mesh_deviation rpt) (Fin 0)
        else splitpoint (tri_deviation t lpt) (tri_deviation t rpt)
                        (Dbl.mul conterval wd) in
      match sp with
      | Some sp => mret sp
      | None => fault
      end
  | None =>
      say MidptriNull;;
      mret 0.5%Q
  end.

(** The variables of the loop of lines 304-351. *)
Record sweep : Type := mksweep {
  sw_n : Z;
  sw_sz : Z;
  sw_j : Z;
  sw_c : polyline
}.

(** Lines 306-350, the body of the loop over [j], without the PostScript
    log ([log] false). *)
Definition visit `{Surface} `{SegmentConsts}
    (conterval : double) (k origsz : Z) (v : sweep) : M sweep :=
  let sz := sw_sz v in
  let c := sw_c v in
  let n := Z.rem (sw_n v + relprime sz) sz in
  let wd := wide k sz origsz in
  let sarc := getspiralarc c n in
  let lpt := sarc_station sarc (Dbl.mul (sarc_length sarc) (Fin CCHALONG)) in
  let rpt := sarc_station sarc (Dbl.mul (sarc_length sarc) (Fin (1 - CCHALONG))) in
  let same := {| sw_n := n; sw_sz := sz; sw_j := sw_j v; sw_c := c |} in
  if xyz_isfinite lpt && xyz_isfinite rpt then
    (if getdelta sarc =? 883276262 then say Delta883276262 else mret tt);;
    sp ← probe conterval wd sarc lpt rpt;
    if negb (Qeq_bool sp 0) && Dbl.gt (sarc_length sarc) conterval then
      let spt := xy_of (xyz_add (getstart sarc)
                          (xyz_scale (Fin sp) (xyz_sub (getend sarc) (getstart sarc)))) in
      t ← nonnull (findt spt);
      let splitseg :=
        dirclip t spt (dir (xy_of (getend sarc)) (xy_of (getstart sarc)) + DEG90) in
      let newpt := seg_station splitseg (seg_contourcept splitseg (elevation c)) in
      if xyz_isfinite newpt
      then mret {| sw_n := n; sw_sz := sz + 1; sw_j := 0;
                   sw_c := polyline_insert_at (xy_of newpt) (n + 1) c |}
      else mret same
    else mret same
  else mret same.

(** The loop [for (j=0;j<sz;j++)] of line 304. *)
Fixpoint refine `{Surface} `{SegmentConsts} (fuel : nat)
    (conterval : double) (k origsz : Z) (v : sweep) : M sweep :=
  if sw_j v <? sw_sz v then
    match fuel with
    | O => outoffuel
    | S fuel' =>
        v ← visit conterval k origsz v;
        refine fuel' conterval k origsz
          {| sw_n := sw_n v; sw_sz := sw_sz v; sw_j := sw_j v + 1; sw_c := sw_c v |}
    end
  else mret v.

(** One pass of lines 299-352: pass [k] on the contour [c]; [n] is carried
    from one pass to the next. *)
Definition smoothpass `{Surface} `{SegmentConsts} (fuel : nat)
    (conterval : double) (k : Z) (nc : Z * polyline) : M (Z * polyline) :=
  let c := if negb (k =? 0) then polyline_smooth (snd nc) else snd nc in
  let sz := polyline_size c in
  v ← refine fuel conterval k sz {| sw_n := fst nc; sw_sz := sz; sw_j := 0; sw_c := c |};
  mret (sw_n v, sw_c v).

(** Lines 291-352 for the contour [c] of index [i]. *)
Definition smoothcontour `{Surface} `{SegmentConsts} (fuel : nat)
    (conterval : double) (i size : Z) (nc : Z * polyline) : M (Z * polyline) :=
  let c := snd nc in
  say (Progress i size (elevation c));;
  (if Dbl.gt (Fin 0.000000001) (Dbl.fabs (Dbl.sub (elevation c) (Fin 203.2)))
      && (polyline_size c =? 11)
   then say Elev2032Size11 else mret tt);;
  for_each [0; 1] (smoothpass fuel conterval) nc.

Definition smoothcontours `{Surface} `{SegmentConsts} (fuel : nat)
    (conterval : double) : M unit :=
  cs ← get_contours;
  '(_, cs') ← for_each (indexed 0 cs) (fun '(i, c) '(n, done) =>
      '(n, c') ← smoothcontour fuel conterval (Z.of_nat i)
                    (Z.of_nat (length cs)) (n, c);
      mret (n, done ++ [c'])) (0, []);
  put_contours cs'.

(** ** The class segment (segment.cpp)

    The segment that [smoothcontours] clips and asks for a station
    (lines 331-332), in the arithmetic of the machine.  The distance of
    two points, the vertical curve and the constants [START] and [END]
    come from headers outside the sources at hand; they are parameters. *)

Class Vertical := {
  dist : xy -> xy -> double;
  vcurve : double -> double -> double -> double -> double -> double;
  vslope : double -> double -> double -> double -> double -> double;
  START : Z;
  END : Z
}.

Module Seg.

Record seg : Type := mkseg {
  start : xyz;
  finish : xyz;
  control1 : double;
  control2 : double
}.

(** [segment::segment()] *)
Definition default : seg :=
  {| start := {| xyz_east := Fin 0; xyz_north := Fin 0; xyz_elev := Fin 0 |};
     finish := {| xyz_east := Fin 0; xyz_north := Fin 0; xyz_elev := Fin 0 |};
     control1 := Fin 0; control2 := Fin 0 |}.

(** [segment::segment(xyz kra,xyz fam)] *)
Definition make (kra fam : xyz) : seg :=
  {| start := kra; finish := fam;
     control1 := Ieee.div (Ieee.add (Ieee.mul (Fin 2) (xyz_elev kra)) (xyz_elev fam))
                         (Fin 3);
     control2 := Ieee.div (Ieee.add (xyz_elev kra) (Ieee.mul (Fin 2) (xyz_elev fam)))
                         (Fin 3) |}.

Definition length `{Vertical} (s : seg) : double :=
  dist (xy_of (start s)) (xy_of (finish s)).

Definition setslope `{Vertical} (which : Z) (sl : double) (s : seg) : seg :=
  if which =? START then
    {| start := start s; finish := finish s;
       control1 := Ieee.div (Ieee.add (Ieee.add (Ieee.mul (Fin 2) (xyz_elev (start s)))
                                             (xyz_elev (finish s)))
                                    (Ieee.mul sl (length s)))
                           (Fin 3);
       control2 := control2 s |}
  else if which =? END then
    {| start := start s; finish := finish s;
       control1 := control1 s;
       control2 := Ieee.div (Ieee.sub (Ieee.add (xyz_elev (start s))
                                             (Ieee.mul (Fin 2) (xyz_elev (finish s))))
                                    (Ieee.mul sl (length s)))
                           (Fin 3) |}
  else s.

Definition elev `{Vertical} (s : seg) (along : double) : double :=
  vcurve (xyz_elev (start s)) (control1 s) (control2 s) (xyz_elev (finish s))
         (Ieee.div along (length s)).

Definition slope `{Vertical} (s : seg) (along : double) : double :=
  Ieee.div (vslope (xyz_elev (start s)) (control1 s) (control2 s)
                  (xyz_elev (finish s)) (Ieee.div along (length s)))
          (length s).

Definition station `{Vertical} (s : seg) (along : double) : xyz :=
  let len := length s in
  let gnola := Ieee.sub len along in
  {| xyz_east := Ieee.div (Ieee.add (Ieee.mul (xyz_east (start s)) gnola)
                                  (Ieee.mul (xyz_east (finish s)) along)) len;
     xyz_north := Ieee.div (Ieee.add (Ieee.mul (xyz_north (start s)) gnola)
                                   (Ieee.mul (xyz_north (finish s)) along)) len;
     xyz_elev := elev s along |}.

Definition midpoint `{Vertical} (s : seg) : xyz :=
  station s (Ieee.div (length s) (Fin 2)).

Definition center (s : seg) : xy := {| east := NaN; north := NaN |}.

End Seg.

(** * Specifications

    [wp flt oof m st Q]: when [m] runs from [st] to a result, [Q] holds of
    the result and the final state.  A fault satisfies the specification
    only if [flt] holds and running out of fuel only if [oof] holds:
    [wp True False] also says that the fuel is enough, and [wp False False]
    that there is a result. *)
Definition wp `{Triangles} {A : Type}
    (flt oof : Prop) (m : M A) (st : state) (Q : A -> state -> Prop) : Prop :=
  match m st with
  | Ok (a, st') => Q a st'
  | Fault => flt
  | OutOfFuel => oof
  end.

(** A positive tolerance: a positive number or plus infinity. *)
Definition positive (tol : double) : Prop :=
  match tol with
  | Fin t => (0 < t)%Q
  | Inf false => True
  | _ => False
  end.

(** [|q| * 27 <= tol * 23] for a finite deviation [q] and a positive
    tolerance. *)
Definition within (q : Q) (tol : double) : Prop :=
  match tol with
  | Fin t => (Qabs q * 27 <= t * 23)%Q
  | Inf neg => neg = false
  | NaN => False
  end.

(** [|q| * 27 > tol * 23] for a finite deviation [q] and a positive
    tolerance. *)
Definition exceeds (q : Q) (tol : double) : Prop :=
  match tol with
  | Fin t => (t * 23 < Qabs q * 27)%Q
  | Inf neg => neg = true
  | NaN => False
  end.

(** [|c| * 27 <= tol * 23] as the machine evaluates it: each product is
    rounded to a double before the two are compared. *)
Definition within_rounded (clamp tol : double) : Prop :=
  dbl_le (Ieee.mul (Dbl.fabs clamp) (Fin 27)) (Ieee.mul tol (Fin 23)) = true.

(** An entry [v] of the table as the array stores it: a float in
    [0.2113, 0.5] whose mirror image [1-v], computed on floats, lies in
    [0.5, 0.7887]. *)
Definition table_fraction (v : double) : Prop :=
  exists a b, v = Fin a /\ (0.2113 <= a <= 0.5)%Q /\
              Ieee.fsub (Fin 1) v = Fin b /\ (0.5 <= b <= 0.7887)%Q.

(** [r] is a result equal to [v]. *)
Definition returns (r : option Q) (v : Q) : Prop :=
  exists sp, r = Some sp /\ (sp == v)%Q.

(** [r] is a result within [eps] of [v]. *)
Definition returns_about (r : option Q) (v eps : Q) : Prop :=
  exists sp, r = Some sp /\ (Qabs (sp - v) <= eps)%Q.

(** [st'] is [st] with the messages [msgs] written. *)
Definition wrote `{Triangles} (st : state) (msgs : list message) (st' : state) : Prop :=
  edges st' = edges st /\ triangles st' = triangles st /\
  contours st' = contours st /\ marklog st' = marklog st /\
  out st' = out st ++ msgs.

(** [c'] is [c] with finite points appended. *)
Definition extends_finite (c c' : polyline) : Prop :=
  isopen c' = isopen c /\
  exists ps, endpoints c' = endpoints c ++ ps /\
             Forall (fun p => xy_isfinite p = true) ps.

(** The messages of a single step of the inner loop of [trace]. *)
Definition step_message (m : message) : Prop :=
  match m with
  | ProceedFailed _ | RepeatedContourcept _ _ => True
  | _ => False
  end.

(** The mark bit a handle points to, if it points into the edges. *)
Definition bit `{Triangles} `{EdgeLayout} (es : list edge) (ep : Z) : option bool :=
  i ← edge_index (Z.land ep (-4));
  e ← es !! i;
  Some (edge_ismarked (Z.land ep 3) e).

(** The edges and the history after [mark(ep)]. *)
Definition marked_edges `{Triangles} (es : list edge) (i : nat) (e : edge) (ep : Z)
    : list edge :=
  <[i := edge_mark (Z.land ep 3) e]> es.

(** [grows es lg es' lg']: the edges [es'] and history [lg'] come from
    [es] and [lg] by calls of [mark]. *)
Inductive grows `{Triangles} `{EdgeLayout} (es : list edge) (lg : list (Z * bool))
    : list edge -> list (Z * bool) -> Prop :=
| grows_refl : grows es lg es lg
| grows_mark es1 lg1 ep i e :
    grows es lg es1 lg1 ->
    edge_index (Z.land ep (-4)) = Some i ->
    es1 !! i = Some e ->
    grows es lg (marked_edges es1 i e ep)
          (lg1 ++ [(ep, edge_ismarked (Z.land ep 3) e)]).


(** The number of clear bits among the bits 0 to 3 of the edges. *)
Definition edge_unmarked `{Triangles} (e : edge) : nat :=
  length (List.filter (fun n => negb (edge_ismarked n e)) [0; 1; 2; 3]).

Definition unmarked `{Triangles} (es : list edge) : nat :=
  sum_list (edge_unmarked <$> es).

(** What one run of the body of the inner loop does. *)
Definition step_post `{Triangles} (st : state) (w : walk) (w' : walk) (st' : state) : Prop :=
  (exists msgs, wrote st msgs st' /\ Forall step_message msgs) /\
  steps w' = S (steps w) /\
  w_i w' = w_i w /\
  extends_finite (w_ret w) (w_ret w').

(** What the inner loop does, started with the counter [w_i w]. *)
Definition walk_post `{Triangles} (st : state) (w : walk) (w' : walk) (st' : state) : Prop :=
  (exists msgs, wrote st msgs st' /\ Forall step_message msgs) /\
  Z.of_nat (steps w') - Z.of_nat (steps w) <= 256 - w_i w /\
  extends_finite (w_ret w) (w_ret w').

(** What the outer loop of [trace] does to the marks and to the polyline
    [ret] it started with. *)
Definition loop_post `{Triangles} `{EdgeLayout}
    (st : state) (ret : polyline) (t : traced) (st' : state) : Prop :=
  grows (edges st) (marklog st) (edges st') (marklog st') /\
  extends_finite ret (t_ret t) /\
  (forall ntri, t_ntri t = Some ntri -> t_wasmarked t = Some true).

(** What [trace] does: it sets marks, the seed's among them; no point of
    the polyline is NaN and all but the first are finite; the polyline is
    open exactly when the outer loop ended with a null [ntri]. *)
Definition trace_post `{Triangles} `{EdgeLayout}
    (st : state) (edgep : Z) (r : polyline * option traced) (st' : state) : Prop :=
  grows (edges st) (marklog st) (edges st') (marklog st') /\
  bit (edges st') edgep = Some true /\
  Forall (fun p => xy_isnan p = false) (endpoints (fst r)) /\
  Forall (fun p => xy_isfinite p = true) (tail (endpoints (fst r))) /\
  match snd r with
  | None => isopen (fst r) = false /\ endpoints (fst r) = []
  | Some t =>
      (isopen (fst r) = true <-> t_ntri t = None) /\
      (forall ntri, t_ntri t = Some ntri ->
                    t_wasmarked t = Some true /\ isopen (fst r) = false)
  end.



(** The result of the probe when the split point is [sp]. *)
Definition probed `{Triangles} (st : state) (sp : option Q) : result (Q * state) :=
  match sp with
  | Some sp => Ok (sp, st)
  | None => Fault
  end.

(** ** The walk of a trace over the mesh

    What [trace] does, told of the mesh alone: which crossings the walk
    from a seed comes to, and how it ends.  The marks decide where it
    stops, so the relation carries the edges along. *)

(** The sub-segment the walk inside a triangle ends on, started on
    [subedge]: it follows [proceed] as long as [proceed] gives a
    sub-segment, for at most [n] steps (lines 165-185, with [n] 256). *)
Fixpoint walk_end `{Triangles} (n : nat) (tri : triangle) (elev : double)
    (subedge : Z) : Z :=
  match n with
  | O => subedge
  | S n' =>
      let subnext := proceed tri subedge elev in
      if subnext >=? 0 then walk_end n' tri elev subnext else subedge
  end.

(** The crossing the walk through [tri] comes to from the crossing
    [edgep] (line 187): the handle [edgepart] gives for the last
    sub-segment, 0 when that lies on no edge. *)
Definition crossing_reached `{Triangles} (tri : triangle) (elev : double)
    (edgep : Z) : Z :=
  edgepart tri (walk_end 256 tri elev (subdir tri edgep)).

(** How a walk ends: inside a triangle, where [edgepart] gives no edge; at
    the boundary of the mesh, where the edge reached has no triangle on
    its other side; or on a crossing that was already marked, with a
    triangle on the other side. *)
Inductive ending : Type :=
| Inside
| Boundary
| Closed.

Definition opens (en : ending) : bool :=
  match en with
  | Inside | Boundary => true
  | Closed => false
  end.

(** [traverses elev es edgep tri hs en es']: with the edges [es], the walk
    from the crossing [edgep] into the triangle [tri] comes to the
    crossings [hs], in this order, and ends as [en] says; [es'] are the
    edges with the crossings [hs] marked.  From a crossing that was not
    yet marked the walk goes on into the triangle on the other side of its
    edge. *)
Inductive traverses `{Edges} `{EdgeLayout} (elev : double)
    : list edge -> Z -> triangle -> list Z -> ending -> list edge -> Prop :=
| traverses_inside es edgep tri :
    crossing_reached tri elev edgep = 0 ->
    traverses elev es edgep tri [] Inside es
| traverses_boundary es edgep tri i e :
    crossing_reached tri elev edgep <> 0 ->
    edge_index (Z.land (crossing_reached tri elev edgep) (-4)) = Some i ->
    es !! i = Some e ->
    othertri (edge_mark (Z.land (crossing_reached tri elev edgep) 3) e) tri = None ->
    traverses elev es edgep tri [crossing_reached tri elev edgep] Boundary
              (marked_edges es i e (crossing_reached tri elev edgep))
| traverses_closed es edgep tri i e ntri :
    crossing_reached tri elev edgep <> 0 ->
    edge_index (Z.land (crossing_reached tri elev edgep) (-4)) = Some i ->
    es !! i = Some e ->
    othertri (edge_mark (Z.land (crossing_reached tri elev edgep) 3) e) tri
    = Some ntri ->
    edge_ismarked (Z.land (crossing_reached tri elev edgep) 3) e = true ->
    traverses elev es edgep tri [crossing_reached tri elev edgep] Closed
              (marked_edges es i e (crossing_reached tri elev edgep))
| traverses_on es edgep tri i e ntri hs en es' :
    crossing_reached tri elev edgep <> 0 ->
    edge_index (Z.land (crossing_reached tri elev edgep) (-4)) = Some i ->
    es !! i = Some e ->
    othertri (edge_mark (Z.land (crossing_reached tri elev edgep) 3) e) tri
    = Some ntri ->
    edge_ismarked (Z.land (crossing_reached tri elev edgep) 3) e = false ->
    traverses elev (marked_edges es i e (crossing_reached tri elev edgep))
              (crossing_reached tri elev edgep) ntri hs en es' ->
    traverses elev es edgep tri (crossing_reached tri elev edgep :: hs) en es'.

(** [sweeps elev es cstarts hs es']: with the edges [es], the boundary
    traces from the seeds [cstarts], taken in their order, come to the
    crossings [hs] and leave the edges [es'].  A seed that is marked when
    its turn comes is passed over; any other seed is marked and, unless
    its crossing point is NaN, walked from its starting triangle. *)
Inductive sweeps `{Edges} `{EdgeLayout} (elev : double)
    : list edge -> list Z -> list Z -> list edge -> Prop :=
| sweeps_nil es : sweeps elev es [] [] es
| sweeps_marked es s rest hs es' :
    bit es s = Some true ->
    sweeps elev es rest hs es' ->
    sweeps elev es (s :: rest) hs es'
| sweeps_nan es s rest i e tri hs es' :
    edge_index (Z.land s (-4)) = Some i ->
    es !! i = Some e ->
    edge_ismarked (Z.land s 3) e = false ->
    start_tri e s = Some tri ->
    xy_isnan (contourcept tri (subdir tri s) elev) = true ->
    sweeps elev (marked_edges es i e s) rest hs es' ->
    sweeps elev es (s :: rest) (s :: hs) es'
| sweeps_trace es s rest i e tri ws en es1 hs es' :
    edge_index (Z.land s (-4)) = Some i ->
    es !! i = Some e ->
    edge_ismarked (Z.land s 3) e = false ->
    start_tri e s = Some tri ->
    xy_isnan (contourcept tri (subdir tri s) elev) = false ->
    traverses elev (marked_edges es i e s) s tri ws en es1 ->
    sweeps elev es1 rest hs es' ->
    sweeps elev es (s :: rest) (s :: ws ++ hs) es'.

(** ** The statements about the tracers

    Each is a property of the outcome of a run.  The fuel given is enough,
    so running out of it is excluded; a run that faults has no result to
    speak of. *)


(** No point of the polyline is NaN, and every point after the first is
    finite. *)
Definition points_checked `{Triangles}
    (r : result (polyline * option traced * state)) : Prop :=
  match r with
  | Ok (c, _, _) =>
      Forall (fun p => xy_isnan p = false) (endpoints c) /\
      Forall (fun p => xy_isfinite p = true) (tail (endpoints c))
  | Fault => True
  | OutOfFuel => False
  end.

(** Every point of the polyline is finite. *)
Definition points_finite `{Triangles}
    (r : result (polyline * option traced * state)) : Prop :=
  match r with
  | Ok (c, _, _) => Forall (fun p => xy_isfinite p = true) (endpoints c)
  | Fault => True
  | OutOfFuel => False
  end.


(** The inner loop of [trace] returns after at most 256 runs of its body,
    having written only messages of single steps. *)
Definition walk_bounded `{Triangles} (st : state) (r : result (walk * state)) : Prop :=
  exists w st', r = Ok (w, st') /\ (steps w <= 256)%nat /\
                exists msgs, wrote st msgs st' /\ Forall step_message msgs.

(** The collection of sub-segments in [intrace] returns with at most 256
    entries. *)
Definition collection_bounded (r : result (Z * list Z)) : Prop :=
  exists j sube, r = Ok (j, sube) /\ (length sube <= 256)%nat.

(** The claim that the inner loop reports when its cap is exhausted: a
    walk that ran 256 times and could go on has written something. *)
Definition cap_reported `{Triangles} (st : state) (r : result (walk * state)) : Prop :=
  forall w st', r = Ok (w, st') -> steps w = 256%nat -> 0 <= w_subnext w ->
                out st' <> out st.

(** * The seed rule in the words of the spec

    The seeds in two passes, exterior edges first, each pass in the order
    of the edge vector; [rule] tells which crossings of an edge are seeds. *)

(** The handles of the three sides of edge [i]. *)
Definition side_handles `{EdgeLayout} (i : nat) : list Z :=
  (fun j => j + edge_addr i) <$> [0; 1; 2].

Definition seeds_on `{Edges} `{EdgeLayout}
    (rule : edge -> triangle -> Z -> bool) (elev : double)
    (ie : nat * edge) : list Z :=
  match edge_tri (snd ie) with
  | Some tri =>
      List.filter (fun ep => crosses tri (subdir tri ep) elev
                             && rule (snd ie) tri (subdir tri ep))
                  (side_handles (fst ie))
  | None => []
  end.

Definition two_pass `{Edges} `{EdgeLayout}
    (rule : edge -> triangle -> Z -> bool) (elev : double)
    (es : list edge) : list Z :=
  flat_map (seeds_on rule elev)
           (List.filter (fun ie => negb (isinterior (snd ie))) (indexed 0 es))
  ++ flat_map (seeds_on rule elev)
              (List.filter (fun ie => isinterior (snd ie)) (indexed 0 es)).

(** The rule as the spec states it: on an exterior edge every crossing is
    a seed, on an interior edge only an upleft crossing. *)
Definition stated_rule `{Edges} (e : edge) (tri : triangle) (sd : Z) : bool :=
  negb (isinterior e) || upleft tri sd.

(** The rule of the code: on an interior edge every crossing is a seed, on
    an exterior edge only an upleft crossing. *)
Definition coded_rule `{Edges} (e : edge) (tri : triangle) (sd : Z) : bool :=
  isinterior e || upleft tri sd.

(** * A sample mesh

    Concrete values of the parameters, on which the statements below are
    exercised. *)

(** The spec gives [CCHALONG] as about 0.2113. *)
Definition sample_consts : SegmentConsts := {| CCHALONG := 0.2113 |}.

(** The edges lie at address 4096 and take 64 bytes each. *)
Definition sample_layout : EdgeLayout.
Proof.
  refine {| ebase := 4096; esize := 64 |}; reflexivity.
Defined.

(** A strip of two triangles 0 and 1.  Edge 0 is an exterior edge of
    triangle 0, edge 1 lies between the two, edge 2 is an exterior edge of
    triangle 1.  A handle [4096 + 64*i + j] has the sub-segment
    [64*i + j]; the contour passes over side 0 of each edge, entering
    triangle 0 at edge 0 and leaving triangle 1 at edge 2.  How the contour
    proceeds inside a triangle and where its crossings lie are left open:
    [proc] and [cept]. *)
Definition strip (proc : nat -> Z -> Z) (cept : nat -> Z -> xy) : Triangles := {|
  triangle := nat;
  subdir := fun _ ep => ep - 4096;
  crosses := fun _ sd _ => (sd =? 0) || (sd =? 64) || (sd =? 128);
  upleft := fun t sd =>
    match t with
    | O => sd =? 0
    | _ => sd =? 64
    end;
  proceed := fun t sd _ => proc t sd;
  contourcept := fun t sd _ => cept t sd;
  edgepart := fun t sd =>
    match t with
    | O => if sd =? 64 then 4160 else 0
    | _ => if sd =? 128 then 4224 else 0
    end;
  subdiv_size := fun _ => 192
|}.

Definition strip_edges `{Triangles} (t0 t1 : triangle) : list edge :=
  [ {| tria := Some t0; trib := None; contour := 0 |};
    {| tria := Some t0; trib := Some t1; contour := 0 |};
    {| tria := Some t1; trib := None; contour := 0 |} ].

Definition neighbours `{Triangles} : Edges := {|
  isinterior := fun e => match tria e, trib e with
                         | Some _, Some _ => true
                         | _, _ => false
                         end;
  othertri := fun e _ => trib e
|}.

Definition strip_state `{Triangles} (t0 t1 : triangle) : state :=
  {| edges := strip_edges t0 t1; triangles := [t0; t1]; contours := [];
     out := []; marklog := [] |}.

(** The crossing of sub-segment [sd] lies at [(sd, 0)]. *)
Definition on_axis (sd : Z) : xy := {| east := Fin (inject_Z sd); north := Fin 0 |}.

(** The contour goes 0, 10, 64 in triangle 0 and 64, 20, 128 in
    triangle 1; a negative result of [proceed] ends the walk inside a
    triangle. *)
Definition short_walk (t : nat) (sd : Z) : Z :=
  match t with
  | O => if sd =? 0 then 10 else if sd =? 10 then 64 else -1
  | _ => if sd =? 64 then 20 else if sd =? 20 then 128 else -1
  end.

Definition sample_mesh : Triangles := strip short_walk (fun _ => on_axis).

Definition sample_state : @state sample_mesh := @strip_state sample_mesh 0%nat 1%nat.

(** The same strip, but the crossing of the seed overflows to infinity. *)
Definition overflow_mesh : Triangles :=
  strip short_walk
        (fun _ sd => if sd =? 0 then {| east := Inf false; north := Fin 0 |}
                     else on_axis sd).

(** A strip in which the contour never leaves triangle 0 by itself: every
    sub-segment has a next one.  After 256 steps the walk stands on
    sub-segment 64 of edge 1. *)
Definition long_mesh : Triangles :=
  strip (fun t sd => match t with
                     | O => if sd =? 0 then 1000
                            else if sd =? 1254 then 64
                            else sd + 1
                     | _ => short_walk t sd
                     end)
        (fun _ => on_axis).

Definition overflow_state : @state overflow_mesh :=
  @strip_state overflow_mesh 0%nat 1%nat.

Definition long_state : @state long_mesh := @strip_state long_mesh 0%nat 1%nat.

(** A ring of two triangles 0 and 1 that share the edges 0 and 1.  The
    contour is a closed loop: it enters triangle 0 over edge 0, leaves it
    over edge 1 and comes back through triangle 1. *)
Definition ring_mesh : Triangles := {|
  triangle := nat;
  subdir := fun _ ep => ep - 4096;
  crosses := fun _ sd _ => (sd =? 0) || (sd =? 64);
  upleft := fun t sd =>
    match t with
    | O => sd =? 0
    | _ => sd =? 64
    end;
  proceed := fun t sd _ =>
    match t with
    | O => if sd =? 0 then 64 else -1
    | _ => if sd =? 64 then 0 else -1
    end;
  contourcept := fun _ sd _ => on_axis sd;
  edgepart := fun t sd =>
    match t with
    | O => if sd =? 64 then 4160 else 0
    | _ => if sd =? 0 then 4096 else 0
    end;
  subdiv_size := fun _ => 128
|}.

(** In the ring the other triangle of an edge is the one that is not the
    given one. *)
Definition ring_neighbours : @Edges ring_mesh :=
  @Build_Edges ring_mesh
    (fun _ => true)
    (fun e t => match @tria ring_mesh e with
                | Some a => if Nat.eqb a t then @trib ring_mesh e else Some a
                | None => None
                end).

Definition ring_state : @state ring_mesh :=
  @mkstate ring_mesh
    [ @mkedge ring_mesh (Some 0%nat) (Some 1%nat) 0;
      @mkedge ring_mesh (Some 0%nat) (Some 1%nat) 0 ]
    [0%nat; 1%nat] [] [] [].

(** The default curve classes: no arcs at all. *)
Definition no_curves : Curves := {|
  spiralarc := unit;
  segment := unit;
  dedup := fun c => c;
  getspiralarc := fun _ _ => tt;
  sarc_length := fun _ => Fin 10;
  sarc_station := fun _ along => {| xyz_east := along; xyz_north := Fin 0; xyz_elev := Fin 0 |};
  getstart := fun _ => {| xyz_east := Fin 0; xyz_north := Fin 0; xyz_elev := Fin 0 |};
  getend := fun _ => {| xyz_east := Fin 10; xyz_north := Fin 0; xyz_elev := Fin 0 |};
  getdelta := fun _ => 0;
  seg_station := fun _ along => {| xyz_east := along; xyz_north := Fin 0; xyz_elev := Fin 0 |};
  seg_contourcept := fun _ _ => NaN;
  relprime := fun _ => 1;
  dir := fun _ _ => 0;
  DEG90 := 536870912
|}.

(** A surface over the strip: every point is located in triangle 0, which
    holds the points east of 5; the triangle is level at elevation 0, and
    the mesh-wide query knows no elevation at all. *)
Definition sample_surface : @Surface sample_mesh no_curves :=
  @Build_Surface sample_mesh no_curves
    (fun _ => Some 0%nat)
    (fun _ p => Dbl.gt (Fin 5) (east p))
    (fun _ _ => Fin 0)
    (fun _ _ _ => tt)
    (fun _ => NaN).

(** A surface on which no point can be located. *)
Definition blind_surface : @Surface sample_mesh no_curves :=
  @Build_Surface sample_mesh no_curves
    (fun _ => None)
    (fun _ _ => false)
    (fun _ _ => Fin 0)
    (fun _ _ _ => tt)
    (fun _ => NaN).

Definition sample_lpt : xyz := {| xyz_east := Fin 2; xyz_north := Fin 0; xyz_elev := Fin 0 |}.
Definition sample_rpt : xyz := {| xyz_east := Fin 8; xyz_north := Fin 0; xyz_elev := Fin 0 |}.

(** * Further notions

    Predicates and helper functions in which the further properties at the
    end of the file are stated. *)

(** An edge with no triangle on either side; [contstarts] asserts there
    is none (line 75). *)
Definition no_triangle `{Triangles} (e : edge) : bool :=
  match edge_tri e with
  | Some _ => false
  | None => true
  end.

(** A seed: the handle of one of the sides 0 to 2 of an edge of [es] that
    crosses the elevation, seen from the triangle [contstarts] examines. *)
Definition crossing_handle `{Triangles} `{EdgeLayout}
    (es : list edge) (elev : double) (ep : Z) : Prop :=
  exists i e j tri,
    es !! i = Some e /\
    0 <= j <= 2 /\
    ep = j + edge_addr i /\
    edge_tri e = Some tri /\
    crosses tri (subdir tri ep) elev = true.

(** The sub-segments a walk inside a triangle visits: [n] of them from
    [j] on, each the result of [proceed] on the one before. *)
Fixpoint chain `{Triangles} (tri : triangle) (elev : double) (j : Z) (n : nat)
    : list Z :=
  match n with
  | O => []
  | S n' => j :: chain tri elev (proceed tri j elev) n'
  end.

(** The sub-segment [n] steps of [proceed] after [j]. *)
Definition proceeded `{Triangles} (tri : triangle) (elev : double) (j : Z) (n : nat)
    : Z :=
  Nat.iter n (fun j => proceed tri j elev) j.

(** The finite crossing points of the sub-segments [sube]. *)
Definition finite_cepts `{Triangles} (tri : triangle) (elev : double)
    (sube : list Z) : list xy :=
  List.filter xy_isfinite (List.map (fun s => contourcept tri s elev) sube).

(** [e'] is [e] with, at most, more bits set in [contour]. *)
Definition edge_kept `{Triangles} (e e' : edge) : Prop :=
  tria e' = tria e /\ trib e' = trib e /\
  forall n, Z.testbit (contour e) n = true -> Z.testbit (contour e') n = true.

(** [st'] differs from [st] in mark bits that were set and in messages
    that were written, and in nothing else. *)
Definition only_marks `{Triangles} (st st' : state) : Prop :=
  triangles st' = triangles st /\
  contours st' = contours st /\
  (exists msgs, out st' = out st ++ msgs) /\
  Forall2 edge_kept (edges st) (edges st').

(** The edges [es'] join the same triangles as the edges [es]. *)
Definition same_topology `{Triangles} (es es' : list edge) : Prop :=
  Forall2 (fun e e' => tria e' = tria e /\ trib e' = trib e) es es'.

(** [st'] has the contours of [st] and at most [n] more after them. *)
Definition collected `{Triangles} (n : nat) (st st' : state) : Prop :=
  exists new, contours st' = contours st ++ new /\ (length new <= n)%nat.

(** The contours inside single triangles, as [intrace] returns them and
    line 260 lets them pass. *)
Definition inner_contour (elev : double) (c : polyline) : Prop :=
  endpoints c <> [] /\
  Forall (fun p => xy_isfinite p = true) (endpoints c) /\
  isopen c = isopen (polyline_new elev) /\
  elevation c = elev.

(** [c'] is the contour [c] with, at most, points inserted: the elevation
    and the open flag are the same, and the points of [c] are among those
    of [c'], in the same order. *)
Definition refined (c c' : polyline) : Prop :=
  elevation c' = elevation c /\
  isopen c' = isopen c /\
  sublist (endpoints c) (endpoints c').

(** The segment of the contour that one run of the body of the loop of
    line 304 looks at (line 306). *)
Definition visited `{Curves} (v : sweep) : Z :=
  Z.rem (sw_n v + relprime (sw_sz v)) (sw_sz v).

(** What one run of the body of the loop of line 304 does to the loop
    variables: it moves on to the segment [visited v], and either leaves
    the contour as it is or inserts one finite point after the start of
    that segment, counts it and resets [j]. *)
Definition visit_post `{Curves} (conterval : double) (v v' : sweep) : Prop :=
  sw_n v' = visited v /\
  ((sw_c v' = sw_c v /\ sw_sz v' = sw_sz v /\ sw_j v' = sw_j v) \/
   (exists p, xy_isfinite p = true /\
              sw_c v' = polyline_insert_at p (visited v + 1) (sw_c v) /\
              sw_sz v' = sw_sz v + 1 /\ sw_j v' = 0 /\
              Dbl.gt (sarc_length (getspiralarc (sw_c v) (visited v))) conterval
              = true)).


(** * Further samples *)

(** A mesh whose triangle 0 holds a closed contour over the sub-segments
    1, 2 and 3 of its four; in triangle 1 nothing crosses. *)
Definition loop_mesh : Triangles := {|
  triangle := nat;
  subdir := fun _ ep => ep - 4096;
  crosses := fun t sd _ => match t with O => sd =? 1 | _ => false end;
  upleft := fun _ _ => true;
  proceed := fun _ sd _ => if sd =? 3 then 1 else sd + 1;
  contourcept := fun _ sd _ => on_axis sd;
  edgepart := fun _ _ => 0;
  subdiv_size := fun _ => 4
|}.

(** The strip with a seed whose crossing is not a number. *)
Definition nan_mesh : Triangles :=
  strip short_walk (fun _ _ => {| east := NaN; north := Fin 0 |}).

Definition nan_state : @state nan_mesh := @strip_state nan_mesh 0%nat 1%nat.

(** On the sample strip the elevations range from 0 to 25. *)
Definition sample_extent : @Extent sample_mesh :=
  @Build_Extent sample_mesh (fun _ => [Fin 0; Fin 25]).

(** A distance for the samples: the distance along the east axis; and a
    vertical curve that is level. *)
Definition sample_vertical : Vertical := {|
  dist := fun p q => Dbl.fabs (Ieee.sub (east q) (east p));
  vcurve := fun a _ _ _ _ => a;
  vslope := fun _ _ _ _ _ => Fin 0;
  START := 1;
  END := 2
|}.

Definition point_seg : Seg.seg :=
  Seg.make {| xyz_east := Fin 2; xyz_north := Fin 0; xyz_elev := Fin 0 |}
           {| xyz_east := Fin 2; xyz_north := Fin 0; xyz_elev := Fin 0 |}.

(** A traced contour of two points, and the loop variables at the start
    of a pass over it. *)
Definition sample_contour : polyline :=
  {| elevation := Fin 0; endpoints := [on_axis 0; on_axis 10];
     isopen := true; curvy := false |}.

Definition sample_sweep : sweep :=
  {| sw_n := 0; sw_sz := 1; sw_j := 0; sw_c := sample_contour |}.

(** The sample strip with that contour collected. *)
Definition contour_state : @state sample_mesh :=
  @mkstate sample_mesh (@strip_edges sample_mesh 0%nat 1%nat) [0%nat; 1%nat]
    [sample_contour] [] [].

(** A surface over the strip that is level at elevation 1, for the
    triangles and for the mesh-wide query alike. *)
Definition level_surface : @Surface sample_mesh no_curves :=
  @Build_Surface sample_mesh no_curves
    (fun _ => Some 0%nat)
    (fun _ p => Dbl.gt (Fin 5) (east p))
    (fun _ _ => Fin 1)
    (fun _ _ _ => tt)
    (fun _ => Fin 1).

(** Curves whose arcs get shorter as the contour gets points: an arc of a
    contour of [m] points has the length [8 / m], rounded down.  A clipped
    segment meets every elevation at its station 5. *)
Definition arc_curves : Curves := {|
  spiralarc := Z;
  segment := unit;
  dedup := fun c => c;
  getspiralarc := fun c _ => polyline_size c;
  sarc_length := fun m => Fin (inject_Z (8 / m));
  sarc_station := fun _ along => {| xyz_east := along; xyz_north := Fin 0; xyz_elev := Fin 0 |};
  getstart := fun _ => {| xyz_east := Fin 0; xyz_north := Fin 0; xyz_elev := Fin 0 |};
  getend := fun _ => {| xyz_east := Fin 10; xyz_north := Fin 0; xyz_elev := Fin 0 |};
  getdelta := fun _ => 0;
  seg_station := fun _ along => {| xyz_east := along; xyz_north := Fin 0; xyz_elev := Fin 0 |};
  seg_contourcept := fun _ _ => Fin 5;
  relprime := fun _ => 1;
  dir := fun _ _ => 0;
  DEG90 := 536870912
|}.

(** A surface over the strip that lies 1 above the sample points. *)
Definition raised_surface : @Surface sample_mesh arc_curves :=
  @Build_Surface sample_mesh arc_curves
    (fun _ => Some 0%nat)
    (fun _ p => Dbl.gt (Fin 5) (east p))
    (fun _ _ => Fin 1)
    (fun _ _ _ => tt)
    (fun _ => Fin 1).

(** * Properties *)

(** ** splitpoint *)

Section Splitpoint.

Local Open Scope Q_scope.

Lemma gt_Fin (x y : Q) : Dbl.gt (Fin x) (Fin y) = true <-> y < x.
Proof.
  unfold Dbl.gt. rewrite Qgt_alt.
  destruct (x ?= y); split; congruence.
Qed.

Lemma gt_Fin_false (x y : Q) : Dbl.gt (Fin x) (Fin y) = false <-> x <= y.
Proof.
  unfold Dbl.gt. rewrite Qle_alt.
  destruct (x ?= y); split; congruence.
Qed.

Lemma qzero_false (q : Q) : ~ q == 0 -> Dbl.qzero q = false.
Proof.
  unfold Dbl.qzero, Qeq. simpl. intros Hq.
  apply Z.eqb_neq. lia.
Qed.

Lemma Qabs_pos_nonzero (q : Q) : 0 < Qabs q -> ~ q == 0.
Proof.
  intros Hq Hz. rewrite Hz in Hq. change (Qabs 0) with 0 in Hq. lra.
Qed.

(** A quotient whose numerator is no larger in magnitude than its
    denominator lies between -1 and 1. *)
Lemma ratio_bounds (a b : Q) :
  Qabs a <= Qabs b -> 0 < Qabs b -> -1 <= a / b <= 1.
Proof.
  intros Hab Hb.
  change (-1) with (- (1)).
  apply (proj1 (Qabs_Qle_condition (a / b) 1)).
  unfold Qdiv. rewrite Qabs_Qmult, Qabs_Qinv.
  apply Qle_shift_div_r; [assumption | lra].
Qed.

Lemma rintQ_bounds (q : Q) : 0 <= q <= 64 -> (0 <= Dbl.rintQ q <= 64)%Z.
Proof.
  intros [Hlo Hhi]. unfold Dbl.rintQ.
  pose proof (Qfloor_resp_le _ _ Hlo) as Hf0.
  pose proof (Qfloor_resp_le _ _ Hhi) as Hf64.
  pose proof (Qfloor_le q) as Hfq.
  change (Qfloor 0) with 0%Z in Hf0.
  change (Qfloor 64) with 64%Z in Hf64.
  assert (Hhalf : 1 # 2 <= q - inject_Z (Qfloor q) -> (Qfloor q <= 63)%Z).
  { intros Hh.
    assert (Hq : inject_Z (Qfloor q) <= 127 # 2) by lra.
    unfold Qle in Hq. simpl in Hq. lia. }
  destruct (Qcompare_spec (q - inject_Z (Qfloor q)) (1 # 2)) as [He | Hl | Hg].
  - destruct (Z.even (Qfloor q)); [lia |].
    assert (Qfloor q <= 63)%Z by (apply Hhalf; lra). lia.
  - lia.
  - assert (Qfloor q <= 63)%Z by (apply Hhalf; lra). lia.
Qed.

Lemma to_int_inject (z : Z) :
  (-2147483648 <= z <= 2147483647)%Z ->
  Dbl.to_int (Fin (inject_Z z)) = Some z.
Proof.
  intros Hz. unfold Dbl.to_int. simpl. rewrite Z.quot_1_r.
  destruct (Z.leb_spec (-2147483648) z); [| lia].
  destruct (Z.leb_spec z 2147483647); [reflexivity | lia].
Qed.

Lemma splittab_range :
  Forall (fun v => 0.2113 <= v <= 0.5) splittab.
Proof.
  unfold splittab.
  repeat (apply Forall_cons_2; [split; unfold Qle; simpl; lia |]).
  apply Forall_nil_2.
Qed.

Lemma splittab_at_range (i : Z) :
  (0 <= i <= 64)%Z ->
  exists v, splittab_at i = Some v /\ 0.2113 <= v <= 0.5.
Proof.
  intros Hi. unfold splittab_at.
  destruct (Z.ltb_spec i 0); [lia |].
  destruct (lookup_lt_is_Some_2 splittab (Z.to_nat i)) as [v Hv].
  { change (length splittab) with 65%nat. lia. }
  exists v. split; [assumption |].
  exact (proj1 (Forall_lookup _ _) splittab_range _ _ Hv).
Qed.

Lemma out_of_tolerance_Fin (l r t : Q) :
  out_of_tolerance (Fin l) (Fin r) (Fin t) = true <->
  t * 23 < Qabs l * 27 \/ t * 23 < Qabs r * 27.
Proof.
  unfold out_of_tolerance. cbn [Dbl.fabs Dbl.mul].
  rewrite orb_true_iff, !gt_Fin. reflexivity.
Qed.

(** C3 (amended).  [splitpoint(NaN, 0.02, 0.01)] returns [CCHALONG] and
    [splitpoint(0.001, 0.001, 0.01)] returns 0.  For the deviations 0.03
    and -0.03 of opposite sign the ratio is -1 and the result is the first
    table entry, 0.2113; the fraction 0.5 is returned for equal deviations
    of the same sign, as in [splitpoint(0.03, 0.03, 0.01)]. *)
Theorem splitpoint_scenarios `{SegmentConsts} :
  splitpoint NaN (Fin 0.02) (Fin 0.01) = Some CCHALONG /\
  returns (splitpoint (Fin 0.001) (Fin 0.001) (Fin 0.01)) 0 /\
  returns (splitpoint (Fin 0.03) (Fin (-0.03)) (Fin 0.01)) 0.2113 /\
  returns (splitpoint (Fin 0.03) (Fin 0.03) (Fin 0.01)) 0.5.
Proof.
  split; [reflexivity |].
  repeat split; eexists; (split; [vm_compute; reflexivity | reflexivity]).
Qed.

(** C3 as stated fails: [splitpoint(0.03, -0.03, 0.01)] is 0.2113, which
    is not within 0.1 of 0.5. *)
Lemma splitpoint_scenarios_counterexample :
  ~ (@splitpoint sample_consts NaN (Fin 0.02) (Fin 0.01)
       = Some (@CCHALONG sample_consts) /\
     returns (@splitpoint sample_consts (Fin 0.001) (Fin 0.001) (Fin 0.01)) 0 /\
     returns_about
       (@splitpoint sample_consts (Fin 0.03) (Fin (-0.03)) (Fin 0.01)) 0.5 0.1).
Proof.
  intros (_ & _ & sp & Hsp & Habs).
  vm_compute in Hsp. injection Hsp as <-.
  vm_compute in Habs. apply Habs. reflexivity.
Qed.

End Splitpoint.

(** ** Rounding *)

Section Rounding.

Import Ieee.
Local Open Scope Q_scope.

Lemma pow2_pos (e : Z) : 0 < pow2 e.
Proof. apply Qpower_0_lt. reflexivity. Qed.

Lemma pow2_le (e e' : Z) : (e <= e')%Z -> pow2 e <= pow2 e'.
Proof. intros. apply Qpower_le_compat_l; [assumption | discriminate]. Qed.

Lemma pow2_lt_inv (e e' : Z) : pow2 e < pow2 e' -> (e < e')%Z.
Proof. intros. apply (Qpower_lt_compat_l_inv 2); [assumption | reflexivity]. Qed.

Lemma pow2_add (a b : Z) : pow2 (a + b) == pow2 a * pow2 b.
Proof. apply Qpower_plus. discriminate. Qed.

Lemma pow2_inject (n : Z) : (0 <= n)%Z -> pow2 n == inject_Z (2 ^ n).
Proof. intros. unfold pow2. rewrite Zpower_Qpower by assumption. reflexivity. Qed.

(** [Qlog2 q] is the exponent of the leading digit of [q]. *)
Lemma Qlog2_spec (q : Q) : 0 < q -> pow2 (Qlog2 q) <= q < pow2 (Qlog2 q + 1).
Proof.
  intros Hq. destruct q as [n d]. unfold Qlog2. cbn [Qnum Qden].
  assert (Hn : (0 < n)%Z) by (unfold Qlt in Hq; simpl in Hq; lia).
  set (a := Z.log2 n). set (b := Z.log2 (Z.pos d)).
  assert (Ha : (2 ^ a <= n < 2 ^ (a + 1))%Z).
  { pose proof (Z.log2_spec n Hn) as Hs. unfold a.
    replace (Z.log2 n + 1)%Z with (Z.succ (Z.log2 n)) by lia. exact Hs. }
  assert (Hb : (2 ^ b <= Z.pos d < 2 ^ (b + 1))%Z).
  { pose proof (Z.log2_spec (Z.pos d) ltac:(lia)) as Hs. unfold b.
    replace (Z.log2 (Z.pos d) + 1)%Z with (Z.succ (Z.log2 (Z.pos d))) by lia.
    exact Hs. }
  assert (Ha0 : (0 <= a)%Z) by apply Z.log2_nonneg.
  assert (Hb0 : (0 <= b)%Z) by apply Z.log2_nonneg.
  assert (Hnd : n # d == inject_Z n / inject_Z (Z.pos d)) by apply Qmake_Qdiv.
  assert (Hdpos : 0 < inject_Z (Z.pos d)) by reflexivity.
  assert (Hlo : pow2 (a - b - 1) < n # d).
  { rewrite Hnd. apply Qlt_shift_div_l; [assumption |].
    assert (pow2 a == pow2 (a - b - 1) * pow2 (b + 1))
      by (rewrite <- pow2_add; f_equiv; lia).
    assert (inject_Z (Z.pos d) < pow2 (b + 1)).
    { rewrite (pow2_inject (b + 1)) by lia. rewrite <- Zlt_Qlt. lia. }
    assert (pow2 a <= inject_Z n).
    { rewrite (pow2_inject a) by lia. rewrite <- Zle_Qle. lia. }
    pose proof (pow2_pos (a - b - 1)).
    nra. }
  assert (Hhi : n # d < pow2 (a - b + 1)).
  { rewrite Hnd. apply Qlt_shift_div_r; [assumption |].
    assert (pow2 (a + 1) == pow2 (a - b + 1) * pow2 b)
      by (rewrite <- pow2_add; f_equiv; lia).
    assert (pow2 b <= inject_Z (Z.pos d)).
    { rewrite (pow2_inject b) by lia. rewrite <- Zle_Qle. lia. }
    assert (inject_Z n < pow2 (a + 1)).
    { rewrite (pow2_inject (a + 1)) by lia. rewrite <- Zlt_Qlt. lia. }
    pose proof (pow2_pos (a - b + 1)).
    nra. }
  destruct (Qle_bool (pow2 (a - b)) (n # d)) eqn:Hk.
  - apply Qle_bool_iff in Hk. split; assumption.
  - assert (Hk' : n # d < pow2 (a - b)).
    { apply Qnot_le_lt. intros Hc. apply Qle_bool_iff in Hc. congruence. }
    replace (a - b - 1 + 1)%Z with (a - b)%Z by lia.
    split; [apply Qlt_le_weak |]; assumption.
Qed.

Lemma Qlog2_mono (x y : Q) : 0 < x -> x <= y -> (Qlog2 x <= Qlog2 y)%Z.
Proof.
  intros Hx Hxy.
  destruct (Qlog2_spec x Hx) as [Hx1 _].
  destruct (Qlog2_spec y ltac:(lra)) as [_ Hy2].
  assert (Hlt : pow2 (Qlog2 x) < pow2 (Qlog2 y + 1)) by lra.
  apply pow2_lt_inv in Hlt. lia.
Qed.

(** [rint] moves a number by at most one half. *)
Lemma rintQ_near (q : Q) :
  q - (1 # 2) <= inject_Z (Dbl.rintQ q) <= q + (1 # 2).
Proof.
  unfold Dbl.rintQ.
  pose proof (Qfloor_le q) as Hf. pose proof (Qlt_floor q) as Hc.
  rewrite inject_Z_plus in Hc. change (inject_Z 1) with 1 in Hc.
  destruct (Qcompare_spec (q - inject_Z (Qfloor q)) (1 # 2)) as [He | Hl | Hg].
  - destruct (Z.even (Qfloor q)).
    + lra.
    + rewrite inject_Z_plus. change (inject_Z 1) with 1. lra.
  - lra.
  - rewrite inject_Z_plus. change (inject_Z 1) with 1. lra.
Qed.

Lemma rintQ_comp (x y : Q) : x == y -> Dbl.rintQ x = Dbl.rintQ y.
Proof.
  intros Hxy. unfold Dbl.rintQ.
  rewrite (Qfloor_comp _ _ Hxy).
  assert (He : x - inject_Z (Qfloor y) == y - inject_Z (Qfloor y))
    by (rewrite Hxy; reflexivity).
  rewrite (Qcompare_comp _ _ He _ _ (Qeq_refl (1 # 2))). reflexivity.
Qed.

Lemma rintQ_mono (x y : Q) : x <= y -> (Dbl.rintQ x <= Dbl.rintQ y)%Z.
Proof.
  intros Hxy.
  destruct (Qeq_dec x y) as [He | Hne].
  { rewrite (rintQ_comp _ _ He). lia. }
  assert (Hlt : x < y).
  { apply Qnot_le_lt. intros Hc. apply Hne. apply Qle_antisym; assumption. }
  destruct (Z.le_gt_cases (Dbl.rintQ x) (Dbl.rintQ y)) as [| Hgt];
    [assumption | exfalso].
  assert (H1 : inject_Z (Dbl.rintQ y) + 1 <= inject_Z (Dbl.rintQ x)).
  { change 1 with (inject_Z 1). rewrite <- inject_Z_plus. rewrite <- Zle_Qle. lia. }
  pose proof (rintQ_near x). pose proof (rintQ_near y). lra.
Qed.

Lemma rintQ_inject (z : Z) : Dbl.rintQ (inject_Z z) = z.
Proof.
  unfold Dbl.rintQ. rewrite Qfloor_Z.
  destruct (Qcompare_spec (inject_Z z - inject_Z z) (1 # 2)) as [He | Hl | Hg];
    [lra | reflexivity | lra].
Qed.

Variable f : format.
Hypothesis Hprec : (1 <= prec f)%Z.

(** Rounding keeps the order.  Two numbers with the same last exponent
    are rounded on the same grid; otherwise a power of two lies between
    them, and it is a number of the format. *)
Lemma nearest_pos_mono (x y : Q) :
  0 < x -> x <= y -> nearest_pos f x <= nearest_pos f y.
Proof.
  intros Hx Hxy. assert (Hy : 0 < y) by lra.
  unfold nearest_pos.
  pose proof (Qlog2_mono x y Hx Hxy) as Hlog.
  destruct (Qlog2_spec x Hx) as [_ Hx2].
  destruct (Qlog2_spec y Hy) as [Hy1 _].
  set (ex := ulp_exp f x). set (ey := ulp_exp f y).
  assert (Hex : (Qlog2 x - (prec f - 1) <= ex)%Z) by (unfold ex, ulp_exp; lia).
  pose proof (pow2_pos ex) as Hpx. pose proof (pow2_pos ey) as Hpy.
  destruct (Z.eq_dec ex ey) as [He | Hne].
  - rewrite <- He.
    apply Qmult_le_compat_r; [| lra].
    rewrite <- Zle_Qle. apply rintQ_mono.
    apply Qmult_le_compat_r; [assumption |].
    apply Qlt_le_weak, Qinv_lt_0_compat. assumption.
  - assert (Hlt : (ex < ey)%Z) by (unfold ex, ey, ulp_exp in *; lia).
    assert (Hey : ey = (Qlog2 y - (prec f - 1))%Z)
      by (unfold ex, ey, ulp_exp in *; lia).
    apply Qle_trans with (pow2 (ey + (prec f - 1))).
    + apply Qle_trans with (pow2 (prec f) * pow2 ex).
      * apply Qmult_le_compat_r; [| lra].
        rewrite (pow2_inject (prec f)) by lia. rewrite <- Zle_Qle.
        rewrite <- (rintQ_inject (2 ^ prec f)).
        apply rintQ_mono. rewrite <- (pow2_inject (prec f)) by lia.
        apply Qle_shift_div_r; [assumption |].
        rewrite <- pow2_add.
        apply Qle_trans with (pow2 (Qlog2 x + 1)); [lra |].
        apply pow2_le. lia.
      * rewrite <- pow2_add. apply pow2_le. lia.
    + apply Qle_trans with (pow2 (prec f - 1) * pow2 ey).
      * rewrite <- pow2_add. apply pow2_le. lia.
      * apply Qmult_le_compat_r; [| lra].
        rewrite (pow2_inject (prec f - 1)) by lia. rewrite <- Zle_Qle.
        rewrite <- (rintQ_inject (2 ^ (prec f - 1))).
        apply rintQ_mono. rewrite <- (pow2_inject (prec f - 1)) by lia.
        apply Qle_shift_div_l; [assumption |].
        rewrite <- pow2_add.
        apply Qle_trans with (pow2 (Qlog2 y)); [| lra].
        apply pow2_le. lia.
Qed.

Lemma nearest_pos_nonneg (x : Q) : 0 <= x -> 0 <= nearest_pos f x.
Proof.
  intros Hx. unfold nearest_pos.
  pose proof (pow2_pos (ulp_exp f x)) as Hp.
  apply Qmult_le_0_compat; [| lra].
  change 0 with (inject_Z 0). rewrite <- Zle_Qle.
  rewrite <- (rintQ_inject 0). apply rintQ_mono.
  change (inject_Z 0) with 0.
  apply Qle_shift_div_l; [assumption | lra].
Qed.

Lemma nearest_mono (x y : Q) : x <= y -> nearest f x <= nearest f y.
Proof.
  intros Hxy. unfold nearest.
  destruct (Qcompare_spec x 0) as [Hx | Hx | Hx];
    destruct (Qcompare_spec y 0) as [Hy | Hy | Hy]; try lra.
  - apply nearest_pos_nonneg. lra.
  - pose proof (nearest_pos_nonneg (- x) ltac:(lra)). lra.
  - pose proof (nearest_pos_mono (- y) (- x) ltac:(lra) ltac:(lra)). lra.
  - pose proof (nearest_pos_nonneg (- x) ltac:(lra)).
    pose proof (nearest_pos_nonneg y ltac:(lra)). lra.
  - apply nearest_pos_mono; assumption.
Qed.

Lemma round_comp (x y : Q) : x == y -> round f x = round f y.
Proof.
  intros Hxy. unfold round.
  assert (He : nearest f x == nearest f y)
    by (apply Qle_antisym; apply nearest_mono; lra).
  rewrite (Qred_complete _ _ He). reflexivity.
Qed.

Lemma round_zero : round f 0 = Fin 0.
Proof.
  unfold round. change (Qred (nearest f 0)) with 0. cbv zeta.
  destruct (Qle_bool (pow2 (emax f)) (Qabs 0)) eqn:Hb; [| reflexivity].
  apply Qle_bool_iff in Hb. pose proof (pow2_pos (emax f)).
  change (Qabs 0) with 0 in Hb. lra.
Qed.

Lemma round_not_nan (x : Q) : Dbl.isnan (round f x) = false.
Proof. unfold round. cbv zeta. destruct (Qle_bool _ _); reflexivity. Qed.

Lemma qneg_true (v : Q) : Dbl.qneg v = true <-> v < 0.
Proof.
  unfold Dbl.qneg, Qlt. simpl. rewrite Z.ltb_lt. lia.
Qed.

(** What [round] returns, in terms of the nearest value [v]. *)
Lemma round_cases (x : Q) :
  exists v, v == nearest f x /\
    ((round f x = Fin v /\ Qabs v < pow2 (emax f)) \/
     (round f x = Inf false /\ pow2 (emax f) <= v) \/
     (round f x = Inf true /\ v <= - pow2 (emax f))).
Proof.
  exists (Qred (nearest f x)). split; [apply Qred_correct |].
  unfold round. cbv zeta.
  set (v := Qred (nearest f x)).
  pose proof (pow2_pos (emax f)) as Hp.
  destruct (Qle_bool (pow2 (emax f)) (Qabs v)) eqn:Hb.
  - apply Qle_bool_iff in Hb. right.
    destruct (Dbl.qneg v) eqn:Hn.
    + right. split; [reflexivity |]. apply qneg_true in Hn.
      rewrite Qabs_neg in Hb by lra. lra.
    + left. split; [reflexivity |].
      assert (Hv : ~ v < 0) by (rewrite <- qneg_true; congruence).
      rewrite Qabs_pos in Hb by lra. exact Hb.
  - left. split; [reflexivity |].
    apply Qnot_le_lt. intros Hc. apply Qle_bool_iff in Hc. congruence.
Qed.

Lemma round_mono_gt (x y : Q) : x <= y -> Dbl.gt (round f x) (round f y) = false.
Proof.
  intros Hxy. pose proof (nearest_mono x y Hxy) as Hn.
  pose proof (pow2_pos (emax f)) as Hp.
  destruct (round_cases x) as (vx & Hvx & [[-> Hx] | [[-> Hx] | [-> Hx]]]);
    destruct (round_cases y) as (vy & Hvy & [[-> Hy] | [[-> Hy] | [-> Hy]]]);
    try reflexivity; rewrite Hvx in *; rewrite Hvy in *.
  - apply gt_Fin_false. rewrite Hvx, Hvy. exact Hn.
  - exfalso. rewrite <- Hvx in Hx. apply Qabs_Qlt_condition in Hx. rewrite Hvx in Hx. lra.
  - exfalso. apply Qabs_Qlt_condition in Hy. lra.
  - exfalso. lra.
Qed.

(** A value between two numbers of the format is rounded to a number
    between them. *)
Lemma round_between (lo hi x lo' hi' : Q) :
  lo <= x <= hi ->
  round f lo = Fin lo' -> round f hi = Fin hi' ->
  exists q, round f x = Fin q /\ lo' <= q <= hi'.
Proof.
  intros [Hlo Hhi] Hrl Hrh.
  pose proof (round_mono_gt lo x Hlo) as H1.
  pose proof (round_mono_gt x hi Hhi) as H2.
  rewrite Hrl in H1. rewrite Hrh in H2.
  pose proof (round_not_nan x) as Hn.
  destruct (round f x) as [| [|] | q]; cbn [Dbl.gt Dbl.isnan negb andb] in H1, H2, Hn;
    try discriminate.
  exists q. split; [reflexivity |].
  apply gt_Fin_false in H1, H2. split; assumption.
Qed.

Lemma round_nonneg (x : Q) : 0 <= x -> Dbl.gt (Fin 0) (round f x) = false.
Proof. intros Hx. rewrite <- round_zero. apply round_mono_gt, Hx. Qed.

End Rounding.

(** [Ieee] agrees with the binary64 arithmetic of the kernel on these
    operands: the clamp value next above 23/27 with 27, inexact sums and
    quotients, results that overflow, ties at the largest number and
    among the smallest numbers, and underflow to 0. *)
Example ieee_agrees :
  forallb agrees
    [ (0x1.b425ed097b426p-1, 27); (1, 23); (0x1.999999999999ap-4, 0x1.999999999999ap-3);
      (0x1.6666666666666p-1, 3); (0x1.0cccccccccccdp+1, 3); (1, 3);
      (-0x1.3333333333333p-2, 0x1.999999999999ap-4);
      (0x1p1023, 27); (0x1.fffffffffffffp1023, 0x1p970);
      (0x1.fffffffffffffp1023, 0x1p969); (0x1.1ccf385ebc8ap+1023, 10);
      (0x1p-1074, 0.5); (0x1.8p-1073, 0.5); (0x0.00000000007e8p-1022, 0x1.3333333333333p-2);
      (0x0.0000000000001p-1022, 0x0.0000000000001p-1022) ]%float
  = true.
Proof. vm_compute. reflexivity. Qed.

(** ** splitpoint in the arithmetic of the machine *)

Section SplitpointRounded.

Local Open Scope Q_scope.

Lemma prec64 : (1 <= Ieee.prec Ieee.binary64)%Z.
Proof. discriminate. Qed.

Lemma prec32 : (1 <= Ieee.prec Ieee.binary32)%Z.
Proof. discriminate. Qed.

Lemma mul_Fin (x y : Q) : Ieee.mul (Fin x) (Fin y) = Ieee.round Ieee.binary64 (x * y).
Proof. reflexivity. Qed.

(** The product of line 47 with the tolerance is not negative. *)
Lemma tolerance_product (tol : double) :
  positive tol -> Dbl.gt (Fin 0) (Ieee.mul tol (Fin 23)) = false.
Proof.
  destruct tol as [| [|] | t]; try contradiction; intros Ht.
  - reflexivity.
  - rewrite mul_Fin. apply (round_nonneg _ prec64). cbn [positive] in Ht. lra.
Qed.


(** A clamp that passes the test of line 47 against a positive tolerance
    is not 0. *)
Lemma exceeds_nonzero (c : Q) (tol : double) :
  positive tol -> Rounded.exceeds (Fin c) tol = true -> ~ c == 0.
Proof.
  intros Ht He Hc. unfold Rounded.exceeds in He. cbn [Dbl.fabs] in He.
  rewrite mul_Fin in He.
  rewrite (round_comp _ prec64 (Qabs c * 27) 0) in He
    by (rewrite Hc; reflexivity).
  rewrite round_zero, (tolerance_product tol Ht) in He. discriminate.
Qed.

Lemma round64_between (lo hi x : Q) :
  lo <= x <= hi ->
  Ieee.round Ieee.binary64 lo = Fin lo -> Ieee.round Ieee.binary64 hi = Fin hi ->
  exists q, Ieee.round Ieee.binary64 x = Fin q /\ lo <= q <= hi.
Proof. intros. eapply (round_between _ prec64); eassumption. Qed.

(** What lines 49-51 compute for finite clamp values that pass the test
    of line 47. *)
Lemma rounded_branch (l r : Q) (tol : double) :
  positive tol ->
  Rounded.out_of_tolerance (Fin l) (Fin r) tol = true ->
  (exists d, splitdivisor (Fin l) (Fin r) = Fin d /\ ~ d == 0) /\
  (exists q, Rounded.splitratio (Fin l) (Fin r) = Fin q /\ -1 <= q <= 1) /\
  (exists i, Rounded.splitindex (Fin l) (Fin r) = Some i /\ (0 <= i <= 64)%Z).
Proof.
  intros Ht Hout.
  assert (Hbig : 0 < Qabs (if whichbig (Fin l) (Fin r) then r else l) /\
                 Qabs (if whichbig (Fin l) (Fin r) then l else r)
                 <= Qabs (if whichbig (Fin l) (Fin r) then r else l)).
  { pose proof (Qabs_nonneg l) as Hl0. pose proof (Qabs_nonneg r) as Hr0.
    assert (Hpos : forall c, ~ c == 0 -> 0 < Qabs c).
    { intros c Hc. destruct (Qlt_le_dec 0 (Qabs c)) as [| Hle]; [assumption |].
      exfalso. apply Hc. apply Qabs_Qle_condition in Hle. lra. }
    destruct (whichbig (Fin l) (Fin r)) eqn:Hw; unfold whichbig in Hw; simpl in Hw.
    - apply gt_Fin in Hw. split; lra.
    - apply gt_Fin_false in Hw.
      unfold Rounded.out_of_tolerance in Hout.
      apply orb_true_iff in Hout. destruct Hout as [Ho | Ho];
        apply (exceeds_nonzero _ _ Ht), Hpos in Ho; split; lra. }
  destruct Hbig as [Hpos Hle].
  assert (Hratio : exists q, Rounded.splitratio (Fin l) (Fin r) = Fin q /\ -1 <= q <= 1).
  { unfold Rounded.splitratio.
    destruct (whichbig (Fin l) (Fin r)); unfold Ieee.div; cbn [Dbl.div];
      rewrite (qzero_false _ (Qabs_pos_nonzero _ Hpos)); cbn [Ieee.to_double];
      (apply round64_between; [apply ratio_bounds; assumption | reflexivity ..]). }
  split; [| split; [exact Hratio |]].
  - unfold splitdivisor.
    destruct (whichbig (Fin l) (Fin r)); eexists;
      (split; [reflexivity | apply Qabs_pos_nonzero; assumption]).
  - destruct Hratio as (q & Hq & Hq1).
    unfold Rounded.splitindex. rewrite Hq.
    unfold Ieee.add. cbn [Dbl.add Ieee.to_double].
    destruct (round64_between 0 2 (q + 1) ltac:(lra) eq_refl eq_refl)
      as (a & -> & Ha).
    unfold Ieee.mul. cbn [Dbl.mul Ieee.to_double].
    destruct (round64_between 0 64 (a * 32) ltac:(lra) eq_refl eq_refl)
      as (b & -> & Hb).
    cbn [Dbl.rint].
    pose proof (rintQ_bounds b Hb) as Hi.
    exists (Dbl.rintQ b). split; [| exact Hi].
    apply to_int_inject. lia.
Qed.

Lemma rounded_splittab_range : Forall table_fraction Rounded.splittab.
Proof.
  unfold Rounded.splittab, splittab. cbn [fmap list_fmap].
  repeat (apply Forall_cons_2;
          [eexists _, _; split; [vm_compute; reflexivity |];
           split; [split; discriminate |];
           split; [vm_compute; reflexivity | split; discriminate] |]).
  apply Forall_nil_2.
Qed.

Lemma rounded_splittab_at (i : Z) :
  (0 <= i <= 64)%Z -> exists v, Rounded.splittab_at i = Some v /\ table_fraction v.
Proof.
  intros Hi. unfold Rounded.splittab_at.
  destruct (Z.ltb_spec i 0); [lia |].
  destruct (lookup_lt_is_Some_2 Rounded.splittab (Z.to_nat i)) as [v Hv].
  { change (length Rounded.splittab) with 65%nat. lia. }
  exists v. split; [assumption |].
  exact (proj1 (Forall_lookup _ _) rounded_splittab_range _ _ Hv).
Qed.

(** The value returned on the branch of lines 48-54. *)
Lemma rounded_splitpoint_branch `{SegmentConsts} (l r : Q) (tol : double) :
  positive tol ->
  Rounded.out_of_tolerance (Fin l) (Fin r) tol = true ->
  exists i v,
    Rounded.splitindex (Fin l) (Fin r) = Some i /\ (0 <= i <= 64)%Z /\
    Rounded.splittab_at i = Some v /\ table_fraction v /\
    Rounded.splitpoint (Fin l) (Fin r) tol
    = Some (if whichbig (Fin l) (Fin r) then Ieee.fsub (Fin 1) v else v).
Proof.
  intros Ht Hout.
  destruct (rounded_branch l r tol Ht Hout) as (_ & _ & i & Hi & Hi1).
  destruct (rounded_splittab_at i Hi1) as (v & Hv & Hv1).
  exists i, v. repeat split; try assumption; try lia.
  unfold Rounded.splitpoint. cbn [Dbl.isnan]. rewrite Hout, Hi. simpl.
  rewrite Hv. reflexivity.
Qed.

(** On a finite clamp and a positive tolerance, the test of line 47 fails
    exactly when [<=] holds of the two rounded products. *)
Lemma within_rounded_iff (c : Q) (tol : double) :
  positive tol ->
  within_rounded (Fin c) tol <-> Rounded.exceeds (Fin c) tol = false.
Proof.
  intros Ht. unfold within_rounded, Rounded.exceeds. cbn [Dbl.fabs].
  rewrite mul_Fin.
  pose proof (round_not_nan Ieee.binary64 (Qabs c * 27)) as Hn.
  assert (Hm : Dbl.isnan (Ieee.mul tol (Fin 23)) = false).
  { destruct tol as [| [|] | t]; try contradiction; [reflexivity |].
    rewrite mul_Fin. apply round_not_nan. }
  destruct (Ieee.round Ieee.binary64 (Qabs c * 27)) as [| sa | a]; [discriminate | |];
    (destruct (Ieee.mul tol (Fin 23)) as [| sb | b]; [discriminate | |]);
    cbn [dbl_le]; rewrite negb_true_iff; reflexivity.
Qed.

(** An exact inequality survives the rounding of its two sides. *)
Lemma within_exceeds (c : Q) (tol : double) :
  positive tol -> within c tol -> Rounded.exceeds (Fin c) tol = false.
Proof.
  intros Ht Hw. unfold Rounded.exceeds. cbn [Dbl.fabs]. rewrite mul_Fin.
  destruct tol as [| [|] | t]; try contradiction.
  - change (Ieee.mul (Inf false) (Fin 23)) with (Inf false).
    pose proof (round_not_nan Ieee.binary64 (Qabs c * 27)) as Hn.
    destruct (Ieee.round Ieee.binary64 (Qabs c * 27)) as [| [|] | a];
      [discriminate | reflexivity ..].
  - rewrite mul_Fin. apply (round_mono_gt _ prec64). exact Hw.
Qed.

(** C4 (amended).  For a positive tolerance: a NaN left clamp gives
    [CCHALONG], stored as a float; a finite left clamp with a NaN right
    clamp gives [1 - CCHALONG]; for two finite clamps the result is 0
    exactly when both magnitudes times 27 are at most the tolerance times
    23 in the arithmetic of the machine, where each product is rounded to
    a double.  The inequalities between the exact products are enough for
    the result 0. *)
Theorem splitpoint_cases `{SegmentConsts} (l r tol : double) :
  positive tol ->
  (Dbl.isnan l = true ->
   Rounded.splitpoint l r tol = Some (Ieee.to_float (Fin CCHALONG))) /\
  (Dbl.isfinite l = true -> Dbl.isnan r = true ->
   Rounded.splitpoint l r tol
   = Some (Ieee.to_float (Ieee.sub (Fin 1) (Fin CCHALONG)))) /\
  (forall ql qr, l = Fin ql -> r = Fin qr ->
     exists sp, Rounded.splitpoint l r tol = Some (Fin sp) /\
       (sp == 0 <-> within_rounded l tol /\ within_rounded r tol) /\
       (within ql tol /\ within qr tol -> sp == 0)).
Proof.
  intros Ht. split; [| split].
  - intros Hl. unfold Rounded.splitpoint. rewrite Hl. reflexivity.
  - intros Hl Hr. destruct l; try discriminate.
    unfold Rounded.splitpoint. cbn [Dbl.isnan]. rewrite Hr. reflexivity.
  - intros ql qr -> ->.
    pose proof (within_rounded_iff ql tol Ht) as Hwl.
    pose proof (within_rounded_iff qr tol Ht) as Hwr.
    destruct (Rounded.out_of_tolerance (Fin ql) (Fin qr) tol) eqn:Hout.
    + destruct (rounded_splitpoint_branch ql qr tol Ht Hout)
        as (i & v & _ & _ & _ & (a & b & -> & Ha & Hb & Hb1) & Hsp).
      rewrite Hb in Hsp.
      exists (if whichbig (Fin ql) (Fin qr) then b else a).
      split; [rewrite Hsp; destruct (whichbig _ _); reflexivity |].
      unfold Rounded.out_of_tolerance in Hout. apply orb_true_iff in Hout.
      rewrite Hwl, Hwr. split; [split |].
      * intros Hz. destruct (whichbig _ _); lra.
      * intros [H1 H2]. destruct Hout; congruence.
      * intros [H1 H2]. apply (within_exceeds _ _ Ht) in H1, H2.
        destruct Hout; congruence.
    + exists 0. split.
      * unfold Rounded.splitpoint. cbn [Dbl.isnan]. rewrite Hout. reflexivity.
      * unfold Rounded.out_of_tolerance in Hout. apply orb_false_iff in Hout.
        rewrite Hwl, Hwr.
        split; [split |]; [intros _; exact Hout | reflexivity | reflexivity].
Qed.

(** C10 (amended).  For finite clamp values and a positive tolerance,
    when one of the magnitudes times 27 exceeds the tolerance times 23 in
    the arithmetic of the machine (line 47, each product rounded to a
    double): the divisor of the ratio is not zero, the rounded ratio lies
    in [-1, 1], the table index lies in [0, 64] and is inside the table,
    and the split fraction returned, a float, lies in [0.2113, 0.7887]. *)
Theorem splitpoint_safe `{SegmentConsts} (l r : Q) (tol : double) :
  positive tol ->
  Rounded.exceeds (Fin l) tol = true \/ Rounded.exceeds (Fin r) tol = true ->
  (exists d, splitdivisor (Fin l) (Fin r) = Fin d /\ ~ d == 0) /\
  (exists q, Rounded.splitratio (Fin l) (Fin r) = Fin q /\ -1 <= q <= 1) /\
  (exists i, Rounded.splitindex (Fin l) (Fin r) = Some i /\ (0 <= i <= 64)%Z /\
             is_Some (Rounded.splittab_at i)) /\
  (exists sp, Rounded.splitpoint (Fin l) (Fin r) tol = Some (Fin sp) /\
              0.2113 <= sp <= 0.7887).
Proof.
  intros Ht Hex.
  assert (Hout : Rounded.out_of_tolerance (Fin l) (Fin r) tol = true).
  { unfold Rounded.out_of_tolerance. apply orb_true_iff. exact Hex. }
  destruct (rounded_branch l r tol Ht Hout) as (Hd & Hq & _).
  destruct (rounded_splitpoint_branch l r tol Ht Hout)
    as (i & v & Hi & Hi1 & Hv & (a & b & -> & Ha & Hb & Hb1) & Hsp).
  split; [exact Hd |]. split; [exact Hq |]. split.
  - exists i. split; [exact Hi |]. split; [exact Hi1 |]. eexists. exact Hv.
  - rewrite Hsp, Hb.
    destruct (whichbig (Fin l) (Fin r)); eexists; (split; [reflexivity | lra]).
Qed.

End SplitpointRounded.

Lemma splitpoint_cases_witness :
  positive (Fin 0.5) /\
  exists sp, @Rounded.splitpoint sample_consts (Fin 0.75) (Fin 1) (Fin 0.5)
             = Some (Fin sp) /\
    ((sp == 0)%Q <-> within_rounded (Fin 0.75) (Fin 0.5) /\
                     within_rounded (Fin 1) (Fin 0.5)) /\
    (within 0.75 (Fin 0.5) /\ within 1 (Fin 0.5) -> (sp == 0)%Q).
Proof.
  split; [reflexivity |].
  apply (@splitpoint_cases sample_consts (Fin 0.75) (Fin 1) (Fin 0.5));
    reflexivity.
Defined.

(** C4 as stated fails for the double 3836399682574867 / 2^52, the one
    next above 23/27, taken as both clamp values with the tolerance 1: its
    product with 27 is larger than 23 but rounds to 23, so the test of
    line 47 fails and the result is 0. *)
Lemma splitpoint_cases_counterexample :
  let c := (3836399682574867 # 4503599627370496)%Q in
  Ieee.to_double (Fin c) = Fin c /\
  ~ (forall sp, @Rounded.splitpoint sample_consts (Fin c) (Fin c) (Fin 1)
                = Some (Fin sp) ->
                ((sp == 0)%Q <-> within c (Fin 1) /\ within c (Fin 1))).
Proof.
  cbv zeta. split; [vm_compute; reflexivity |].
  intros Hall.
  assert (Hrun : @Rounded.splitpoint sample_consts
                   (Fin (3836399682574867 # 4503599627370496))
                   (Fin (3836399682574867 # 4503599627370496)) (Fin 1)
                 = Some (Fin 0)) by (vm_compute; reflexivity).
  destruct (proj1 (Hall 0%Q Hrun) (Qeq_refl 0)) as [Hw _].
  vm_compute in Hw. apply Hw. reflexivity.
Qed.

Lemma splitpoint_safe_witness :
  positive (Fin 0.5) /\
  (Rounded.exceeds (Fin 0.75) (Fin 0.5) = true \/
   Rounded.exceeds (Fin (-1)) (Fin 0.5) = true) /\
  exists sp, @Rounded.splitpoint sample_consts (Fin 0.75) (Fin (-1)) (Fin 0.5)
             = Some (Fin sp) /\
             (0.2113 <= sp <= 0.7887)%Q.
Proof.
  split; [reflexivity |]. split; [left; reflexivity |].
  apply (@splitpoint_safe sample_consts 0.75 (-1) (Fin 0.5));
    [reflexivity | left; reflexivity].
Defined.

(** C10 as stated fails at the same values: the exact product exceeds the
    tolerance times 23, and the result is 0. *)
Lemma splitpoint_safe_counterexample :
  let c := (3836399682574867 # 4503599627370496)%Q in
  ~ (positive (Fin 1) -> exceeds c (Fin 1) \/ exceeds c (Fin 1) ->
     exists sp, @Rounded.splitpoint sample_consts (Fin c) (Fin c) (Fin 1)
                = Some (Fin sp) /\
                (0.2113 <= sp <= 0.7887)%Q).
Proof.
  cbv zeta. intros Hall.
  destruct (Hall ltac:(reflexivity) ltac:(left; reflexivity)) as (sp & Hsp & Hlo & _).
  vm_compute in Hsp. injection Hsp as <-.
  apply Hlo. reflexivity.
Qed.



(** ** Rules for specifications *)

Section Rules.

Context `{Triangles}.

Lemma bind_Ok {A B : Type} (m : M A) (f : A -> M B) (st st' : state) (b : B) :
  (m ≫= f) st = Ok (b, st') <->
  exists a st1, m st = Ok (a, st1) /\ f a st1 = Ok (b, st').
Proof.
  unfold mbind, M_bind. split.
  - destruct (m st) as [[a st1] | |]; try discriminate.
    intros Hf. exists a, st1. split; [reflexivity | assumption].
  - intros (a & st1 & -> & Hf). assumption.
Qed.

Lemma wp_ret {A : Type} (flt oof : Prop) (a : A) (st : state) Q :
  Q a st -> wp flt oof (mret a) st Q.
Proof. intros HQ. exact HQ. Qed.

Lemma wp_bind {A B : Type} (flt oof : Prop) (m : M A) (f : A -> M B) (st : state) Q :
  wp flt oof m st (fun a st1 => wp flt oof (f a) st1 Q) ->
  wp flt oof (m ≫= f) st Q.
Proof.
  unfold wp, mbind, M_bind.
  destruct (m st) as [[a st1] | |]; intros Hm; exact Hm.
Qed.

Lemma wp_mono {A : Type} (flt oof : Prop) (m : M A) (st : state)
    (Q Q' : A -> state -> Prop) :
  wp flt oof m st Q ->
  (forall a st', Q a st' -> Q' a st') ->
  wp flt oof m st Q'.
Proof.
  unfold wp. destruct (m st) as [[a st1] | |]; intros Hm HQ; auto.
Qed.

Lemma wp_conj {A : Type} (flt oof flt' oof' : Prop) (m : M A) (st : state)
    (Q Q' : A -> state -> Prop) :
  wp flt oof m st Q -> wp flt' oof' m st Q' ->
  wp flt oof m st (fun a st' => Q a st' /\ Q' a st').
Proof.
  unfold wp. destruct (m st) as [[a st'] | |]; intros HQ HQ'; auto.
Qed.

Lemma wp_nonnull (oof : Prop) (o : option triangle) (st : state) Q :
  (forall t, o = Some t -> Q t st) -> wp True oof (nonnull o) st Q.
Proof.
  intros HQ. destruct o as [t |]; [apply HQ; reflexivity | exact I].
Qed.

Lemma wp_say (flt oof : Prop) (m : message) (st : state) Q :
  (forall st', wrote st [m] st' -> Q tt st') -> wp flt oof (say m) st Q.
Proof.
  intros HQ. apply HQ. repeat split.
Qed.

Lemma wp_push_contour (flt oof : Prop) (c : polyline) (st : state) Q :
  (forall st', edges st' = edges st -> marklog st' = marklog st -> Q tt st') ->
  wp flt oof (push_contour c) st Q.
Proof.
  intros HQ. apply HQ; reflexivity.
Qed.

Lemma wrote_refl (st : state) : wrote st [] st.
Proof.
  unfold wrote. rewrite app_nil_r. repeat split.
Qed.

Lemma wrote_trans (st st1 st2 : state) (ms ms' : list message) :
  wrote st ms st1 -> wrote st1 ms' st2 -> wrote st (ms ++ ms') st2.
Proof.
  unfold wrote. intros (? & ? & ? & ? & ?) (? & ? & ? & ? & ?).
  rewrite app_assoc. repeat split; congruence.
Qed.

Context `{EdgeLayout}.

Lemma wp_deref (oof : Prop) (a : Z) (st : state) Q :
  (forall i e, edge_index a = Some i -> edges st !! i = Some e -> Q (i, e) st) ->
  wp True oof (deref a) st Q.
Proof.
  intros HQ. unfold wp, deref, mbind, M_bind, get_edges.
  destruct (edge_index a) as [i |]; [| exact I].
  destruct (edges st !! i) as [e |] eqn:He; [| exact I].
  apply HQ; [reflexivity | assumption].
Qed.

Lemma wp_ismarked (oof : Prop) (ep : Z) (st : state) Q :
  (forall b, bit (edges st) ep = Some b -> Q b st) ->
  wp True oof (ismarked ep) st Q.
Proof.
  intros HQ. unfold ismarked. apply wp_bind, wp_deref.
  intros i e Hi He. apply HQ.
  unfold bit. rewrite Hi. simpl. rewrite He. reflexivity.
Qed.

Lemma wp_mark (oof : Prop) (ep : Z) (st : state) Q :
  (forall i e st',
      edge_index (Z.land ep (-4)) = Some i ->
      edges st !! i = Some e ->
      edges st' = marked_edges (edges st) i e ep ->
      marklog st' = marklog st ++ [(ep, edge_ismarked (Z.land ep 3) e)] ->
      Q tt st') ->
  wp True oof (mark ep) st Q.
Proof.
  intros HQ. unfold mark. apply wp_bind, wp_deref.
  intros i e Hi He. apply (HQ i e); try assumption; reflexivity.
Qed.

End Rules.

(** ** contstarts *)

Section Contstarts.

Context `{Edges} `{EdgeLayout}.

(** The three sides of one edge, lines 77-86. *)
Lemma contstarts_sides (io : Z) (e : edge) (i : nat) (tri : triangle)
    (elev : double) (acc : list Z) (st : state) :
  io = Z.b2z (isinterior e) ->
  edge_tri e = Some tri ->
  for_each [0; 1; 2] (fun j ret =>
      let ep := j + edge_addr i in
      let sd := subdir tri ep in
      if crosses tri sd elev && (negb (io =? 0) || upleft tri sd)
      then mret (ret ++ [ep])
      else mret ret) acc st
  = Ok (acc ++ seeds_on coded_rule elev (i, e), st).
Proof.
  intros Hio Htri.
  assert (Hrule : forall sd, negb (io =? 0) || upleft tri sd = coded_rule e tri sd).
  { intros sd. unfold coded_rule. rewrite Hio. destruct (isinterior e); reflexivity. }
  unfold seeds_on, side_handles. simpl. rewrite Htri.
  unfold mbind, M_bind, mret, M_ret. rewrite !Hrule. simpl.
  destruct (crosses tri (subdir tri (0 + edge_addr i)) elev
            && coded_rule e tri (subdir tri (0 + edge_addr i)));
    destruct (crosses tri (subdir tri (1 + edge_addr i)) elev
              && coded_rule e tri (subdir tri (1 + edge_addr i)));
    destruct (crosses tri (subdir tri (2 + edge_addr i)) elev
              && coded_rule e tri (subdir tri (2 + edge_addr i)));
    simpl; rewrite <- ?app_assoc, ?app_nil_r; reflexivity.
Qed.

(** One pass over the edges, lines 69-87. *)
Lemma contstarts_pass (io : Z) (elev : double) (es : list edge) (n : nat)
    (acc : list Z) (st : state) :
  io = 0 \/ io = 1 ->
  Forall (fun e => is_Some (edge_tri e)) es ->
  for_each (indexed n es) (fun '(i, e) ret =>
      if io =? Z.b2z (isinterior e) then
        tri ← nonnull (edge_tri e);
        for_each [0; 1; 2] (fun j ret =>
          let ep := j + edge_addr i in
          let sd := subdir tri ep in
          if crosses tri sd elev && (negb (io =? 0) || upleft tri sd)
          then mret (ret ++ [ep])
          else mret ret) ret
      else mret ret) acc st
  = Ok (acc ++ flat_map (seeds_on coded_rule elev)
                 (List.filter (fun ie => Z.b2z (isinterior (snd ie)) =? io)
                              (indexed n es)), st).
Proof.
  intros Hio Hes. revert n acc.
  induction Hes as [| e es [tri Htri] Hes IH]; intros n acc.
  - simpl. rewrite app_nil_r. reflexivity.
  - cbn [indexed for_each].
    apply bind_Ok.
    destruct (Z.eqb_spec io (Z.b2z (isinterior e))) as [Heq | Hne].
    + exists (acc ++ seeds_on coded_rule elev (n, e)), st. split.
      * rewrite Htri. cbn [nonnull].
        exact (contstarts_sides io e n tri elev acc st Heq Htri).
      * rewrite IH. cbn [List.filter snd].
        rewrite <- Heq, Z.eqb_refl. cbn [flat_map].
        rewrite app_assoc. reflexivity.
    + exists acc, st. split; [reflexivity |].
      rewrite IH. cbn [List.filter snd].
      destruct (Z.eqb_spec (Z.b2z (isinterior e)) io); [congruence | reflexivity].
Qed.

Lemma filter_ext_bool {A : Type} (f g : A -> bool) (l : list A) :
  (forall x, f x = g x) -> List.filter f l = List.filter g l.
Proof.
  intros Hfg. induction l as [| x l IH]; [reflexivity |].
  simpl. rewrite Hfg, IH. reflexivity.
Qed.

(** C1 (amended).  When every edge has a triangle, [contstarts] returns the
    seeds in two passes, the exterior edges before the interior ones, each
    pass in the order of the edge vector; on an interior edge every
    crossing is a seed, on an exterior edge only a crossing classified
    upleft.  The state is left as it was. *)
Theorem contstarts_two_pass (elev : double) (st : state) :
  Forall (fun e => is_Some (edge_tri e)) (edges st) ->
  contstarts elev st = Ok (two_pass coded_rule elev (edges st), st).
Proof.
  intros Hes. unfold contstarts, two_pass.
  apply bind_Ok. exists (edges st), st. split; [reflexivity |].
  cbn [for_each]. apply bind_Ok.
  eexists _, st. split.
  { apply (contstarts_pass 0 elev (edges st) 0 [] st); [left; reflexivity | assumption]. }
  apply bind_Ok.
  eexists _, st. split.
  { apply (contstarts_pass 1 elev (edges st) 0 _ st); [right; reflexivity | assumption]. }
  cbn [app]. unfold mret, M_ret. do 3 f_equal.
  - f_equal. apply filter_ext_bool. intros [i e]. cbn [snd].
    destruct (isinterior e); reflexivity.
  - f_equal. apply filter_ext_bool. intros [i e]. cbn [snd].
    destruct (isinterior e); reflexivity.
Qed.

End Contstarts.

Lemma contstarts_two_pass_witness :
  Forall (fun e => is_Some (@edge_tri sample_mesh e))
         (@edges sample_mesh sample_state) /\
  @contstarts sample_mesh neighbours sample_layout (Fin 10) sample_state
  = Ok ([4096; 4160], sample_state).
Proof.
  assert (Hes : Forall (fun e => is_Some (@edge_tri sample_mesh e))
                       (@edges sample_mesh sample_state)).
  { repeat (apply Forall_cons_2; [eexists; reflexivity |]). apply Forall_nil_2. }
  split; [exact Hes |].
  exact (@contstarts_two_pass sample_mesh neighbours sample_layout (Fin 10)
           sample_state Hes).
Defined.

(** C1 as stated fails on the sample strip: the code finds the seeds 4096
    (the upleft crossing of exterior edge 0) and 4160 (the crossing of
    interior edge 1, not upleft in its triangle 0), while the stated rule
    gives 4096 and 4224 (the crossing of exterior edge 2, not upleft). *)
Lemma contstarts_stated_counterexample :
  @contstarts sample_mesh neighbours sample_layout (Fin 10) sample_state
  <> Ok (@two_pass sample_mesh neighbours sample_layout
           (@stated_rule sample_mesh neighbours) (Fin 10)
           (@edges sample_mesh sample_state),
         sample_state).
Proof.
  intros Heq.
  apply (f_equal (fun r => match r with Ok (l, _) => l | _ => [] end)) in Heq.
  vm_compute in Heq. discriminate Heq.
Qed.

(** ** Mark bits *)

Section Marks.

Context `{Triangles} `{EdgeLayout}.

(** The side of a handle is one of 0 to 3. *)
Lemma side_range (ep : Z) : 0 <= Z.land ep 3 <= 3.
Proof.
  change (Z.land ep 3) with (Z.land ep (Z.ones 2)). rewrite Z.land_ones by lia.
  change (2 ^ 2) with 4. pose proof (Z.mod_pos_bound ep 4). lia.
Qed.

(** A handle is its edge address plus its side. *)
Lemma handle_split (ep : Z) : ep = Z.land ep (-4) + Z.land ep 3.
Proof.
  change (-4) with (Z.lnot (Z.ones 2)). change 3 with (Z.ones 2).
  rewrite <- Z.ldiff_land, Z.ldiff_ones_r, Z.land_ones by lia.
  rewrite Z.shiftl_mul_pow2, Z.shiftr_div_pow2 by lia.
  change (2 ^ 2) with 4. pose proof (Z.div_mod ep 4). lia.
Qed.

Lemma land_side (x : Z) : Z.land x 3 = x mod 4.
Proof.
  change 3 with (Z.ones 2). rewrite Z.land_ones by lia. reflexivity.
Qed.

Lemma land_address (x : Z) : Z.land x (-4) = 4 * (x / 4).
Proof.
  change (-4) with (Z.lnot (Z.ones 2)).
  rewrite <- Z.ldiff_land, Z.ldiff_ones_r by lia.
  rewrite Z.shiftl_mul_pow2, Z.shiftr_div_pow2 by lia.
  change (2 ^ 2) with 4. lia.
Qed.

Lemma edge_addr_aligned (i : nat) : edge_addr i mod 4 = 0.
Proof.
  unfold edge_addr.
  rewrite Z.add_mod, Z.mul_mod, ebase_aligned, esize_aligned by lia.
  reflexivity.
Qed.

(** The handle of side [j] of edge [i] is taken apart by [ep&-4] and
    [ep&3] into the address of the edge and the side, and through it
    [mark] and [ismarked] reach bit [j] of edge [i]. *)
Lemma side_handle (es : list edge) (i : nat) (j : Z) (e : edge) :
  0 <= j <= 3 ->
  es !! i = Some e ->
  Z.land (j + edge_addr i) (-4) = edge_addr i /\
  Z.land (j + edge_addr i) 3 = j /\
  bit es (j + edge_addr i) = Some (edge_ismarked j e).
Proof.
  intros Hj He.
  pose proof (edge_addr_aligned i) as Hal.
  pose proof (Z.div_mod (edge_addr i) 4 ltac:(lia)) as Hdm.
  assert (Haddr : Z.land (j + edge_addr i) (-4) = edge_addr i).
  { rewrite land_address.
    replace (j + edge_addr i) with (j + edge_addr i / 4 * 4) by lia.
    rewrite Z.div_add, Z.div_small by lia. lia. }
  assert (Hside : Z.land (j + edge_addr i) 3 = j).
  { rewrite land_side.
    replace (j + edge_addr i) with (j + edge_addr i / 4 * 4) by lia.
    rewrite Z.mod_add, Z.mod_small by lia. reflexivity. }
  refine (conj Haddr (conj Hside _)).
  unfold bit. rewrite Haddr, Hside.
  assert (Hidx : edge_index (edge_addr i) = Some i).
  { unfold edge_index, edge_addr. pose proof esize_pos.
    replace (ebase + esize * Z.of_nat i - ebase) with (Z.of_nat i * esize) by lia.
    rewrite Z.mod_mul, Z.div_mul by lia.
    destruct (Z.leb_spec ebase (ebase + esize * Z.of_nat i)); [| nia].
    simpl. rewrite Nat2Z.id. reflexivity. }
  rewrite Hidx. simpl. rewrite He. reflexivity.
Qed.

Lemma edge_index_addr (a : Z) (i : nat) :
  edge_index a = Some i -> a = edge_addr i.
Proof.
  unfold edge_index, edge_addr. pose proof esize_pos.
  destruct (Z.leb_spec ebase a); [| discriminate].
  destruct (Z.eqb_spec ((a - ebase) mod esize) 0); [| discriminate].
  simpl. intros [= <-].
  rewrite Z2Nat.id by (apply Z.div_pos; lia).
  pose proof (Z.div_mod (a - ebase) esize). lia.
Qed.

Lemma ismarked_mark (n m : Z) (e : edge) :
  0 <= n -> 0 <= m ->
  edge_ismarked m (edge_mark n e) = edge_ismarked m e || (n =? m).
Proof.
  intros Hn Hm. unfold edge_ismarked, edge_mark. simpl.
  rewrite Z.lor_spec, Z.shiftl_1_l, Z.pow2_bits_eqb by assumption.
  reflexivity.
Qed.

Lemma bit_marked (es : list edge) (i : nat) (e : edge) (ep : Z) :
  edge_index (Z.land ep (-4)) = Some i ->
  es !! i = Some e ->
  bit (marked_edges es i e ep) ep = Some true.
Proof.
  intros Hi He. unfold bit, marked_edges. rewrite Hi. simpl.
  rewrite list_lookup_insert_eq by (eapply lookup_lt_Some; eassumption).
  simpl. pose proof (side_range ep).
  rewrite ismarked_mark, Z.eqb_refl, orb_true_r by lia. reflexivity.
Qed.

Lemma bit_marked_other (es : list edge) (i : nat) (e : edge) (ep ep' : Z) :
  edge_index (Z.land ep (-4)) = Some i ->
  es !! i = Some e ->
  ep' <> ep ->
  bit (marked_edges es i e ep) ep' = bit es ep'.
Proof.
  intros Hi He Hne. unfold bit, marked_edges.
  destruct (edge_index (Z.land ep' (-4))) as [i' |] eqn:Hi'; [| reflexivity].
  simpl. destruct (decide (i = i')) as [<- | Hii].
  - rewrite list_lookup_insert_eq by (eapply lookup_lt_Some; eassumption).
    rewrite He. simpl. f_equal.
    pose proof (side_range ep). pose proof (side_range ep').
    rewrite ismarked_mark by lia.
    destruct (Z.eqb_spec (Z.land ep 3) (Z.land ep' 3)) as [Heq | _];
      [| apply orb_false_r].
    exfalso. apply Hne.
    rewrite (handle_split ep), (handle_split ep').
    apply edge_index_addr in Hi, Hi'. lia.
  - rewrite list_lookup_insert_ne by assumption. reflexivity.
Qed.

(** Marks are only ever set. *)
Lemma grows_bit (es es' : list edge) (lg lg' : list (Z * bool)) (ep : Z) :
  grows es lg es' lg' -> bit es ep = Some true -> bit es' ep = Some true.
Proof.
  induction 1 as [| es1 lg1 ep0 i e _ IH Hi He]; intros Hb; [assumption |].
  destruct (decide (ep = ep0)) as [-> | Hne].
  - apply bit_marked; assumption.
  - rewrite bit_marked_other by assumption. apply IH, Hb.
Qed.

Lemma grows_trans (es es1 es2 : list edge) (lg lg1 lg2 : list (Z * bool)) :
  grows es lg es1 lg1 -> grows es1 lg1 es2 lg2 -> grows es lg es2 lg2.
Proof.
  intros H01 H12. induction H12; [assumption |].
  eapply grows_mark; eassumption.
Qed.

Lemma sum_list_insert (l : list nat) (i x y : nat) :
  l !! i = Some x ->
  (sum_list (<[i := y]> l) + x = sum_list l + y)%nat.
Proof.
  revert i. induction l as [| z l IH]; intros [| i] Hl; try discriminate.
  - injection Hl as ->. simpl. lia.
  - simpl in *. specialize (IH i Hl). lia.
Qed.

Lemma edge_unmarked_mark (n : Z) (e : edge) :
  0 <= n <= 3 ->
  (edge_unmarked (edge_mark n e) + (if edge_ismarked n e then 0 else 1)
   = edge_unmarked e)%nat.
Proof.
  intros Hn. unfold edge_unmarked.
  cbn [List.filter]. rewrite !ismarked_mark by lia.
  assert (Hcases : n = 0 \/ n = 1 \/ n = 2 \/ n = 3) by lia.
  destruct Hcases as [-> | [-> | [-> | ->]]];
    destruct (edge_ismarked 0 e), (edge_ismarked 1 e),
             (edge_ismarked 2 e), (edge_ismarked 3 e); reflexivity.
Qed.

(** Setting a mark takes one from the number of clear bits when the bit
    was clear and leaves the number otherwise. *)
Lemma unmarked_mark (es : list edge) (i : nat) (e : edge) (ep : Z) :
  es !! i = Some e ->
  (unmarked (marked_edges es i e ep)
   + (if edge_ismarked (Z.land ep 3) e then 0 else 1) = unmarked es)%nat.
Proof.
  intros He. unfold unmarked, marked_edges.
  rewrite list_fmap_insert.
  pose proof (sum_list_insert (edge_unmarked <$> es) i (edge_unmarked e)
                (edge_unmarked (edge_mark (Z.land ep 3) e))) as Hsum.
  rewrite list_lookup_fmap, He in Hsum. specialize (Hsum eq_refl).
  pose proof (edge_unmarked_mark (Z.land ep 3) e (side_range ep)). lia.
Qed.

Lemma grows_unmarked (es es' : list edge) (lg lg' : list (Z * bool)) :
  grows es lg es' lg' -> (unmarked es' <= unmarked es)%nat.
Proof.
  induction 1 as [| es1 lg1 ep0 i e _ IH Hi He]; [lia |].
  pose proof (unmarked_mark es1 i e ep0 He). lia.
Qed.

End Marks.

(** ** The inner loop of trace *)

Section Walk.

Context `{Triangles}.

Lemma extends_finite_refl (c : polyline) : extends_finite c c.
Proof.
  split; [reflexivity |]. exists []. rewrite app_nil_r.
  split; [reflexivity | apply Forall_nil_2].
Qed.

Lemma extends_finite_trans (c1 c2 c3 : polyline) :
  extends_finite c1 c2 -> extends_finite c2 c3 -> extends_finite c1 c3.
Proof.
  intros [Ho (ps & Hps & Hfin)] [Ho' (ps' & Hps' & Hfin')].
  split; [congruence |]. exists (ps ++ ps').
  rewrite Hps', Hps, app_assoc. split; [reflexivity |].
  apply Forall_app; split; assumption.
Qed.

Lemma extends_finite_insert (p : xy) (c : polyline) :
  xy_isfinite p = true -> extends_finite c (polyline_insert p c).
Proof.
  intros Hp. split; [reflexivity |]. exists [p].
  split; [reflexivity |]. apply Forall_cons_2; [assumption | apply Forall_nil_2].
Qed.

Lemma trace_step_spec (flt oof : Prop) (tri : triangle) (elev : double)
    (edgep : Z) (w : walk) (st : state) :
  wp flt oof (trace_step tri elev edgep w) st (step_post st w).
Proof.
  assert (Hnone : exists msgs, wrote st msgs st /\ Forall step_message msgs).
  { exists []. split; [apply wrote_refl | apply Forall_nil_2]. }
  assert (Hone : forall m st1 st2 ms,
             step_message m -> wrote st ms st1 -> Forall step_message ms ->
             wrote st1 [m] st2 ->
             exists msgs, wrote st msgs st2 /\ Forall step_message msgs).
  { intros m st1 st2 ms Hm H1 Hms H2. exists (ms ++ [m]). split.
    - eapply wrote_trans; eassumption.
    - apply Forall_app. split; [assumption |].
      apply Forall_cons_2; [assumption | apply Forall_nil_2]. }
  unfold trace_step.
  destruct (proceed tri (w_subedge w) elev >=? 0);
    [| apply wp_ret; refine (conj Hnone (conj eq_refl (conj eq_refl _)));
       apply extends_finite_refl ].
  apply wp_bind.
  apply (wp_mono flt oof _ st
           (fun _ st1 => exists msgs, wrote st msgs st1 /\ Forall step_message msgs)).
  { destruct (proceed tri (w_subedge w) elev =? w_subedge w).
    - apply wp_say. intros st1 Hst1.
      eapply (Hone _ st); [| apply wrote_refl | apply Forall_nil_2 | exact Hst1].
      exact I.
    - apply wp_ret. exact Hnone. }
  intros _ st1 (ms & Hst1 & Hms). cbv zeta.
  destruct (xy_isfinite (contourcept tri (proceed tri (w_subedge w) elev) elev)) eqn:Hfin;
    [| apply wp_ret; refine (conj _ (conj eq_refl (conj eq_refl _)));
       [eauto | apply extends_finite_refl] ].
  apply wp_bind.
  destruct (xy_ne (contourcept tri (proceed tri (w_subedge w) elev) elev) (w_lastcept w)).
  - apply wp_ret, wp_ret.
    refine (conj _ (conj eq_refl (conj eq_refl _))); [eauto |].
    apply extends_finite_insert, Hfin.
  - apply wp_bind, wp_say. intros st2 Hst2. apply wp_ret, wp_ret.
    refine (conj _ (conj eq_refl (conj eq_refl _))); [| apply extends_finite_refl].
    eapply Hone; [| eassumption | eassumption | eassumption]. exact I.
Qed.

Lemma trace_proceed_spec (flt oof : Prop) (fuel : nat) (tri : triangle)
    (elev : double) (edgep : Z) (w : walk) (st : state) :
  0 <= w_i w < 256 ->
  oof \/ 256 - w_i w <= Z.of_nat fuel ->
  wp flt oof (trace_proceed fuel tri elev edgep w) st (walk_post st w).
Proof.
  revert w st. induction fuel as [| fuel IH]; intros w st Hi Hfuel.
  - destruct Hfuel as [Hoof | Hfuel]; [exact Hoof | simpl in Hfuel; lia].
  - cbn [trace_proceed]. apply wp_bind.
    eapply wp_mono; [apply trace_step_spec |].
    intros w1 st1 ((ms & Hw1 & Hms) & Hsteps & Hi1 & Hext).
    destruct (w_subnext w1 >=? 0).
    + destruct (Z.ltb_spec (w_i w1 + 1) 256).
      * eapply wp_mono.
        { apply IH; cbn [walk_incr w_i]; [lia |].
          destruct Hfuel as [Hoof | Hfuel]; [left; exact Hoof | right; lia]. }
        intros w2 st2 ((ms' & Hw2 & Hms') & Hsteps2 & Hext2).
        cbn [walk_incr w_i steps w_ret] in *.
        refine (conj _ (conj _ _)).
        -- exists (ms ++ ms'). split; [eapply wrote_trans; eassumption |].
           apply Forall_app; split; assumption.
        -- lia.
        -- eapply extends_finite_trans; eassumption.
      * apply wp_ret. unfold walk_post. cbn [walk_incr w_i steps w_ret].
        refine (conj _ (conj _ Hext)); [eauto | lia].
    + apply wp_ret. refine (conj _ (conj _ Hext)); [eauto | lia].
Qed.

End Walk.

(** ** trace *)

Section Trace.

Context `{Edges} `{EdgeLayout}.

Lemma finite_not_nan (p : xy) : xy_isfinite p = true -> xy_isnan p = false.
Proof.
  unfold xy_isfinite, xy_isnan.
  destruct (east p), (north p); simpl; congruence.
Qed.

Lemma bit_lookup (es : list edge) (ep : Z) (i : nat) (e : edge) (b : bool) :
  bit es ep = Some b ->
  edge_index (Z.land ep (-4)) = Some i ->
  es !! i = Some e ->
  edge_ismarked (Z.land ep 3) e = b.
Proof.
  unfold bit. intros Hb Hi He. rewrite Hi in Hb. simpl in Hb.
  rewrite He in Hb. simpl in Hb. congruence.
Qed.

Lemma edge_unchanged_spec (flt oof : Prop) (tri : triangle) (elev : double)
    (edgep prevedgep : Z) (st : state) :
  wp flt oof (edge_unchanged tri elev edgep prevedgep) st
     (fun _ st' => exists msgs, wrote st msgs st').
Proof.
  unfold edge_unchanged.
  destruct (edgep =? prevedgep);
    [| apply wp_ret; exists []; apply wrote_refl].
  apply wp_bind, wp_say. intros st1 Hst1. cbv zeta.
  destruct ((proceed tri (subdir tri edgep) elev >=? 0)
            && (proceed tri (subdir tri edgep) elev =? subdir tri edgep)).
  - apply wp_say. intros st2 Hst2. eexists. eapply wrote_trans; eassumption.
  - apply wp_ret. eexists. eassumption.
Qed.

Lemma trace_loop_spec (oof : Prop) (fuel : nat) (elev : double) (firstcept : xy)
    (edgep : Z) (tri : triangle) (wasmarked : option bool)
    (lastcept : xy) (ret : polyline) (st : state) :
  oof \/ (unmarked (edges st) + 256 <= fuel)%nat ->
  wp True oof
     (trace_loop fuel elev firstcept edgep tri wasmarked lastcept ret) st
     (loop_post st ret).
Proof.
  revert edgep tri wasmarked lastcept ret st.
  induction fuel as [| fuel IH]; intros edgep tri wasmarked lastcept ret st Hfuel.
  { destruct Hfuel as [Hoof | Hfuel]; [exact Hoof | lia]. }
  cbn [trace_loop]. cbv zeta.
  apply wp_bind.
  eapply wp_mono.
  { apply trace_proceed_spec; cbn [w_i walk_start]; [lia |].
    destruct Hfuel as [Hoof | Hfuel]; [left; exact Hoof | right; lia]. }
  intros w st1 ((ms1 & (He1 & _ & _ & Hl1 & _) & _) & _ & Hext).
  cbn [w_ret walk_start] in Hext.
  apply wp_bind. eapply wp_mono; [apply edge_unchanged_spec |].
  intros _ st2 (ms2 & (He2 & _ & _ & Hl2 & _)).
  destruct (edgepart tri (w_subedge w) =? 0).
  { apply wp_bind, wp_say. intros st3 (He3 & _ & _ & Hl3 & _). apply wp_ret.
    refine (conj _ (conj Hext _)); cbn [t_ntri]; [| discriminate].
    rewrite He3, He2, He1, Hl3, Hl2, Hl1. apply grows_refl. }
  apply wp_bind, wp_ismarked. intros was Hbit.
  apply wp_bind.
  pose (thiscept := contourcept tri (subdir tri (edgepart tri (w_subedge w))) elev).
  pose (ret' := if xy_ne thiscept (w_lastcept w) && xy_ne thiscept firstcept
                   && xy_isfinite thiscept
                then polyline_insert thiscept (w_ret w) else w_ret w).
  assert (Hext' : extends_finite ret ret').
  { subst ret'.
    destruct (xy_ne thiscept (w_lastcept w) && xy_ne thiscept firstcept
              && xy_isfinite thiscept) eqn:Hc; [| exact Hext].
    apply andb_true_iff in Hc. destruct Hc as [_ Hfin].
    eapply extends_finite_trans; [exact Hext |].
    apply extends_finite_insert, Hfin. }
  apply (wp_mono True oof _ st2
           (fun lr st' => st' = st2 /\ extends_finite ret (snd lr))).
  { destruct was; apply wp_ret; (split; [reflexivity |]); cbn [snd negb];
      [exact Hext | exact Hext']. }
  intros [lastcept' ret''] st2' [-> Hext'']. cbn [snd] in Hext''. cbv beta iota.
  apply wp_bind, wp_mark. intros i e st3 Hi He He3 Hl3.
  assert (Hgrows : grows (edges st) (marklog st) (edges st3) (marklog st3)).
  { rewrite He3, Hl3, He2, He1, Hl2, Hl1.
    apply grows_mark; [apply grows_refl | exact Hi |].
    rewrite <- He1, <- He2. exact He. }
  apply wp_bind, wp_deref. intros i' e' _ _. cbv beta iota.
  destruct (othertri e' tri) as [ntri |].
  2:{ apply wp_ret. refine (conj Hgrows (conj Hext'' _)). discriminate. }
  destruct was.
  { apply wp_ret. refine (conj Hgrows (conj Hext'' _)). reflexivity. }
  eapply wp_mono.
  { apply IH.
    destruct Hfuel as [Hoof | Hfuel]; [left; exact Hoof | right].
    pose proof (unmarked_mark (edges st2) i e (edgepart tri (w_subedge w)) He) as Hun.
    rewrite (bit_lookup _ _ _ _ _ Hbit Hi He) in Hun.
    rewrite He3. rewrite He2, He1 in Hun. rewrite He2, He1. lia. }
  intros t st4 (Hgrows' & Hext4 & Hmarked).
  refine (conj _ (conj _ Hmarked)).
  - eapply grows_trans; eassumption.
  - eapply extends_finite_trans; eassumption.
Qed.

Lemma trace_spec (oof : Prop) (fuel : nat) (edgep : Z) (elev : double) (st : state) :
  oof \/ (unmarked (edges st) + 256 <= fuel)%nat ->
  wp True oof (trace fuel edgep elev) st (trace_post st edgep).
Proof.
  intros Hfuel. unfold trace. cbv zeta.
  apply wp_bind, wp_deref. intros i0 e0 _ _. cbv beta iota.
  apply wp_bind, wp_mark. intros i e st1 Hi He He1 Hl1.
  assert (Hgrows : grows (edges st) (marklog st) (edges st1) (marklog st1)).
  { rewrite He1, Hl1. apply grows_mark; [apply grows_refl | exact Hi | exact He]. }
  assert (Hbit : bit (edges st1) edgep = Some true).
  { rewrite He1. apply bit_marked; assumption. }
  apply wp_bind, wp_nonnull. intros tri _.
  destruct (xy_isnan (contourcept tri (subdir tri edgep) elev)) eqn:Hnan.
  { apply wp_bind, wp_say. intros st2 (He2 & _ & _ & Hl2 & _). apply wp_ret.
    unfold trace_post. cbn [fst snd polyline_new endpoints isopen tail].
    rewrite He2, Hl2.
    repeat split; try assumption; try apply Forall_nil_2. }
  apply wp_bind. eapply wp_mono.
  { apply trace_loop_spec.
    destruct Hfuel as [Hoof | Hfuel]; [left; exact Hoof | right].
    pose proof (unmarked_mark (edges st) i e edgep He) as Hun.
    rewrite He1. destruct (edge_ismarked (Z.land edgep 3) e); lia. }
  intros t st2 (Hgrows2 & [Hopen (ps & Hps & Hfin)] & Hmarked).
  cbn [polyline_insert polyline_new endpoints isopen app] in Hopen, Hps.
  apply wp_ret. unfold trace_post. cbn [fst snd].
  assert (Hpts : forall c, endpoints c = endpoints (t_ret t) ->
             Forall (fun p => xy_isnan p = false) (endpoints c) /\
             Forall (fun p => xy_isfinite p = true) (tail (endpoints c))).
  { intros c ->. rewrite Hps. cbn [tail]. split; [| exact Hfin].
    apply Forall_cons_2; [exact Hnan |].
    eapply Forall_impl; [exact Hfin |]. apply finite_not_nan. }
  refine (conj _ (conj _ _)).
  - eapply grows_trans; eassumption.
  - eapply grows_bit; eassumption.
  - destruct (t_ntri t) as [ntri |] eqn:Hntri.
    + destruct (Hpts (t_ret t) eq_refl) as [Hnn Hff].
      refine (conj Hnn (conj Hff (conj _ _))).
      * rewrite Hopen. split; discriminate.
      * intros ntri' _. split; [eapply Hmarked; reflexivity | exact Hopen].
    + destruct (Hpts (polyline_open (t_ret t)) eq_refl) as [Hnn Hff].
      refine (conj Hnn (conj Hff (conj _ _))).
      * split; reflexivity.
      * discriminate.
Qed.

End Trace.

(** ** intrace *)

Section Intrace.

Context `{Triangles}.

(** The walk inside a triangle stops with at most 256 sub-segments. *)
Lemma intrace_walk_total (fuel : nat) (tri : triangle) (elev : double)
    (start j : Z) (sube : list Z) :
  (length sube <= 256)%nat ->
  (256 - length sube <= fuel)%nat ->
  exists j' sube', intrace_walk fuel tri elev start j sube = Ok (j', sube') /\
                   (length sube' <= 256)%nat.
Proof.
  revert j sube. induction fuel as [| fuel IH]; intros j sube Hlen Hfuel;
    cbn [intrace_walk];
    destruct (intrace_more tri start j sube) eqn:Hmore;
    try (exists j, sube; split; [reflexivity | assumption]).
  - exfalso. unfold intrace_more in Hmore.
    destruct (Z.eqb_spec (Z.of_nat (length sube)) 0); [lia |].
    destruct (Z.ltb_spec (Z.of_nat (length sube)) 256); [lia |].
    rewrite !andb_false_r in Hmore. discriminate.
  - assert (Hlt : (length sube < 256)%nat).
    { unfold intrace_more in Hmore.
      destruct (Z.eqb_spec (Z.of_nat (length sube)) 0); [lia |].
      destruct (Z.ltb_spec (Z.of_nat (length sube)) 256); [lia |].
      rewrite !andb_false_r in Hmore. discriminate. }
    apply IH; rewrite length_app; simpl; lia.
Qed.

Lemma intrace_scan_total (fuel : nat) (tri : triangle) (elev : double)
    (subs : list Z) (j start : Z) (sube : list Z) :
  (256 <= fuel)%nat ->
  exists r, intrace_scan fuel tri elev subs j start sube = Ok r.
Proof.
  intros Hfuel. revert j start sube.
  induction subs as [| i subs IH]; intros j start sube; cbn [intrace_scan].
  - eexists. reflexivity.
  - destruct (crosses tri i elev); [| apply IH]. cbv zeta.
    destruct (intrace_walk_total fuel tri elev
                (if upleft tri i then i else i + 65536)
                (if upleft tri i then i else i + 65536) [])
      as (j' & sube' & Hwalk & _); [simpl; lia | simpl; lia |].
    rewrite Hwalk. cbn.
    destruct (j' =? (if upleft tri i then i else i + 65536));
      [eexists; reflexivity | apply IH].
Qed.

Lemma insert_finite_points (tri : triangle) (elev : double)
    (sube : list Z) (ret : polyline) :
  Forall (fun p => xy_isfinite p = true) (endpoints ret) ->
  Forall (fun p => xy_isfinite p = true)
         (endpoints (insert_finite tri elev sube ret)).
Proof.
  unfold insert_finite. revert ret.
  induction sube as [| s sube IH]; intros ret Hret; [exact Hret |].
  cbn [fold_left]. apply IH.
  destruct (xy_isfinite (contourcept tri s elev)) eqn:Hfin; [| exact Hret].
  cbn [polyline_insert endpoints]. apply Forall_app. split; [exact Hret |].
  apply Forall_cons_2; [exact Hfin | apply Forall_nil_2].
Qed.

(** [intrace] returns, and all its points are finite. *)
Lemma intrace_spec (fuel : nat) (tri : triangle) (elev : double) :
  (256 <= fuel)%nat ->
  exists c, intrace fuel tri elev = Ok c /\
            Forall (fun p => xy_isfinite p = true) (endpoints c).
Proof.
  intros Hfuel. unfold intrace.
  destruct (intrace_scan_total fuel tri elev (seqZ 0 (subdiv_size tri))
              (-610) (-987) [] Hfuel) as ([[j start] sube] & Hscan).
  rewrite Hscan. cbn.
  eexists. split; [reflexivity |].
  destruct (j =? start).
  - apply insert_finite_points. apply Forall_nil_2.
  - apply Forall_nil_2.
Qed.

End Intrace.

(** ** The boundary traces of a level *)

Section Sweep.

Context `{Edges} `{EdgeLayout} `{Curves}.

Lemma wp_Ok {A : Type} (flt oof : Prop) (m : M A) (st : state) Q :
  wp flt oof m st Q ->
  match m st with
  | Ok (a, st') => Q a st'
  | Fault => flt
  | OutOfFuel => oof
  end.
Proof. intros Hm. exact Hm. Qed.

Lemma boundary_traces_spec (oof : Prop) (fuel : nat) (cstarts : list Z)
    (elev : double) (st : state) :
  oof \/ (unmarked (edges st) + 256 <= fuel)%nat ->
  wp True oof (boundary_traces fuel cstarts elev) st
     (fun _ st' =>
        grows (edges st) (marklog st) (edges st') (marklog st') /\
        Forall (fun ep => bit (edges st') ep = Some true) cstarts).
Proof.
  unfold boundary_traces. revert st.
  induction cstarts as [| ep cstarts IH]; intros st Hfuel; cbn [for_each].
  { apply wp_ret. split; [apply grows_refl | apply Forall_nil_2]. }
  apply wp_bind.
  apply (wp_mono True oof _ st
           (fun _ st1 =>
              grows (edges st) (marklog st) (edges st1) (marklog st1) /\
              bit (edges st1) ep = Some true)).
  { apply wp_bind, wp_ismarked. intros was Hbit.
    destruct was; cbn [negb].
    - apply wp_ret. split; [apply grows_refl | exact Hbit].
    - apply wp_bind. eapply wp_mono; [apply trace_spec; exact Hfuel |].
      intros [ctour g] st1 (Hgrows & Hseed & _). cbv beta iota.
      apply wp_push_contour. intros st2 He2 Hl2.
      rewrite He2, Hl2. split; assumption. }
  intros [] st1 [Hgrows Hseed].
  eapply wp_mono.
  { apply IH. destruct Hfuel as [Hoof | Hfuel]; [left; exact Hoof | right].
    pose proof (grows_unmarked _ _ _ _ Hgrows). lia. }
  intros acc2 st2 [Hgrows2 Hrest]. split.
  - eapply grows_trans; eassumption.
  - apply Forall_cons_2; [| exact Hrest].
    eapply grows_bit; eassumption.
Qed.







End Sweep.

(** ** The walk of a trace *)

Section Traversal.

Context `{Edges} `{EdgeLayout}.

Lemma trace_step_subedge (tri : triangle) (elev : double) (edgep : Z) (w : walk)
    (st : state) :
  wp True True (trace_step tri elev edgep w) st
     (fun w1 _ =>
        w_subnext w1 = proceed tri (w_subedge w) elev /\
        w_subedge w1 = (if w_subnext w1 >=? 0 then w_subnext w1 else w_subedge w) /\
        w_i w1 = w_i w).
Proof.
  unfold trace_step. cbv zeta.
  destruct (proceed tri (w_subedge w) elev >=? 0) eqn:Hge.
  - apply wp_bind.
    apply (wp_mono True True _ st (fun _ _ => True)).
    { destruct (_ =? _); [apply wp_say; auto | apply wp_ret; exact I]. }
    intros _ st1 _.
    destruct (xy_isfinite _).
    + apply wp_bind.
      apply (wp_mono True True _ st1 (fun _ _ => True)).
      { destruct (xy_ne _ _); [apply wp_ret; exact I |].
        apply wp_bind, wp_say. intros. apply wp_ret. exact I. }
      intros ret st2 _. apply wp_ret. cbn [w_subnext w_subedge w_i].
      rewrite Hge. repeat split.
    + apply wp_ret. cbn [w_subnext w_subedge w_i]. rewrite Hge. repeat split.
  - apply wp_ret. cbn [w_subnext w_subedge w_i]. rewrite Hge. repeat split.
Qed.

Lemma trace_proceed_end (fuel : nat) (tri : triangle) (elev : double) (edgep : Z)
    (w : walk) (st : state) :
  0 <= w_i w < 256 ->
  wp True True (trace_proceed fuel tri elev edgep w) st
     (fun w' _ =>
        w_subedge w' = walk_end (Z.to_nat (256 - w_i w)) tri elev (w_subedge w)).
Proof.
  revert w st. induction fuel as [| fuel IH]; intros w st Hi; [exact I |].
  cbn [trace_proceed]. apply wp_bind.
  eapply wp_mono; [apply trace_step_subedge |].
  intros w1 st1 (Hnext & Hsub & Hi1).
  replace (Z.to_nat (256 - w_i w)) with (S (Z.to_nat (256 - w_i w - 1))) by lia.
  cbn [walk_end]. cbv zeta. rewrite <- Hnext.
  destruct (w_subnext w1 >=? 0).
  - destruct (Z.ltb_spec (w_i w1 + 1) 256).
    + eapply wp_mono.
      { apply IH. cbn [walk_incr w_i]. lia. }
      intros w2 st2 Hw2. cbn [walk_incr w_i w_subedge] in Hw2.
      rewrite Hw2, Hsub, Hi1. f_equal. lia.
    + apply wp_ret. cbn [walk_incr w_subedge].
      replace (Z.to_nat (256 - w_i w - 1)) with 0%nat by lia.
      cbn [walk_end]. exact Hsub.
  - apply wp_ret. exact Hsub.
Qed.


Lemma trace_loop_traverses (oof : Prop) (fuel : nat) (elev : double) (firstcept : xy)
    (edgep : Z) (tri : triangle) (wasmarked : option bool)
    (lastcept : xy) (ret : polyline) (st : state) :
  oof \/ (unmarked (edges st) + 256 <= fuel)%nat ->
  wp True oof
     (trace_loop fuel elev firstcept edgep tri wasmarked lastcept ret) st
     (fun t st' =>
        exists hs en lg,
          traverses elev (edges st) edgep tri hs en (edges st') /\
          marklog st' = marklog st ++ lg /\ lg.*1 = hs /\
          (t_ntri t = None <-> opens en = true)).
Proof.
  revert edgep tri wasmarked lastcept ret st.
  induction fuel as [| fuel IH]; intros edgep tri wasmarked lastcept ret st Hfuel.
  { destruct Hfuel as [Hoof | Hfuel]; [exact Hoof | lia]. }
  cbn [trace_loop]. cbv zeta.
  apply wp_bind.
  eapply wp_mono.
  { apply (wp_conj True oof True True).
    - apply trace_proceed_spec; cbn [w_i walk_start]; [lia |].
      destruct Hfuel as [Hoof | Hfuel]; [left; exact Hoof | right; lia].
    - apply (trace_proceed_end (S fuel) tri elev edgep). cbn [w_i walk_start]. lia. }
  intros w st1 [((ms1 & (He1 & _ & _ & Hl1 & _) & _) & _ & _) Hend].
  cbn [walk_start w_i w_subedge] in Hend.
  change (Z.to_nat (256 - 0)) with 256%nat in Hend.
  rewrite Hend. fold (crossing_reached tri elev edgep).
  set (ep := crossing_reached tri elev edgep).
  apply wp_bind. eapply wp_mono; [apply edge_unchanged_spec |].
  intros _ st2 (ms2 & (He2 & _ & _ & Hl2 & _)).
  destruct (Z.eqb_spec ep 0) as [Hz | Hnz].
  { apply wp_bind, wp_say. intros st3 (He3 & _ & _ & Hl3 & _). apply wp_ret.
    exists [], Inside, []. cbn [t_ntri opens].
    rewrite He3, He2, He1, Hl3, Hl2, Hl1, app_nil_r.
    split; [apply traverses_inside; exact Hz |]. repeat split. }
  apply wp_bind, wp_ismarked. intros was Hbit.
  apply wp_bind.
  apply (wp_mono True oof _ st2 (fun _ st' => st' = st2)).
  { destruct was; apply wp_ret; reflexivity. }
  intros [lastcept' ret''] st2' ->. cbv beta iota.
  apply wp_bind, wp_mark. intros i e st3 Hi He He3 Hl3.
  rewrite He2, He1 in He, He3, Hbit. rewrite Hl2, Hl1 in Hl3.
  pose proof (bit_lookup _ _ _ _ _ Hbit Hi He) as Hwas.
  apply wp_bind, wp_deref. intros i' e' Hi' He'. cbv beta iota.
  rewrite Hi in Hi'. injection Hi' as <-.
  rewrite He3 in He'. unfold marked_edges in He'.
  rewrite list_lookup_insert_eq in He' by (eapply lookup_lt_Some; exact He).
  injection He' as <-.
  destruct (othertri (edge_mark (Z.land ep 3) e) tri) as [ntri |] eqn:Hother.
  2:{ apply wp_ret. exists [ep], Boundary, [(ep, edge_ismarked (Z.land ep 3) e)].
      cbn [t_ntri opens]. rewrite He3.
      split; [apply traverses_boundary; assumption |]. repeat split; assumption. }
  destruct was.
  { apply wp_ret. exists [ep], Closed, [(ep, edge_ismarked (Z.land ep 3) e)].
    cbn [t_ntri opens]. rewrite He3.
    split; [eapply traverses_closed; eassumption |].
    repeat split; try assumption; discriminate. }
  eapply wp_mono.
  { apply IH.
    destruct Hfuel as [Hoof | Hfuel]; [left; exact Hoof | right].
    pose proof (unmarked_mark (edges st) i e ep He) as Hun.
    rewrite Hwas in Hun. rewrite He3. lia. }
  intros t st4 (hs & en & lg & Htr & Hlg & Hfst & Hopen).
  exists (ep :: hs), en, ((ep, edge_ismarked (Z.land ep 3) e) :: lg).
  split.
  { subst ep. eapply traverses_on; try eassumption. rewrite <- He3. exact Htr. }
  split; [rewrite Hlg, Hl3, <- app_assoc; reflexivity |].
  split; [cbn [fmap list_fmap fst]; f_equal; exact Hfst | exact Hopen].
Qed.



Lemma trace_traverses (oof : Prop) (fuel : nat) (edgep : Z) (elev : double)
    (st : state) :
  oof \/ (unmarked (edges st) + 256 <= fuel)%nat ->
  wp True oof (trace fuel edgep elev) st
     (fun r st' =>
        exists i e tri,
          edge_index (Z.land edgep (-4)) = Some i /\
          edges st !! i = Some e /\
          start_tri e edgep = Some tri /\
          if xy_isnan (contourcept tri (subdir tri edgep) elev)
          then edges st' = marked_edges (edges st) i e edgep /\
               marklog st' = marklog st ++ [(edgep, edge_ismarked (Z.land edgep 3) e)] /\
               isopen (fst r) = false /\ endpoints (fst r) = []
          else
            exists hs en lg,
              traverses elev (marked_edges (edges st) i e edgep) edgep tri hs en
                        (edges st') /\
              marklog st'
              = marklog st ++ (edgep, edge_ismarked (Z.land edgep 3) e) :: lg /\
              lg.*1 = hs /\
              isopen (fst r) = opens en).
Proof.
  intros Hfuel. unfold trace. cbv zeta.
  apply wp_bind, wp_deref. intros i0 e0 Hi0 He0. cbv beta iota.
  apply wp_bind, wp_mark. intros i e st1 Hi He He1 Hl1.
  rewrite Hi0 in Hi. injection Hi as <-.
  rewrite He0 in He. injection He as <-.
  change (match tria e0 with
          | Some t => if negb (upleft t (subdir t edgep)) then trib e0 else tria e0
          | None => trib e0
          end) with (start_tri e0 edgep).
  apply wp_bind, wp_nonnull. intros tri Htri.
  destruct (xy_isnan (contourcept tri (subdir tri edgep) elev)) eqn:Hnan.
  { apply wp_bind, wp_say. intros st2 (He2 & _ & _ & Hl2 & _). apply wp_ret.
    exists i0, e0, tri. rewrite Hnan. cbn [fst polyline_new isopen endpoints].
    rewrite He2, Hl2, He1, Hl1. repeat split; assumption. }
  apply wp_bind. eapply wp_mono.
  { apply (wp_conj True oof True oof).
    - apply trace_loop_spec.
      destruct Hfuel as [Hoof | Hfuel]; [left; exact Hoof | right].
      pose proof (unmarked_mark (edges st) i0 e0 edgep He0) as Hun.
      rewrite He1. destruct (edge_ismarked (Z.land edgep 3) e0); lia.
    - apply trace_loop_traverses.
      destruct Hfuel as [Hoof | Hfuel]; [left; exact Hoof | right].
      pose proof (unmarked_mark (edges st) i0 e0 edgep He0) as Hun.
      rewrite He1. destruct (edge_ismarked (Z.land edgep 3) e0); lia. }
  intros t st2 [(_ & [Hopen _] & _) (hs & en & lg & Htr & Hlg & Hfst & Hnull)].
  cbn [polyline_insert polyline_new isopen] in Hopen.
  apply wp_ret. exists i0, e0, tri. rewrite Hnan. cbn [fst].
  refine (conj Hi0 (conj He0 (conj Htri _))).
  exists hs, en, lg. rewrite <- He1.
  split; [exact Htr |].
  split; [rewrite Hlg, Hl1, <- app_assoc; reflexivity |].
  split; [exact Hfst |].
  destruct (t_ntri t) as [ntri |].
  - rewrite Hopen. destruct (opens en); [| reflexivity].
    destruct Hnull as [_ Hn]. discriminate (Hn eq_refl).
  - cbn [polyline_open isopen]. symmetry. apply Hnull. reflexivity.
Qed.

End Traversal.

Section SweepTraversal.

Context `{Edges} `{EdgeLayout} `{Curves}.

Lemma boundary_traces_sweeps (oof : Prop) (fuel : nat) (cstarts : list Z)
    (elev : double) (st : state) :
  oof \/ (unmarked (edges st) + 256 <= fuel)%nat ->
  wp True oof (boundary_traces fuel cstarts elev) st
     (fun _ st' =>
        exists hs lg,
          sweeps elev (edges st) cstarts hs (edges st') /\
          marklog st' = marklog st ++ lg /\ lg.*1 = hs).
Proof.
  unfold boundary_traces. revert st.
  induction cstarts as [| ep cstarts IH]; intros st Hfuel; cbn [for_each].
  { apply wp_ret. exists [], []. rewrite app_nil_r.
    split; [apply sweeps_nil |]. split; reflexivity. }
  apply wp_bind. apply wp_bind, wp_ismarked. intros was Hbit.
  destruct was; cbn [negb].
  - apply wp_ret.
    eapply wp_mono; [apply IH, Hfuel |].
    intros _ st2 (hs & lg & Hsw & Hlg & Hfst).
    exists hs, lg. split; [apply sweeps_marked; assumption |].
    split; assumption.
  - apply wp_bind. eapply wp_mono.
    { apply (wp_conj True oof True oof);
        [apply trace_spec | apply trace_traverses]; exact Hfuel. }
    intros [ctour g] st1 [(Hgrows & _) (i & e & tri & Hi & He & Htri & Hcase)].
    cbv beta iota.
    apply wp_push_contour. intros st2 He2 Hl2.
    pose proof (bit_lookup _ _ _ _ _ Hbit Hi He) as Hclear.
    eapply wp_mono.
    { apply IH. destruct Hfuel as [Hoof | Hfuel]; [left; exact Hoof | right].
      pose proof (grows_unmarked _ _ _ _ Hgrows). rewrite He2. lia. }
    intros _ st3 (hs & lg & Hsw & Hlg & Hfst).
    rewrite He2 in Hsw. rewrite Hl2 in Hlg.
    destruct (xy_isnan (contourcept tri (subdir tri ep) elev)) eqn:Hnan.
    + destruct Hcase as (He1 & Hl1 & _).
      exists (ep :: hs), ((ep, edge_ismarked (Z.land ep 3) e) :: lg).
      split.
      { eapply sweeps_nan; try eassumption. rewrite <- He1. exact Hsw. }
      split; [rewrite Hlg, Hl1, <- app_assoc; reflexivity |].
      cbn [fmap list_fmap fst]. f_equal. exact Hfst.
    + destruct Hcase as (ws & en & lg1 & Htr & Hl1 & Hfst1 & _).
      exists (ep :: ws ++ hs), ((ep, edge_ismarked (Z.land ep 3) e) :: lg1 ++ lg).
      split.
      { eapply sweeps_trace; eassumption. }
      split; [rewrite Hlg, Hl1, <- app_assoc; reflexivity |].
      cbn [fmap list_fmap fst]. rewrite fmap_app. f_equal. f_equal; assumption.
Qed.

End SweepTraversal.

(** ** The claims about the tracers *)

Section Tracers.

Context `{Edges} `{EdgeLayout} `{Curves}.


(** What the guards of the tracers ensure: no point of a polyline
    returned by [trace] is NaN and every point after the first is finite;
    every point of a polyline returned by [intrace] is finite.  The first
    point of [trace], the crossing of the seed, is only tested with
    [isnan]. *)
Lemma traced_points_checked (fuel : nat) (edgep : Z) (elev : double)
    (st : state) (tri : triangle) :
  (unmarked (edges st) + 256 <= fuel)%nat ->
  points_checked (trace fuel edgep elev st) /\
  exists c, intrace fuel tri elev = Ok c /\
            Forall (fun p => xy_isfinite p = true) (endpoints c).
Proof.
  intros Hfuel. split; [| apply intrace_spec; lia].
  pose proof (trace_spec False fuel edgep elev st (or_intror Hfuel)) as Hwp.
  apply wp_Ok in Hwp. unfold points_checked.
  destruct (trace fuel edgep elev st) as [[[c g] st'] | |]; [| exact I | exact Hwp].
  destruct Hwp as (_ & _ & Hnan & Hfin & _). split; assumption.
Qed.


(** C9 (amended).  With fuel for 256 steps the inner loop of [trace]
    returns after at most 256 runs of its body, whatever [proceed] does,
    and the collection of [intrace] returns with at most 256 entries.  The
    inner loop writes only the messages of its single steps (a failed
    [proceed], a repeated crossing): exhausting the cap ends the loop
    without a message of its own. *)
Theorem walks_bounded (fuel : nat) (tri : triangle) (elev : double)
    (edgep subedge start : Z) (lastcept : xy) (ret : polyline) (st : state) :
  (256 <= fuel)%nat ->
  walk_bounded st (trace_proceed fuel tri elev edgep
                     (walk_start subedge lastcept ret) st) /\
  collection_bounded (intrace_walk fuel tri elev start start []).
Proof.
  intros Hfuel. split.
  - pose proof (trace_proceed_spec False False fuel tri elev edgep
                  (walk_start subedge lastcept ret) st) as Hwp.
    cbn [walk_start w_i] in Hwp.
    specialize (Hwp ltac:(lia) ltac:(right; lia)).
    apply wp_Ok in Hwp. unfold walk_bounded.
    destruct (trace_proceed fuel tri elev edgep _ st) as [[w st'] | |];
      try contradiction.
    destruct Hwp as (Hmsgs & Hsteps & _). cbn [walk_start steps w_i] in Hsteps.
    exists w, st'. split; [reflexivity |]. split; [lia | exact Hmsgs].
  - apply intrace_walk_total; simpl; lia.
Qed.

End Tracers.


(** The sweep on the sample strip.  From the seed 4096 the walk crosses
    the edges 1 and 2 and leaves the mesh; the seed 4160 is marked by then
    and is passed over.  The three crossings are marked. *)
Example sweep_on_strip :
  exists es',
    @sweeps sample_mesh neighbours sample_layout (Fin 10)
      (@edges sample_mesh sample_state) [4096; 4160] [4096; 4160; 4224] es' /\
    Forall (fun ep => @bit sample_mesh sample_layout es' ep = Some true)
           [4096; 4160; 4224].
Proof.
  assert (Hf : (@unmarked sample_mesh (edges sample_state) + 256 <= 300)%nat)
    by (vm_compute; lia).
  pose proof (wp_Ok _ _ _ _ _
                (@boundary_traces_sweeps sample_mesh neighbours sample_layout no_curves
                   False 300 [4096; 4160] (Fin 10) sample_state (or_intror Hf))) as Hsw.
  assert (Hrun : match @boundary_traces sample_mesh neighbours sample_layout no_curves
                         300 [4096; 4160] (Fin 10) sample_state with
                 | Ok (_, st') =>
                     Some ((@marklog sample_mesh st').*1,
                           @bit sample_mesh sample_layout (edges st') 4096,
                           @bit sample_mesh sample_layout (edges st') 4160,
                           @bit sample_mesh sample_layout (edges st') 4224)
                 | _ => None
                 end = Some ([4096; 4160; 4224], Some true, Some true, Some true))
    by (vm_compute; reflexivity).
  destruct (@boundary_traces sample_mesh neighbours sample_layout no_curves
              300 [4096; 4160] (Fin 10) sample_state) as [[[] st'] | |];
    try discriminate Hrun.
  injection Hrun as Hlog H1 H2 H3.
  destruct Hsw as (hs & lg & Hsweeps & Hlg & Hfst).
  change (@marklog sample_mesh sample_state) with (@nil (Z * bool)) in Hlg.
  cbn [app] in Hlg. rewrite Hlg, Hfst in Hlog. rewrite Hlog in Hsweeps.
  exists (edges st'). split; [exact Hsweeps |].
  repeat (apply Forall_cons_2; [assumption |]). apply Forall_nil_2.
Qed.

Lemma traced_points_checked_witness :
  (@unmarked sample_mesh (edges sample_state) + 256 <= 300)%nat /\
  @points_checked sample_mesh
    (@trace sample_mesh neighbours sample_layout 300 4096 (Fin 10) sample_state) /\
  exists c, @intrace sample_mesh 300 0%nat (Fin 10) = Ok c /\
            Forall (fun p => xy_isfinite p = true) (endpoints c).
Proof.
  assert (Hf : (@unmarked sample_mesh (edges sample_state) + 256 <= 300)%nat)
    by (vm_compute; lia).
  split; [exact Hf |].
  exact (@traced_points_checked sample_mesh neighbours sample_layout
           300 4096 (Fin 10) sample_state 0%nat Hf).
Defined.

(** C7 fails on the code.  On the strip whose seed crossing overflows to
    plus infinity, [trace] returns a polyline that starts with that
    crossing: line 153 tests the first crossing with [isnan] only, where
    every other insertion is guarded by [isfinite].  So not every point of
    the polyline is finite, although none is NaN. *)
Theorem seed_crossing_unchecked :
  (exists c g st',
     @trace overflow_mesh neighbours sample_layout 300 4096 (Fin 10) overflow_state
     = Ok (c, g, st') /\
     endpoints c !! 0%nat = Some {| east := Inf false; north := Fin 0 |}) /\
  ~ @points_finite overflow_mesh
      (@trace overflow_mesh neighbours sample_layout 300 4096 (Fin 10)
         overflow_state) /\
  @points_checked overflow_mesh
    (@trace overflow_mesh neighbours sample_layout 300 4096 (Fin 10)
       overflow_state).
Proof.
  assert (Hrun : match @trace overflow_mesh neighbours sample_layout 300 4096
                         (Fin 10) overflow_state with
                 | Ok (c, _, _) => endpoints c !! 0%nat
                 | _ => None
                 end = Some {| east := Inf false; north := Fin 0 |})
    by (vm_compute; reflexivity).
  assert (Hf : (@unmarked overflow_mesh (edges overflow_state) + 256 <= 300)%nat)
    by (vm_compute; lia).
  pose proof (@traced_points_checked overflow_mesh neighbours sample_layout
                300 4096 (Fin 10) overflow_state 0%nat Hf) as [Hchecked _].
  destruct (@trace overflow_mesh neighbours sample_layout 300 4096 (Fin 10)
              overflow_state) as [[[c g] st'] | |]; try discriminate Hrun.
  split; [exists c, g, st'; split; [reflexivity | exact Hrun] |].
  split; [| exact Hchecked].
  cbn [points_finite]. intros Hall.
  pose proof (proj1 (Forall_lookup _ _) Hall _ _ Hrun) as Hfin.
  discriminate Hfin.
Qed.


(** The two ways the outer loop ends.  On the strip the trace from the
    seed 4096 leaves the mesh over edge 2, whose other triangle is null:
    the polyline is open.  On the ring it comes back to the marked seed
    with a triangle at hand: the polyline is closed, and [mark] has been
    applied to the seed a second time. *)
Example trace_ends :
  match @trace sample_mesh neighbours sample_layout 300 4096 (Fin 10) sample_state with
  | Ok (c, Some t, st) => Some (isopen c, t_ntri t, t_wasmarked t, marklog st)
  | _ => None
  end = Some (true, None, Some false,
              [(4096, false); (4160, false); (4224, false)]) /\
  match @trace ring_mesh ring_neighbours sample_layout 300 4096 (Fin 10) ring_state with
  | Ok (c, Some t, st) => Some (isopen c, t_ntri t, t_wasmarked t, marklog st)
  | _ => None
  end = Some (false, Some 0%nat, Some true,
              [(4096, false); (4160, false); (4096, true)]).
Proof.
  split; vm_compute; reflexivity.
Qed.

Lemma walks_bounded_witness :
  (256 <= 256)%nat /\
  @walk_bounded long_mesh long_state
    (@trace_proceed long_mesh 256 0%nat (Fin 10) 4096
       (walk_start 0 (on_axis 0) (polyline_insert (on_axis 0) (polyline_new (Fin 10))))
       long_state) /\
  collection_bounded (@intrace_walk long_mesh 256 0%nat (Fin 10) 0 0 []).
Proof.
  split; [lia |].
  apply (@walks_bounded long_mesh 256 0%nat (Fin 10) 4096 0 0). lia.
Defined.

(** C9 as stated fails on the strip whose contour never leaves triangle 0:
    from the seed 4096 the inner loop runs 256 times and is cut off by the
    cap with a next sub-segment at hand, yet nothing has been written; nor
    has the whole trace written anything when it returns. *)
Lemma cap_reported_counterexample :
  ~ @cap_reported long_mesh long_state
      (@trace_proceed long_mesh 256 0%nat (Fin 10) 4096
         (walk_start 0 (on_axis 0) (polyline_insert (on_axis 0) (polyline_new (Fin 10))))
         long_state)
  /\ exists c g st',
       @trace long_mesh neighbours sample_layout 300 4096 (Fin 10) long_state
       = Ok (c, g, st') /\ out st' = [].
Proof.
  split.
  - intros Hrep.
    assert (Hrun : match @trace_proceed long_mesh 256 0%nat (Fin 10) 4096
                           (walk_start 0 (on_axis 0)
                              (polyline_insert (on_axis 0) (polyline_new (Fin 10))))
                           long_state with
                   | Ok (w, st') => Some (steps w, w_subnext w, out st')
                   | _ => None
                   end = Some (256%nat, 64, [])) by (vm_compute; reflexivity).
    unfold cap_reported in Hrep.
    destruct (@trace_proceed long_mesh 256 0%nat (Fin 10) 4096 _ long_state)
      as [[w st'] | |]; try discriminate Hrun.
    injection Hrun as Hsteps Hnext Hout.
    apply (Hrep w st' eq_refl Hsteps); [lia | exact Hout].
  - assert (Hrun : match @trace long_mesh neighbours sample_layout 300 4096 (Fin 10)
                           long_state with
                   | Ok (_, _, st') => Some (out st')
                   | _ => None
                   end = Some []) by (vm_compute; reflexivity).
    destruct (@trace long_mesh neighbours sample_layout 300 4096 (Fin 10) long_state)
      as [[[c g] st'] | |]; try discriminate Hrun.
    injection Hrun as Hout. exists c, g, st'. split; [reflexivity | exact Hout].
Qed.

(** ** smoothcontours *)

Section Smoothing.

Context `{Surface} `{SegmentConsts}.

(** C5 (amended).  With the triangle [t] located at the middle of the
    arc: if [t] holds the start, the end and both sample points, the
    deviations come from the elevation function of [t]; if [t] holds the
    start and the end but not both sample points, they come from the
    mesh-wide query, with tolerance 0; if [t] does not hold both the start
    and the end, they come from the elevation function of [t] again.  If
    no triangle is located, the split fraction is 0.5 and the event is
    reported. *)
Theorem probe_cases (conterval wd : double) (sarc : spiralarc)
    (lpt rpt : xyz) (st : state) :
  match findt (arc_middle sarc) with
  | Some t =>
      let ends_in := tri_in t (xy_of (getstart sarc))
                     && tri_in t (xy_of (getend sarc)) in
      let samples_in := tri_in t (xy_of lpt) && tri_in t (xy_of rpt) in
      probe conterval wd sarc lpt rpt st =
      probed st
        (if ends_in && negb samples_in
         then splitpoint (mesh_deviation lpt) (mesh_deviation rpt) (Fin 0)
         else splitpoint (tri_deviation t lpt) (tri_deviation t rpt)
                         (Dbl.mul conterval wd))
      /\ (ends_in = true -> samples_in = true ->
          probe conterval wd sarc lpt rpt st =
          probed st (splitpoint (tri_deviation t lpt) (tri_deviation t rpt)
                                (Dbl.mul conterval wd)))
      /\ (ends_in = true -> samples_in = false ->
          probe conterval wd sarc lpt rpt st =
          probed st (splitpoint (mesh_deviation lpt) (mesh_deviation rpt) (Fin 0)))
      /\ (ends_in = false ->
          probe conterval wd sarc lpt rpt st =
          probed st (splitpoint (tri_deviation t lpt) (tri_deviation t rpt)
                                (Dbl.mul conterval wd)))
  | None =>
      exists st', probe conterval wd sarc lpt rpt st = Ok (0.5%Q, st') /\
                  wrote st [MidptriNull] st'
  end.
Proof.
  unfold probe. cbv zeta.
  destruct (findt (arc_middle sarc)) as [t |].
  - assert (Hrun : forall sp : option Q,
               match sp with Some sp => mret sp | None => fault end st = probed st sp).
    { intros [sp |]; reflexivity. }
    rewrite Hrun.
    destruct (tri_in t (xy_of (getstart sarc)) && tri_in t (xy_of (getend sarc)));
      destruct (tri_in t (xy_of lpt) && tri_in t (xy_of rpt));
      cbn [andb negb]; repeat split; intros; try discriminate; reflexivity.
  - eexists. split; [reflexivity |]. repeat split.
Qed.

(** The tolerance factor of line 307 while the contour has not grown
    beyond twice its size: 0.1 in the pass [k = 0], 0.5 in the pass
    [k = 1]. *)
Lemma wide_same_size (m : nat) :
  wide 0 (Z.of_nat m) (Z.of_nat m) = Fin (1 * 0.1) /\
  wide 1 (Z.of_nat m) (Z.of_nat m) = Fin (1 * 0.5).
Proof.
  unfold wide.
  destruct (Z.gtb_spec (Z.of_nat m) (2 * Z.of_nat m)); [lia |].
  split; reflexivity.
Qed.

(** C2 fails on the code.  The pass [k = 0] works on the contour as it was
    traced, in straight segments, and hands [splitpoint] the tolerance
    [conterval * 0.1]; the pass [k = 1] first calls [smooth] and hands it
    the tolerance [conterval * 0.5]: the two factors are the other way
    round than the comment of lines 295-298 and the claim have them. *)
Theorem pass_tolerances (fuel : nat) (conterval : Q) (n : Z) (c : polyline) (m : nat) :
  let start c := {| sw_n := n; sw_sz := polyline_size c; sw_j := 0; sw_c := c |} in
  let result v := mret (sw_n v, sw_c v) in
  smoothpass fuel (Fin conterval) 0 (n, c)
  = refine fuel (Fin conterval) 0 (polyline_size c) (start c) ≫= result /\
  smoothpass fuel (Fin conterval) 1 (n, c)
  = refine fuel (Fin conterval) 1 (polyline_size (polyline_smooth c))
           (start (polyline_smooth c)) ≫= result /\
  Dbl.mul (Fin conterval) (wide 0 (Z.of_nat m) (Z.of_nat m))
  = Fin (conterval * (1 * 0.1)) /\
  Dbl.mul (Fin conterval) (wide 1 (Z.of_nat m) (Z.of_nat m))
  = Fin (conterval * (1 * 0.5)).
Proof.
  cbv zeta. destruct (wide_same_size m) as [-> ->].
  repeat split.
Qed.

End Smoothing.

Lemma probe_cases_witness :
  (exists st',
     @probe sample_mesh no_curves blind_surface sample_consts
       (Fin 1) (Fin 0.1) tt sample_lpt sample_rpt sample_state = Ok (0.5%Q, st') /\
     wrote sample_state [MidptriNull] st') /\
  @tri_in sample_mesh no_curves sample_surface 0%nat (xy_of (@getstart no_curves tt))
  && @tri_in sample_mesh no_curves sample_surface 0%nat (xy_of (@getend no_curves tt))
  = false /\
  @probe sample_mesh no_curves sample_surface sample_consts
    (Fin 1) (Fin 0.1) tt sample_lpt sample_rpt sample_state
  = probed sample_state
      (@splitpoint sample_consts
         (@tri_deviation sample_mesh no_curves sample_surface 0%nat sample_lpt)
         (@tri_deviation sample_mesh no_curves sample_surface 0%nat sample_rpt)
         (Dbl.mul (Fin 1) (Fin 0.1))).
Proof.
  split.
  { exact (@probe_cases sample_mesh no_curves blind_surface sample_consts
             (Fin 1) (Fin 0.1) tt sample_lpt sample_rpt sample_state). }
  split; [reflexivity |].
  apply (@probe_cases sample_mesh no_curves sample_surface sample_consts
           (Fin 1) (Fin 0.1) tt sample_lpt sample_rpt sample_state).
  reflexivity.
Defined.

(** C5 as stated fails on the sample surface.  The triangle located at the
    middle of the arc holds its start but not its end, so not all four
    points lie in it; the stated rule takes the deviations from the
    mesh-wide query, which knows no elevation here and would give
    [CCHALONG] for every tolerance.  The code takes them from the level
    triangle and returns 0. *)
Lemma probe_stated_counterexample :
  @findt sample_mesh no_curves sample_surface (@arc_middle no_curves tt) = Some 0%nat
  /\ @tri_in sample_mesh no_curves sample_surface 0%nat (xy_of (@getstart no_curves tt))
     && @tri_in sample_mesh no_curves sample_surface 0%nat (xy_of (@getend no_curves tt))
     && @tri_in sample_mesh no_curves sample_surface 0%nat (xy_of sample_lpt)
     && @tri_in sample_mesh no_curves sample_surface 0%nat (xy_of sample_rpt)
     = false
  /\ @probe sample_mesh no_curves sample_surface sample_consts
       (Fin 1) (Fin 0.1) tt sample_lpt sample_rpt sample_state
     = Ok (0%Q, sample_state)
  /\ forall tol,
       @probe sample_mesh no_curves sample_surface sample_consts
         (Fin 1) (Fin 0.1) tt sample_lpt sample_rpt sample_state
       <> probed sample_state
            (@splitpoint sample_consts
               (@mesh_deviation sample_mesh no_curves sample_surface sample_lpt)
               (@mesh_deviation sample_mesh no_curves sample_surface sample_rpt)
               tol).
Proof.
  split; [reflexivity |]. split; [reflexivity |]. split; [reflexivity |].
  intros tol Heq.
  apply (f_equal (fun r => match r with Ok (q, _) => Some q | _ => None end)) in Heq.
  vm_compute in Heq. discriminate Heq.
Qed.

(** * Further properties of the code *)

(** ** splitpoint: symmetries and the tolerance *)

Section SplitpointMore.

Local Open Scope Q_scope.

(** The branch of lines 48-54 also works with tolerance 0. *)
Lemma out_of_tolerance_branch_nonneg (l r t : Q) :
  0 <= t ->
  out_of_tolerance (Fin l) (Fin r) (Fin t) = true ->
  (exists q, splitratio (Fin l) (Fin r) = Fin q /\ -1 <= q <= 1) /\
  (exists i v, splitindex (Fin l) (Fin r) = Some i /\ (0 <= i <= 64)%Z /\
               splittab_at i = Some v /\ 0.2113 <= v <= 0.5).
Proof.
  intros Ht Hout.
  assert (Hbig : 0 < Qabs (if whichbig (Fin l) (Fin r) then r else l) /\
                 Qabs (if whichbig (Fin l) (Fin r) then l else r)
                 <= Qabs (if whichbig (Fin l) (Fin r) then r else l)).
  { apply out_of_tolerance_Fin in Hout.
    pose proof (Qabs_nonneg l). pose proof (Qabs_nonneg r).
    destruct (whichbig (Fin l) (Fin r)) eqn:Hw; unfold whichbig in Hw; simpl in Hw.
    - apply gt_Fin in Hw. split; lra.
    - apply gt_Fin_false in Hw. destruct Hout; split; lra. }
  destruct Hbig as [Hpos Hle].
  assert (Hratio : exists q, splitratio (Fin l) (Fin r) = Fin q /\ -1 <= q <= 1).
  { unfold splitratio.
    destruct (whichbig (Fin l) (Fin r)); simpl;
      rewrite (qzero_false _ (Qabs_pos_nonzero _ Hpos));
      eexists; (split; [reflexivity | apply ratio_bounds; assumption]). }
  split; [exact Hratio |].
  destruct Hratio as (q & Hq & Hq1).
  assert (Hi : (0 <= Dbl.rintQ ((q + 1) * 32) <= 64)%Z)
    by (apply rintQ_bounds; lra).
  destruct (splittab_at_range _ Hi) as (v & Hv & Hv1).
  exists (Dbl.rintQ ((q + 1) * 32)), v.
  split; [| split; [lia | split; assumption]].
  unfold splitindex. rewrite Hq. simpl.
  apply to_int_inject. lia.
Qed.

(** The value of [splitpoint] on finite clamps that are out of tolerance,
    in terms of the table entry. *)
Lemma splitpoint_entry `{SegmentConsts} (l r t : Q) (i : Z) (v : Q) :
  out_of_tolerance (Fin l) (Fin r) (Fin t) = true ->
  splitindex (Fin l) (Fin r) = Some i ->
  splittab_at i = Some v ->
  splitpoint (Fin l) (Fin r) (Fin t)
  = Some (if whichbig (Fin l) (Fin r) then 1 - v else v).
Proof.
  intros Hout Hi Hv. unfold splitpoint. simpl.
  rewrite Hout, Hi. simpl. rewrite Hv. reflexivity.
Qed.

Lemma whichbig_Fin (l r : Q) : whichbig (Fin l) (Fin r) = true <-> Qabs l < Qabs r.
Proof. unfold whichbig. cbn [Dbl.fabs]. apply gt_Fin. Qed.

Lemma whichbig_Fin_false (l r : Q) :
  whichbig (Fin l) (Fin r) = false <-> Qabs r <= Qabs l.
Proof. unfold whichbig. cbn [Dbl.fabs]. apply gt_Fin_false. Qed.

(** X1.  Swapping the two clamp values mirrors the split point: when the
    magnitudes differ, both calls read the same entry [v] of the table;
    the call whose right clamp is the larger returns [1-v], computed on
    floats, and the other returns [v]. *)
Theorem splitpoint_mirror `{SegmentConsts} (l r : Q) (tol : double) :
  positive tol ->
  Rounded.exceeds (Fin l) tol = true \/ Rounded.exceeds (Fin r) tol = true ->
  ~ Qabs l == Qabs r ->
  exists i v,
    Rounded.splitindex (Fin l) (Fin r) = Some i /\
    Rounded.splitindex (Fin r) (Fin l) = Some i /\
    Rounded.splittab_at i = Some v /\
    if whichbig (Fin l) (Fin r)
    then Rounded.splitpoint (Fin l) (Fin r) tol = Some (Ieee.fsub (Fin 1) v) /\
         Rounded.splitpoint (Fin r) (Fin l) tol = Some v
    else Rounded.splitpoint (Fin l) (Fin r) tol = Some v /\
         Rounded.splitpoint (Fin r) (Fin l) tol = Some (Ieee.fsub (Fin 1) v).
Proof.
  intros Ht Hex Hne.
  assert (Hout : Rounded.out_of_tolerance (Fin l) (Fin r) tol = true).
  { unfold Rounded.out_of_tolerance. apply orb_true_iff. exact Hex. }
  assert (Hout' : Rounded.out_of_tolerance (Fin r) (Fin l) tol = true).
  { unfold Rounded.out_of_tolerance. apply orb_true_iff. tauto. }
  destruct (rounded_splitpoint_branch l r tol Ht Hout)
    as (i & v & Hi & _ & Hv & _ & Hsp).
  destruct (rounded_splitpoint_branch r l tol Ht Hout')
    as (i' & v' & Hi' & _ & Hv' & _ & Hsp').
  assert (Hflip : whichbig (Fin r) (Fin l) = negb (whichbig (Fin l) (Fin r))).
  { destruct (whichbig (Fin l) (Fin r)) eqn:Hw, (whichbig (Fin r) (Fin l)) eqn:Hw';
      try reflexivity; exfalso.
    - apply whichbig_Fin in Hw, Hw'. lra.
    - apply whichbig_Fin_false in Hw, Hw'. apply Hne.
      apply Qle_antisym; assumption. }
  assert (Hsame : Rounded.splitindex (Fin r) (Fin l) = Rounded.splitindex (Fin l) (Fin r)).
  { unfold Rounded.splitindex, Rounded.splitratio. rewrite Hflip.
    destruct (whichbig (Fin l) (Fin r)); reflexivity. }
  rewrite Hsame, Hi in Hi'. injection Hi' as <-.
  rewrite Hv in Hv'. injection Hv' as <-.
  exists i, v. split; [exact Hi |]. split; [rewrite Hsame; exact Hi |].
  split; [exact Hv |].
  rewrite Hflip in Hsp'.
  destruct (whichbig (Fin l) (Fin r)); split; assumption.
Qed.

(** X2.  The split point lies on the side of the larger deviation: in the
    right half when the right clamp is larger in magnitude, in the left
    half otherwise. *)
Theorem splitpoint_side `{SegmentConsts} (l r : Q) (tol : double) :
  positive tol ->
  Rounded.exceeds (Fin l) tol = true \/ Rounded.exceeds (Fin r) tol = true ->
  exists sp,
    Rounded.splitpoint (Fin l) (Fin r) tol = Some (Fin sp) /\
    (Qabs l < Qabs r -> 0.5 <= sp <= 0.7887) /\
    (Qabs r <= Qabs l -> 0.2113 <= sp <= 0.5).
Proof.
  intros Ht Hex.
  assert (Hout : Rounded.out_of_tolerance (Fin l) (Fin r) tol = true).
  { unfold Rounded.out_of_tolerance. apply orb_true_iff. exact Hex. }
  destruct (rounded_splitpoint_branch l r tol Ht Hout)
    as (i & v & _ & _ & _ & (a & b & -> & Ha & Hb & Hb1) & Hsp).
  rewrite Hsp, Hb.
  destruct (whichbig (Fin l) (Fin r)) eqn:Hw; eexists; (split; [reflexivity |]).
  - apply whichbig_Fin in Hw. split; intros; lra.
  - apply whichbig_Fin_false in Hw. split; intros; lra.
Qed.

(** X3.  With tolerance 0, as line 319 passes it, [splitpoint] is defined
    for all finite clamp values and returns 0 exactly when both are 0. *)
Theorem splitpoint_zero_tolerance `{SegmentConsts} (l r : Q) :
  exists sp,
    splitpoint (Fin l) (Fin r) (Fin 0) = Some sp /\
    (sp == 0 <-> l == 0 /\ r == 0).
Proof.
  pose proof (Qabs_nonneg l) as Hl0. pose proof (Qabs_nonneg r) as Hr0.
  assert (Hzero : forall x, Qabs x <= 0 <-> x == 0).
  { intros x. split.
    - intros Hx. apply Qabs_Qle_condition in Hx. lra.
    - intros Hx. apply Qabs_Qle_condition. lra. }
  destruct (out_of_tolerance (Fin l) (Fin r) (Fin 0)) eqn:Hout.
  - destruct (out_of_tolerance_branch_nonneg l r 0 ltac:(lra) Hout)
      as (_ & i & v & Hi & _ & Hv & Hv1).
    rewrite (splitpoint_entry l r 0 i v Hout Hi Hv).
    eexists. split; [reflexivity |].
    apply out_of_tolerance_Fin in Hout.
    split.
    + intros Hsp. destruct (whichbig (Fin l) (Fin r)); lra.
    + intros [Hl Hr]. apply Hzero in Hl, Hr. lra.
  - exists 0. split.
    + unfold splitpoint. simpl. rewrite Hout. reflexivity.
    + split; [| reflexivity]. intros _.
      unfold out_of_tolerance in Hout. cbn [Dbl.fabs Dbl.mul] in Hout.
      apply orb_false_iff in Hout. destruct Hout as [H1 H2].
      apply gt_Fin_false in H1, H2.
      split; apply Hzero; lra.
Qed.

(** X4.  The tolerance must not be negative: with both clamps 0 the test
    of line 47 then succeeds, the ratio is 0/0 and the table index is
    undefined. *)
Theorem splitpoint_negative_tolerance `{SegmentConsts} (l r t : Q) :
  l == 0 -> r == 0 -> t < 0 ->
  splitpoint (Fin l) (Fin r) (Fin t) = None.
Proof.
  intros Hl Hr Ht.
  assert (Hout : out_of_tolerance (Fin l) (Fin r) (Fin t) = true).
  { apply out_of_tolerance_Fin. left. pose proof (Qabs_nonneg l). lra. }
  assert (Hql : Dbl.qzero l = true).
  { unfold Dbl.qzero. unfold Qeq in Hl. simpl in Hl. apply Z.eqb_eq. lia. }
  assert (Hqr : Dbl.qzero r = true).
  { unfold Dbl.qzero. unfold Qeq in Hr. simpl in Hr. apply Z.eqb_eq. lia. }
  unfold splitpoint. simpl. rewrite Hout.
  unfold splitindex, splitratio.
  destruct (whichbig (Fin l) (Fin r)); simpl; rewrite Hql, Hqr; reflexivity.
Qed.

End SplitpointMore.

Lemma splitpoint_mirror_witness :
  positive (Fin 0.5) /\
  (Rounded.exceeds (Fin 0.75) (Fin 0.5) = true \/
   Rounded.exceeds (Fin 1) (Fin 0.5) = true) /\
  ~ (Qabs 0.75 == Qabs 1)%Q /\
  exists i v,
    Rounded.splitindex (Fin 0.75) (Fin 1) = Some i /\
    Rounded.splitindex (Fin 1) (Fin 0.75) = Some i /\
    Rounded.splittab_at i = Some v /\
    if whichbig (Fin 0.75) (Fin 1)
    then @Rounded.splitpoint sample_consts (Fin 0.75) (Fin 1) (Fin 0.5)
         = Some (Ieee.fsub (Fin 1) v) /\
         @Rounded.splitpoint sample_consts (Fin 1) (Fin 0.75) (Fin 0.5) = Some v
    else @Rounded.splitpoint sample_consts (Fin 0.75) (Fin 1) (Fin 0.5) = Some v /\
         @Rounded.splitpoint sample_consts (Fin 1) (Fin 0.75) (Fin 0.5)
         = Some (Ieee.fsub (Fin 1) v).
Proof.
  assert (Hne : ~ (Qabs 0.75 == Qabs 1)%Q) by (intros Heq; discriminate Heq).
  split; [reflexivity |]. split; [left; reflexivity |]. split; [exact Hne |].
  apply (@splitpoint_mirror sample_consts 0.75 1 (Fin 0.5));
    [reflexivity | left; reflexivity | exact Hne].
Defined.

Lemma splitpoint_side_witness :
  positive (Fin 0.5) /\
  (Rounded.exceeds (Fin 0.75) (Fin 0.5) = true \/
   Rounded.exceeds (Fin 1) (Fin 0.5) = true) /\
  exists sp,
    @Rounded.splitpoint sample_consts (Fin 0.75) (Fin 1) (Fin 0.5)
    = Some (Fin sp) /\
    ((Qabs 0.75 < Qabs 1)%Q -> (0.5 <= sp <= 0.7887)%Q) /\
    ((Qabs 1 <= Qabs 0.75)%Q -> (0.2113 <= sp <= 0.5)%Q).
Proof.
  split; [reflexivity |]. split; [left; reflexivity |].
  apply (@splitpoint_side sample_consts 0.75 1 (Fin 0.5));
    [reflexivity | left; reflexivity].
Defined.

Lemma splitpoint_negative_tolerance_witness :
  (0 == 0)%Q /\ (0 == 0)%Q /\ (-0.01 < 0)%Q /\
  @splitpoint sample_consts (Fin 0) (Fin 0) (Fin (-0.01)) = None.
Proof.
  split; [reflexivity |]. split; [reflexivity |]. split; [reflexivity |].
  apply (@splitpoint_negative_tolerance sample_consts 0 0 (-0.01)); reflexivity.
Defined.

(** ** mark and ismarked *)

Section MarksMore.

Context `{Triangles} `{EdgeLayout}.

Lemma ismarked_run (ep : Z) (st : state) :
  ismarked ep st
  = match bit (edges st) ep with
    | Some b => Ok (b, st)
    | None => Fault
    end.
Proof.
  unfold ismarked, deref, bit, get_edges, mbind, M_bind, mret, M_ret, fault.
  destruct (edge_index (Z.land ep (-4))) as [i |]; [| reflexivity]. simpl.
  destruct (edges st !! i); reflexivity.
Qed.

Lemma mark_run (ep : Z) (st : state) :
  mark ep st
  = match edge_index (Z.land ep (-4)) with
    | Some i =>
        match edges st !! i with
        | Some e =>
            Ok (tt, {| edges := marked_edges (edges st) i e ep;
                       triangles := triangles st; contours := contours st;
                       out := out st;
                       marklog := marklog st
                                  ++ [(ep, edge_ismarked (Z.land ep 3) e)] |})
        | None => Fault
        end
    | None => Fault
    end.
Proof.
  unfold mark, deref, get_edges, log_mark, put_edges, mbind, M_bind, mret,
    M_ret, fault.
  destruct (edge_index (Z.land ep (-4))) as [i |]; [| reflexivity].
  destruct (edges st !! i); reflexivity.
Qed.

Lemma bit_cases (es : list edge) (ep : Z) (b : bool) :
  bit es ep = Some b ->
  exists i e, edge_index (Z.land ep (-4)) = Some i /\ es !! i = Some e /\
              b = edge_ismarked (Z.land ep 3) e.
Proof.
  unfold bit. intros Hb.
  destruct (edge_index (Z.land ep (-4))) as [i |]; [| discriminate].
  simpl in Hb. destruct (es !! i) as [e |] eqn:He; [| discriminate].
  injection Hb as <-. exists i, e. repeat split; assumption.
Qed.

Lemma ismarked_valid (ep : Z) (st : state) (b : bool) (st0 : state) :
  ismarked ep st = Ok (b, st0) -> bit (edges st) ep = Some b.
Proof.
  rewrite ismarked_run. destruct (bit (edges st) ep); [| discriminate].
  intros [= -> _]. reflexivity.
Qed.

(** Setting a bit that is set changes nothing. *)
Lemma edge_mark_set (n : Z) (e : edge) :
  0 <= n -> edge_ismarked n e = true -> edge_mark n e = e.
Proof.
  intros Hn Hset. destruct e as [ta tb c].
  unfold edge_mark, edge_ismarked in *. simpl in *. f_equal.
  apply Z.bits_inj'. intros m Hm.
  rewrite Z.lor_spec, Z.shiftl_1_l, Z.pow2_bits_eqb by assumption.
  destruct (Z.eqb_spec n m) as [<- | _]; [| apply orb_false_r].
  rewrite Hset. reflexivity.
Qed.

(** X5.  [mark(ep)] on a handle that points into the edges sets the bit of
    that handle and no other: afterwards [ismarked(ep)] answers true, and
    for every other handle, be it another side of the same edge or a
    handle that points nowhere, [ismarked] answers as before. *)
Theorem mark_sets_one_bit (ep : Z) (st : state) (b : bool) :
  ismarked ep st = Ok (b, st) ->
  exists st',
    mark ep st = Ok (tt, st') /\
    ismarked ep st' = Ok (true, st') /\
    forall ep' b', ep' <> ep ->
      (ismarked ep' st' = Ok (b', st') <-> ismarked ep' st = Ok (b', st)).
Proof.
  intros Hv. apply ismarked_valid, bit_cases in Hv.
  destruct Hv as (i & e & Hi & He & _).
  rewrite mark_run, Hi, He. eexists. split; [reflexivity |].
  split.
  - rewrite ismarked_run. cbn [edges].
    rewrite (bit_marked _ _ _ _ Hi He). reflexivity.
  - intros ep' b' Hne. rewrite !ismarked_run. cbn [edges].
    rewrite (bit_marked_other _ _ _ _ _ Hi He Hne).
    destruct (bit (edges st) ep') as [b0 |]; [| split; discriminate].
    split; intros [= ->]; reflexivity.
Qed.

(** X6.  Marking a handle that is marked leaves every edge as it is. *)
Theorem mark_idempotent (ep : Z) (st : state) :
  ismarked ep st = Ok (true, st) ->
  exists st', mark ep st = Ok (tt, st') /\ edges st' = edges st.
Proof.
  intros Hv. apply ismarked_valid, bit_cases in Hv.
  destruct Hv as (i & e & Hi & He & Hset).
  rewrite mark_run, Hi, He. eexists. split; [reflexivity |].
  cbn [edges]. unfold marked_edges.
  rewrite edge_mark_set by (pose proof (side_range ep); auto with zarith).
  apply list_insert_id, He.
Qed.

(** X7.  A handle below the edge array, the null handle among them, must
    not be given to [mark] or [ismarked]: they would dereference it. *)
Theorem mark_below_edges (ep : Z) (st : state) :
  ep < ebase -> mark ep st = Fault /\ ismarked ep st = Fault.
Proof.
  intros Hlt.
  assert (Hidx : edge_index (Z.land ep (-4)) = None).
  { unfold edge_index. rewrite land_address.
    pose proof (Z.div_mod ep 4 ltac:(lia)) as Hdm.
    pose proof (Z.mod_pos_bound ep 4 ltac:(lia)) as Hmod.
    destruct (Z.leb_spec ebase (4 * (ep / 4))); [lia | reflexivity]. }
  rewrite mark_run, ismarked_run. unfold bit. rewrite Hidx. split; reflexivity.
Qed.

(** X8.  The handle [j + &edges[i]] that line 79 builds is taken apart by
    [ep&-4] and [ep&3] again: [ismarked] reads bit [j] of edge [i] and
    [mark] sets that bit and touches no other edge. *)
Theorem handle_reaches_side (i : nat) (j : Z) (e : edge) (st : state) :
  0 <= j <= 3 ->
  edges st !! i = Some e ->
  ismarked (j + edge_addr i) st = Ok (edge_ismarked j e, st) /\
  exists st', mark (j + edge_addr i) st = Ok (tt, st') /\
              edges st' = <[i := edge_mark j e]> (edges st).
Proof.
  intros Hj He.
  destruct (side_handle (edges st) i j e Hj He) as (Haddr & Hside & Hbit).
  split.
  - rewrite ismarked_run, Hbit. reflexivity.
  - assert (Hidx : edge_index (Z.land (j + edge_addr i) (-4)) = Some i).
    { unfold bit in Hbit.
      destruct (edge_index (Z.land (j + edge_addr i) (-4))) as [i' |] eqn:Hi';
        [| discriminate].
      apply edge_index_addr in Hi'. rewrite Haddr in Hi'.
      unfold edge_addr in Hi'. pose proof esize_pos.
      f_equal. nia. }
    rewrite mark_run, Hidx, He. eexists. split; [reflexivity |].
    cbn [edges]. unfold marked_edges. rewrite Hside. reflexivity.
Qed.

End MarksMore.

Lemma mark_sets_one_bit_witness :
  @ismarked sample_mesh sample_layout 4160 sample_state = Ok (false, sample_state) /\
  exists st',
    @mark sample_mesh sample_layout 4160 sample_state = Ok (tt, st') /\
    @ismarked sample_mesh sample_layout 4160 st' = Ok (true, st') /\
    forall ep' b', ep' <> 4160 ->
      (@ismarked sample_mesh sample_layout ep' st' = Ok (b', st') <->
       @ismarked sample_mesh sample_layout ep' sample_state = Ok (b', sample_state)).
Proof.
  split; [reflexivity |].
  apply (@mark_sets_one_bit sample_mesh sample_layout 4160 sample_state false).
  reflexivity.
Defined.

Lemma mark_idempotent_witness :
  exists st0,
    @mark sample_mesh sample_layout 4160 sample_state = Ok (tt, st0) /\
    @ismarked sample_mesh sample_layout 4160 st0 = Ok (true, st0) /\
    exists st', @mark sample_mesh sample_layout 4160 st0 = Ok (tt, st') /\
                @edges sample_mesh st' = @edges sample_mesh st0.
Proof.
  eexists. split; [reflexivity |]. split; [reflexivity |].
  apply (@mark_idempotent sample_mesh sample_layout 4160). reflexivity.
Defined.

Lemma mark_below_edges_witness :
  0 < @ebase sample_layout /\
  @mark sample_mesh sample_layout 0 sample_state = Fault /\
  @ismarked sample_mesh sample_layout 0 sample_state = Fault.
Proof.
  split; [reflexivity |].
  apply (@mark_below_edges sample_mesh sample_layout 0 sample_state). reflexivity.
Defined.

Lemma handle_reaches_side_witness :
  0 <= 2 <= 3 /\
  @edges sample_mesh sample_state !! 1%nat
  = Some (@mkedge sample_mesh (Some 0%nat) (Some 1%nat) 0) /\
  @ismarked sample_mesh sample_layout (2 + @edge_addr sample_layout 1) sample_state
  = Ok (false, sample_state) /\
  exists st', @mark sample_mesh sample_layout (2 + @edge_addr sample_layout 1)
                sample_state = Ok (tt, st') /\
              @edges sample_mesh st'
              = <[1%nat := @edge_mark sample_mesh 2
                             (@mkedge sample_mesh (Some 0%nat) (Some 1%nat) 0)]>
                  (@edges sample_mesh sample_state).
Proof.
  split; [lia |]. split; [reflexivity |].
  apply (@handle_reaches_side sample_mesh sample_layout 1%nat 2
           (@mkedge sample_mesh (Some 0%nat) (Some 1%nat) 0) sample_state);
    [lia | reflexivity].
Defined.

(** ** contstarts: the assertion and the seeds *)

Section ContstartsMore.

Context `{Edges} `{EdgeLayout}.

Lemma bind_run {A B : Type} (m : M A) (f : A -> M B) (st : state) :
  (m ≫= f) st
  = match m st with
    | Ok (a, st1) => f a st1
    | Fault => Fault
    | OutOfFuel => OutOfFuel
    end.
Proof. reflexivity. Qed.

Lemma for_each_cons {A S : Type} (x : A) (l : list A) (body : A -> S -> M S)
    (acc : S) :
  for_each (x :: l) body acc = (acc' ← body x acc; for_each l body acc').
Proof. reflexivity. Qed.

Lemma ret_run {A : Type} (a : A) (st : state) : (mret a : M A) st = Ok (a, st).
Proof. reflexivity. Qed.

Lemma ret_bind_run {A B : Type} (a : A) (f : A -> M B) (st : state) :
  (mret a ≫= f) st = f a st.
Proof. reflexivity. Qed.

(** One pass over the edges, whatever the edges are: it stops at the first
    edge of the pass that has no triangle. *)
Lemma contstarts_pass_any (io : Z) (elev : double) (es : list edge) (n : nat)
    (acc : list Z) (st : state) :
  io = 0 \/ io = 1 ->
  for_each (indexed n es) (fun '(i, e) ret =>
      if io =? Z.b2z (isinterior e) then
        tri ← nonnull (edge_tri e);
        for_each [0; 1; 2] (fun j ret =>
          let ep := j + edge_addr i in
          let sd := subdir tri ep in
          if crosses tri sd elev && (negb (io =? 0) || upleft tri sd)
          then mret (ret ++ [ep])
          else mret ret) ret
      else mret ret) acc st
  = if existsb (fun e => (io =? Z.b2z (isinterior e)) && no_triangle e) es
    then Fault
    else Ok (acc ++ flat_map (seeds_on coded_rule elev)
                      (List.filter (fun ie => Z.b2z (isinterior (snd ie)) =? io)
                                   (indexed n es)), st).
Proof.
  intros Hio. revert n acc.
  induction es as [| e es IH]; intros n acc.
  - simpl. rewrite app_nil_r. reflexivity.
  - cbn [indexed existsb List.filter snd].
    rewrite for_each_cons, bind_run. unfold no_triangle.
    destruct (Z.eqb_spec io (Z.b2z (isinterior e))) as [Heq | Hne].
    + destruct (edge_tri e) as [tri |] eqn:Htri.
      * cbn [nonnull]. rewrite ret_bind_run.
        rewrite (contstarts_sides io e n tri elev acc st Heq Htri).
        rewrite IH. cbn [andb orb].
        rewrite <- Heq, Z.eqb_refl. cbn [flat_map].
        rewrite app_assoc. reflexivity.
      * reflexivity.
    + rewrite ret_run.
      rewrite IH. cbn [andb orb].
      destruct (Z.eqb_spec (Z.b2z (isinterior e)) io); [congruence | reflexivity].
Qed.

Lemma existsb_passes (es : list edge) :
  existsb no_triangle es
  = existsb (fun e => (0 =? Z.b2z (isinterior e)) && no_triangle e) es
    || existsb (fun e => (1 =? Z.b2z (isinterior e)) && no_triangle e) es.
Proof.
  induction es as [| e es IH]; [reflexivity |].
  cbn [existsb]. rewrite IH.
  destruct (isinterior e), (no_triangle e); cbn [Z.b2z Z.eqb andb orb];
    rewrite ?orb_true_r; reflexivity.
Qed.

(** What [contstarts] does on any edges. *)
Lemma contstarts_run (elev : double) (st : state) :
  contstarts elev st
  = if existsb no_triangle (edges st) then Fault
    else Ok (two_pass coded_rule elev (edges st), st).
Proof.
  pose proof (contstarts_pass_any 0 elev (edges st) 0 [] st (or_introl eq_refl))
    as Hp0.
  pose proof (fun acc =>
                contstarts_pass_any 1 elev (edges st) 0 acc st (or_intror eq_refl))
    as Hp1.
  cbv zeta in Hp0, Hp1.
  unfold contstarts, two_pass. rewrite bind_run.
  change (get_edges st) with (Ok (edges st, st)). cbv beta iota zeta.
  rewrite for_each_cons, bind_run, Hp0.
  rewrite existsb_passes.
  destruct (existsb (fun e => (0 =? Z.b2z (isinterior e)) && no_triangle e)
              (edges st)); [reflexivity |].
  cbv beta iota. rewrite for_each_cons, bind_run, Hp1.
  destruct (existsb (fun e => (1 =? Z.b2z (isinterior e)) && no_triangle e)
              (edges st)); [reflexivity |].
  cbn [orb app for_each]. rewrite ret_run. do 3 f_equal.
  - f_equal. apply filter_ext_bool. intros [i e]. cbn [snd].
    destruct (isinterior e); reflexivity.
  - f_equal. apply filter_ext_bool. intros [i e]. cbn [snd].
    destruct (isinterior e); reflexivity.
Qed.

(** X9.  [contstarts] fails its assertion exactly when some edge has a
    triangle on neither side; otherwise it returns and leaves the state,
    marks included, as it was. *)
Theorem contstarts_assertion (elev : double) (st : state) :
  (contstarts elev st = Fault
   <-> Exists (fun e => edge_tri e = None) (edges st)) /\
  (forall l st', contstarts elev st = Ok (l, st') -> st' = st) /\
  contstarts elev st <> OutOfFuel.
Proof.
  rewrite contstarts_run.
  assert (Hex : existsb no_triangle (edges st) = true
                <-> Exists (fun e => edge_tri e = None) (edges st)).
  { rewrite existsb_exists, Exists_exists. split.
    - intros (e & Hin & Hno). exists e. split; [apply list_elem_of_In, Hin |].
      unfold no_triangle in Hno. destruct (edge_tri e); [discriminate | reflexivity].
    - intros (e & Hin & Hno). exists e. split; [apply list_elem_of_In, Hin |].
      unfold no_triangle. rewrite Hno. reflexivity. }
  destruct (existsb no_triangle (edges st)).
  - split; [| split]; [| discriminate | discriminate].
    split; [intros _; apply Hex; reflexivity | reflexivity].
  - split; [| split]; [| intros l st' [= _ <-]; reflexivity | discriminate].
    split; [discriminate |]. intros Hx. apply Hex in Hx. discriminate.
Qed.

Lemma esize_ge_4 : 4 <= esize.
Proof.
  pose proof esize_pos. pose proof esize_aligned.
  pose proof (Z.div_mod esize 4 ltac:(lia)). 
  destruct (Z.eq_dec (esize / 4) 0); [lia |].
  assert (0 <= esize / 4) by (apply Z.div_pos; lia). lia.
Qed.

Lemma seeds_on_elem (rule : edge -> triangle -> Z -> bool) (elev : double)
    (i : nat) (e : edge) (ep : Z) :
  In ep (seeds_on rule elev (i, e)) ->
  exists j tri, 0 <= j <= 2 /\ ep = j + edge_addr i /\
                edge_tri e = Some tri /\
                crosses tri (subdir tri ep) elev = true.
Proof.
  unfold seeds_on. cbn [fst snd].
  destruct (edge_tri e) as [tri |]; [| intros []].
  intros Hin. apply filter_In in Hin. destruct Hin as [Hin Hc].
  apply andb_true_iff in Hc. destruct Hc as [Hc _].
  unfold side_handles in Hin. simpl in Hin.
  destruct Hin as [<- | [<- | [<- | []]]];
    [exists 0, tri | exists 1, tri | exists 2, tri];
    (split; [lia | split; [reflexivity | split; [reflexivity | exact Hc]]]).
Qed.

Lemma indexed_In {A : Type} (n : nat) (l : list A) (i : nat) (x : A) :
  In (i, x) (indexed n l) -> (n <= i)%nat /\ l !! (i - n)%nat = Some x.
Proof.
  revert n. induction l as [| y l IH]; intros n; [intros [] |].
  cbn [indexed]. intros [[= <- <-] | Hin].
  - split; [lia |]. rewrite Nat.sub_diag. reflexivity.
  - apply IH in Hin. destruct Hin as [Hle Hl]. split; [lia |].
    replace (i - n)%nat with (S (i - S n)) by lia. exact Hl.
Qed.

Lemma NoDup_list_filter {A : Type} (f : A -> bool) (l : list A) :
  NoDup l -> NoDup (List.filter f l).
Proof.
  induction 1 as [| x l Hx Hl IH]; simpl; [constructor |].
  destruct (f x); [| exact IH]. constructor; [| exact IH].
  rewrite list_elem_of_In, filter_In. rewrite list_elem_of_In in Hx. tauto.
Qed.

(** The seeds of one pass are distinct and lie in address order. *)
Lemma pass_seeds_NoDup (rule : edge -> triangle -> Z -> bool) (elev : double)
    (P : nat * edge -> bool) (es : list edge) (n : nat) :
  NoDup (flat_map (seeds_on rule elev) (List.filter P (indexed n es))) /\
  forall ep, In ep (flat_map (seeds_on rule elev) (List.filter P (indexed n es))) ->
             edge_addr n <= ep.
Proof.
  revert n. induction es as [| e es IH]; intros n.
  - simpl. split; [constructor | intros ep []].
  - destruct (IH (S n)) as [Hnd Hge].
    assert (Hnext : edge_addr (S n) = edge_addr n + esize).
    { unfold edge_addr. lia. }
    pose proof esize_ge_4 as H4.
    cbn [indexed List.filter].
    destruct (P (n, e)); cbn [flat_map].
    + split.
      * apply NoDup_app. split; [| split; [| exact Hnd]].
        -- unfold seeds_on. cbn [fst snd].
           destruct (edge_tri e); [| constructor].
           apply NoDup_list_filter. unfold side_handles. simpl.
           repeat (constructor; [rewrite !list_elem_of_In; simpl; lia |]).
           constructor.
        -- intros ep Hin Hin'. apply list_elem_of_In in Hin, Hin'.
           apply seeds_on_elem in Hin. destruct Hin as (j & tri & Hj & -> & _).
           apply Hge in Hin'. lia.
      * intros ep Hin. apply in_app_or in Hin. destruct Hin as [Hin | Hin].
        -- apply seeds_on_elem in Hin. destruct Hin as (j & tri & Hj & -> & _). lia.
        -- apply Hge in Hin. lia.
    + split; [exact Hnd |]. intros ep Hin. apply Hge in Hin. lia.
Qed.

Lemma pass_seeds_elem (rule : edge -> triangle -> Z -> bool) (elev : double)
    (P : nat * edge -> bool) (es : list edge) (ep : Z) :
  In ep (flat_map (seeds_on rule elev) (List.filter P (indexed 0 es))) ->
  exists i e j tri,
    P (i, e) = true /\ es !! i = Some e /\ 0 <= j <= 2 /\ ep = j + edge_addr i /\
    edge_tri e = Some tri /\ crosses tri (subdir tri ep) elev = true.
Proof.
  intros Hin. apply in_flat_map in Hin. destruct Hin as ([i e] & Hie & Hin).
  apply filter_In in Hie. destruct Hie as [Hie HP].
  apply indexed_In in Hie. destruct Hie as [_ He].
  rewrite Nat.sub_0_r in He.
  apply seeds_on_elem in Hin. destruct Hin as (j & tri & Hj & Hep & Htri & Hc).
  exists i, e, j, tri. repeat split; try assumption; lia.
Qed.

Lemma edge_addr_inj (i i' : nat) : edge_addr i = edge_addr i' -> i = i'.
Proof. unfold edge_addr. pose proof esize_pos. nia. Qed.

(** X10.  The seeds [contstarts] returns are distinct handles, each of a
    side 0 to 2 of an edge of the mesh that crosses the elevation. *)
Theorem contstarts_seeds_distinct (elev : double) (st st' : state) (l : list Z) :
  contstarts elev st = Ok (l, st') ->
  NoDup l /\ Forall (crossing_handle (edges st) elev) l.
Proof.
  rewrite contstarts_run.
  destruct (existsb no_triangle (edges st)); [discriminate |].
  intros [= <- _]. unfold two_pass. split.
  - apply NoDup_app. split; [apply pass_seeds_NoDup |].
    split; [| apply pass_seeds_NoDup].
    intros ep Hin Hin'. apply list_elem_of_In in Hin, Hin'.
    apply pass_seeds_elem in Hin, Hin'.
    destruct Hin as (i & e & j & tri & HP & He & Hj & Hep & _).
    destruct Hin' as (i' & e' & j' & tri' & HP' & He' & Hj' & Hep' & _).
    cbn [snd] in HP, HP'.
    destruct (side_handle (edges st) i j e ltac:(lia) He) as (Ha & _).
    destruct (side_handle (edges st) i' j' e' ltac:(lia) He') as (Ha' & _).
    rewrite <- Hep in Ha. rewrite <- Hep' in Ha'.
    assert (i = i') by (apply edge_addr_inj; congruence). subst i'.
    assert (e = e') by congruence. subst e'.
    rewrite HP' in HP. discriminate.
  - apply Forall_forall. intros ep Hin. apply list_elem_of_In in Hin.
    apply in_app_or in Hin.
    destruct Hin as [Hin | Hin]; apply pass_seeds_elem in Hin;
      destruct Hin as (i & e & j & tri & _ & He & Hj & Hep & Htri & Hc);
      exists i, e, j, tri; repeat split; try assumption; lia.
Qed.

End ContstartsMore.

Lemma contstarts_seeds_distinct_witness :
  @contstarts sample_mesh neighbours sample_layout (Fin 10) sample_state
  = Ok ([4096; 4160], sample_state) /\
  NoDup [4096; 4160] /\
  Forall (@crossing_handle sample_mesh sample_layout
            (@edges sample_mesh sample_state) (Fin 10)) [4096; 4160].
Proof.
  split; [reflexivity |].
  apply (@contstarts_seeds_distinct sample_mesh neighbours sample_layout (Fin 10)
           sample_state sample_state [4096; 4160]).
  reflexivity.
Defined.

(** ** intrace: what it returns *)

Section IntraceMore.

Context `{Triangles}.

Lemma intrace_more_length (tri : triangle) (start j : Z) (sube : list Z) :
  intrace_more tri start j sube = true -> (length sube < 256)%nat.
Proof.
  unfold intrace_more. intros Hmore.
  destruct (Z.eqb_spec (Z.of_nat (length sube)) 0); [lia |].
  destruct (Z.ltb_spec (Z.of_nat (length sube)) 256); [lia |].
  rewrite !andb_false_r in Hmore. discriminate.
Qed.

(** The walk of line 123 appends a chain of [proceed] results. *)
Lemma intrace_walk_chain (fuel : nat) (tri : triangle) (elev : double)
    (start j : Z) (sube : list Z) (j' : Z) (sube' : list Z) :
  intrace_walk fuel tri elev start j sube = Ok (j', sube') ->
  (length sube <= 256)%nat ->
  exists n, sube' = sube ++ chain tri elev j n /\
            j' = proceeded tri elev j n /\
            (length sube' <= 256)%nat /\
            (sube = [] -> (1 <= n)%nat).
Proof.
  revert j sube. induction fuel as [| fuel IH]; intros j sube;
    cbn [intrace_walk];
    destruct (intrace_more tri start j sube) eqn:Hmore;
    try (intros Hx; discriminate Hx).
  - intros [= <- <-] Hlen. exists 0%nat. cbn [chain]. rewrite app_nil_r.
    repeat split; try assumption.
    intros ->. discriminate Hmore.
  - intros Hwalk Hlen. apply intrace_more_length in Hmore.
    apply IH in Hwalk; [| rewrite length_app; simpl; lia].
    destruct Hwalk as (n & Hsube & Hj & Hlen' & _).
    exists (S n). cbn [chain]. rewrite <- app_assoc in Hsube.
    refine (conj Hsube (conj _ (conj Hlen' _))); [| intros _; lia].
    rewrite Hj. unfold proceeded. rewrite Nat.iter_succ_r. reflexivity.
  - intros [= <- <-] Hlen. exists 0%nat. cbn [chain]. rewrite app_nil_r.
    repeat split; try assumption.
    intros ->. discriminate Hmore.
Qed.

(** The loop of lines 116-127 ends with the locals it started with, or
    with those of the walk from a crossing sub-segment. *)
Lemma intrace_scan_chain (fuel : nat) (tri : triangle) (elev : double)
    (subs : list Z) (j0 start0 : Z) (sube0 : list Z) (j start : Z) (sube : list Z) :
  intrace_scan fuel tri elev subs j0 start0 sube0 = Ok (j, start, sube) ->
  (j, start, sube) = (j0, start0, sube0) \/
  exists i n,
    In i subs /\ crosses tri i elev = true /\
    start = (if upleft tri i then i else i + 65536) /\
    (1 <= n <= 256)%nat /\
    sube = chain tri elev start n /\
    j = proceeded tri elev start n.
Proof.
  revert j0 start0 sube0.
  induction subs as [| i subs IH]; intros j0 start0 sube0; cbn [intrace_scan].
  - intros [= <- <- <-]. left. reflexivity.
  - destruct (crosses tri i elev) eqn:Hc.
    + cbv zeta.
      destruct (intrace_walk fuel tri elev
                  (if upleft tri i then i else i + 65536)
                  (if upleft tri i then i else i + 65536) [])
        as [[j1 sube1] | |] eqn:Hwalk; try discriminate.
      apply intrace_walk_chain in Hwalk; [| simpl; lia].
      destruct Hwalk as (n & Hsube & Hj & Hlen & Hn).
      cbn [app] in Hsube. specialize (Hn eq_refl).
      assert (Hhere : exists i0 n0,
                 In i0 (i :: subs) /\ crosses tri i0 elev = true /\
                 (if upleft tri i then i else i + 65536)
                 = (if upleft tri i0 then i0 else i0 + 65536) /\
                 (1 <= n0 <= 256)%nat /\
                 sube1 = chain tri elev (if upleft tri i then i else i + 65536) n0 /\
                 j1 = proceeded tri elev (if upleft tri i then i else i + 65536) n0).
      { exists i, n. split; [left; reflexivity |]. split; [exact Hc |].
        split; [reflexivity |]. split; [| split; assumption].
        split; [exact Hn |].
        assert (Hcl : forall m x, length (chain tri elev x m) = m).
        { induction m as [| m IHm]; intros x; simpl; [reflexivity |].
          rewrite IHm. reflexivity. }
        rewrite Hsube, Hcl in Hlen. exact Hlen. }
      cbn [mbind result_bind].
      destruct (j1 =? (if upleft tri i then i else i + 65536)).
      * intros [= <- <- <-]. right.
        destruct Hhere as (i0 & n0 & Hin & Hc0 & Hst & Hn0 & Hs & Hj0).
        exists i0, n0. rewrite <- Hst. repeat split; try assumption; lia.
      * intros Hscan. apply IH in Hscan.
        destruct Hscan as [[= -> -> ->] | (i0 & n0 & Hin & Hrest)].
        -- right.
           destruct Hhere as (i0 & n0 & Hin & Hc0 & Hst & Hn0 & Hs & Hj0).
           exists i0, n0. rewrite <- Hst. repeat split; try assumption; lia.
        -- right. exists i0, n0. split; [right; exact Hin | exact Hrest].
    + intros Hscan. apply IH in Hscan.
      destruct Hscan as [Heq | (i0 & n0 & Hin & Hrest)]; [left; exact Heq |].
      right. exists i0, n0. split; [right; exact Hin | exact Hrest].
Qed.

Lemma insert_finite_eq (tri : triangle) (elev : double)
    (sube : list Z) (ret : polyline) :
  insert_finite tri elev sube ret
  = {| elevation := elevation ret;
       endpoints := endpoints ret ++ finite_cepts tri elev sube;
       isopen := isopen ret; curvy := curvy ret |}.
Proof.
  unfold insert_finite, finite_cepts. revert ret.
  induction sube as [| s sube IH]; intros ret.
  - simpl. rewrite app_nil_r. destruct ret; reflexivity.
  - cbn [fold_left List.map List.filter]. rewrite IH.
    destruct (xy_isfinite (contourcept tri s elev)); [| reflexivity].
    cbn [polyline_insert elevation endpoints isopen curvy].
    rewrite <- app_assoc. reflexivity.
Qed.

Lemma finite_cepts_length (tri : triangle) (elev : double) (sube : list Z) :
  (length (finite_cepts tri elev sube) <= length sube)%nat.
Proof.
  unfold finite_cepts.
  etransitivity; [apply List.filter_length_le |]. rewrite length_map. lia.
Qed.

Lemma chain_length (tri : triangle) (elev : double) (j : Z) (n : nat) :
  length (chain tri elev j n) = n.
Proof.
  revert j. induction n as [| n IH]; intros j; simpl; [reflexivity |].
  rewrite IH. reflexivity.
Qed.

(** X11.  [intrace] returns the empty polyline, or the finite crossing
    points of a walk that came back to where it started: the sub-segments
    of the walk, 1 to 256 of them, follow one another by [proceed], the
    first is a crossing sub-segment of the triangle and [proceed] leads
    from the last back to the first. *)
Theorem intrace_closed_walk (fuel : nat) (tri : triangle) (elev : double)
    (c : polyline) :
  intrace fuel tri elev = Ok c ->
  c = polyline_new elev \/
  exists i start n,
    0 <= i < subdiv_size tri /\
    crosses tri i elev = true /\
    start = (if upleft tri i then i else i + 65536) /\
    (1 <= n <= 256)%nat /\
    proceeded tri elev start n = start /\
    c = {| elevation := elevation (polyline_new elev);
           endpoints := finite_cepts tri elev (chain tri elev start n);
           isopen := isopen (polyline_new elev);
           curvy := curvy (polyline_new elev) |}.
Proof.
  unfold intrace.
  destruct (intrace_scan fuel tri elev (seqZ 0 (subdiv_size tri)) (-610) (-987) [])
    as [[[j start] sube] | |] eqn:Hscan; try discriminate.
  cbn [mbind result_bind mret result_ret].
  destruct (Z.eqb_spec j start) as [Heq | Hne]; [| intros [= <-]; left; reflexivity].
  intros [= <-]. right.
  apply intrace_scan_chain in Hscan.
  destruct Hscan as [[= -> -> ->] | (i & n & Hin & Hc & Hst & Hn & Hsube & Hj)];
    [discriminate |].
  exists i, start, n.
  apply list_elem_of_In, elem_of_seqZ in Hin.
  split; [lia |]. split; [exact Hc |]. split; [exact Hst |].
  split; [exact Hn |]. split; [congruence |].
  rewrite insert_finite_eq, Hsube. reflexivity.
Qed.

(** The polyline of [intrace] is the one it created, with at most 256
    points put in. *)
Lemma intrace_shape (fuel : nat) (tri : triangle) (elev : double) (c : polyline) :
  intrace fuel tri elev = Ok c ->
  (length (endpoints c) <= 256)%nat /\
  isopen c = isopen (polyline_new elev) /\
  elevation c = elev.
Proof.
  unfold intrace.
  destruct (intrace_scan fuel tri elev (seqZ 0 (subdiv_size tri)) (-610) (-987) [])
    as [[[j start] sube] | |] eqn:Hscan; try discriminate.
  cbn [mbind result_bind mret result_ret].
  destruct (j =? start); intros [= <-]; [| repeat split; simpl; lia].
  rewrite insert_finite_eq. cbn [endpoints isopen elevation polyline_new app].
  repeat split.
  apply intrace_scan_chain in Hscan.
  destruct Hscan as [[= -> -> ->] | (i & n & _ & _ & _ & Hn & Hsube & _)];
    [simpl; lia |].
  pose proof (finite_cepts_length tri elev sube) as Hl.
  rewrite Hsube, chain_length in Hl. rewrite Hsube. lia.
Qed.

(** X12.  With fuel for one walk [intrace] returns, and what it returns is
    the polyline it created with at most 256 points, all finite: it is
    never opened and its elevation is the one given. *)
Theorem intrace_bounded (fuel : nat) (tri : triangle) (elev : double) :
  (256 <= fuel)%nat ->
  exists c, intrace fuel tri elev = Ok c /\
            (length (endpoints c) <= 256)%nat /\
            Forall (fun p => xy_isfinite p = true) (endpoints c) /\
            isopen c = isopen (polyline_new elev) /\
            elevation c = elev.
Proof.
  intros Hfuel.
  destruct (intrace_spec fuel tri elev Hfuel) as (c & Hc & Hfin).
  exists c. split; [exact Hc |].
  destruct (intrace_shape fuel tri elev c Hc) as (Hlen & Hopen & Helev).
  repeat split; assumption.
Qed.

(** X13.  When no sub-segment of the triangle crosses the elevation, an
    empty subdivision included, [intrace] returns the empty polyline. *)
Theorem intrace_no_crossing (fuel : nat) (tri : triangle) (elev : double) :
  (forall i, 0 <= i < subdiv_size tri -> crosses tri i elev = false) ->
  intrace fuel tri elev = Ok (polyline_new elev).
Proof.
  intros Hno.
  assert (Hscan : forall subs j start sube,
             Forall (fun i => crosses tri i elev = false) subs ->
             intrace_scan fuel tri elev subs j start sube = Ok (j, start, sube)).
  { induction subs as [| i subs IH]; intros j start sube Hall; [reflexivity |].
    apply Forall_cons in Hall. destruct Hall as [Hi Hall].
    cbn [intrace_scan]. rewrite Hi. apply IH, Hall. }
  unfold intrace. rewrite Hscan; [reflexivity |].
  apply Forall_forall. intros i Hin. apply elem_of_seqZ in Hin.
  apply Hno. lia.
Qed.

End IntraceMore.

Lemma intrace_closed_walk_witness :
  exists c,
    @intrace loop_mesh 256 0%nat (Fin 10) = Ok c /\
    (c = polyline_new (Fin 10) \/
     exists i start n,
       0 <= i < @subdiv_size loop_mesh 0%nat /\
       @crosses loop_mesh 0%nat i (Fin 10) = true /\
       start = (if @upleft loop_mesh 0%nat i then i else i + 65536) /\
       (1 <= n <= 256)%nat /\
       @proceeded loop_mesh 0%nat (Fin 10) start n = start /\
       c = {| elevation := elevation (polyline_new (Fin 10));
              endpoints := @finite_cepts loop_mesh 0%nat (Fin 10)
                             (@chain loop_mesh 0%nat (Fin 10) start n);
              isopen := isopen (polyline_new (Fin 10));
              curvy := curvy (polyline_new (Fin 10)) |}).
Proof.
  eexists. split; [vm_compute; reflexivity |].
  apply (@intrace_closed_walk loop_mesh 256 0%nat (Fin 10)).
  vm_compute. reflexivity.
Defined.

Lemma intrace_bounded_witness :
  (256 <= 256)%nat /\
  exists c, @intrace loop_mesh 256 0%nat (Fin 10) = Ok c /\
            (length (endpoints c) <= 256)%nat /\
            Forall (fun p => xy_isfinite p = true) (endpoints c) /\
            isopen c = isopen (polyline_new (Fin 10)) /\
            elevation c = Fin 10.
Proof.
  split; [lia |]. apply (@intrace_bounded loop_mesh 256 0%nat (Fin 10)). lia.
Defined.

Lemma intrace_no_crossing_witness :
  (forall i, 0 <= i < @subdiv_size loop_mesh 1%nat ->
             @crosses loop_mesh 1%nat i (Fin 10) = false) /\
  @intrace loop_mesh 0 1%nat (Fin 10) = Ok (polyline_new (Fin 10)).
Proof.
  assert (Hno : forall i, 0 <= i < @subdiv_size loop_mesh 1%nat ->
                          @crosses loop_mesh 1%nat i (Fin 10) = false)
    by (intros i _; reflexivity).
  split; [exact Hno |].
  apply (@intrace_no_crossing loop_mesh 0 1%nat (Fin 10) Hno).
Defined.

(** ** trace: the start, the frame and the size of the result *)

Section TraceMore.

Context `{Edges} `{EdgeLayout}.

Lemma deref_run (a : Z) (st : state) :
  deref a st
  = match edge_index a with
    | Some i => match edges st !! i with
                | Some e => Ok ((i, e), st)
                | None => Fault
                end
    | None => Fault
    end.
Proof.
  unfold deref, get_edges, mbind, M_bind, mret, M_ret, fault.
  destruct (edge_index a) as [i |]; [| reflexivity].
  destruct (edges st !! i); reflexivity.
Qed.

(** [trace] up to the test of line 153. *)
Lemma trace_start (fuel : nat) (edgep : Z) (elev : double) (st : state)
    (i : nat) (e : edge) :
  edge_index (Z.land edgep (-4)) = Some i ->
  edges st !! i = Some e ->
  trace fuel edgep elev st
  = match start_tri e edgep with
    | None => Fault
    | Some tri =>
        let st1 := {| edges := marked_edges (edges st) i e edgep;
                      triangles := triangles st; contours := contours st;
                      out := out st;
                      marklog := marklog st
                                 ++ [(edgep, edge_ismarked (Z.land edgep 3) e)] |} in
        let firstcept := contourcept tri (subdir tri edgep) elev in
        if xy_isnan firstcept then
          (say TracingStartsOnNan;; mret (polyline_new elev, None)) st1
        else
          (t ← trace_loop fuel elev firstcept edgep tri None firstcept
                 (polyline_insert firstcept (polyline_new elev));
           mret (match t_ntri t with
                 | None => polyline_open (t_ret t)
                 | Some _ => t_ret t
                 end, Some t)) st1
    end.
Proof.
  intros Hi He. unfold trace. cbv zeta.
  rewrite bind_run, deref_run, Hi, He. cbv beta iota.
  rewrite bind_run, mark_run, Hi, He. cbv beta iota.
  change (match tria e with
          | Some t => if negb (upleft t (subdir t edgep)) then trib e else tria e
          | None => trib e
          end) with (start_tri e edgep).
  destruct (start_tri e edgep) as [tri |]; [| reflexivity].
  cbn [nonnull]. rewrite ret_bind_run. cbv zeta.
  destruct (xy_isnan (contourcept tri (subdir tri edgep) elev)); reflexivity.
Qed.

(** X14.  A seed whose starting triangle does not exist must not be
    traced: [trace] dereferences the null pointer at line 152. This is the
    case of a crossing that is not upleft on an edge with no second
    triangle. *)
Theorem trace_null_start (fuel : nat) (edgep : Z) (elev : double) (st : state)
    (i : nat) (e : edge) :
  edge_index (Z.land edgep (-4)) = Some i ->
  edges st !! i = Some e ->
  trib e = None ->
  (tria e = None \/
   exists t, tria e = Some t /\ upleft t (subdir t edgep) = false) ->
  trace fuel edgep elev st = Fault.
Proof.
  intros Hi He Hb Ha. rewrite (trace_start _ _ _ _ i e Hi He).
  unfold start_tri.
  destruct Ha as [-> | (t & -> & ->)]; cbn [negb]; rewrite Hb; reflexivity.
Qed.

(** X15.  The first point of a trace is the crossing of the seed, seen
    from the starting triangle. When that crossing is NaN, [trace] marks
    the seed, reports it and returns the empty polyline, not opened, and
    nothing else happens; otherwise the polyline returned starts with the
    crossing, followed by finite points only. *)
Theorem trace_first_point (fuel : nat) (edgep : Z) (elev : double) (st : state)
    (i : nat) (e : edge) (tri : triangle) :
  edge_index (Z.land edgep (-4)) = Some i ->
  edges st !! i = Some e ->
  start_tri e edgep = Some tri ->
  let p := contourcept tri (subdir tri edgep) elev in
  if xy_isnan p then
    exists st',
      trace fuel edgep elev st = Ok ((polyline_new elev, None), st') /\
      out st' = out st ++ [TracingStartsOnNan] /\
      edges st' = <[i := edge_mark (Z.land edgep 3) e]> (edges st) /\
      contours st' = contours st
  else
    forall c g st',
      trace fuel edgep elev st = Ok ((c, g), st') ->
      is_Some g /\
      exists ps, endpoints c = p :: ps /\
                 Forall (fun q => xy_isfinite q = true) ps.
Proof.
  intros Hi He Htri p. subst p.
  rewrite (trace_start _ _ _ _ i e Hi He), Htri. cbv zeta.
  destruct (xy_isnan (contourcept tri (subdir tri edgep) elev)).
  - eexists. split; [reflexivity |]. cbn [out edges contours]. repeat split.
  - intros c g st' Hrun. apply bind_Ok in Hrun.
    destruct Hrun as (t & st2 & Hloop & Hret).
    injection Hret as <- <- _.
    match type of Hloop with
    | trace_loop _ _ ?fc _ _ _ ?lc ?ret ?s = _ =>
        pose proof (wp_Ok _ _ _ _ _
                      (trace_loop_spec True fuel elev fc edgep tri None lc ret s
                         (or_introl I))) as Hwp
    end.
    rewrite Hloop in Hwp. destruct Hwp as (_ & [_ (ps & Hps & Hfin)] & _).
    split; [eexists; reflexivity |]. exists ps. split; [| exact Hfin].
    cbn [polyline_insert polyline_new endpoints app] in Hps.
    destruct (t_ntri t); exact Hps.
Qed.

(** X16.  Every seed that [contstarts] returns has a starting triangle,
    provided the edges that count as interior have a triangle on both
    sides: the rule of line 81 keeps [trace] from starting in a null
    triangle. *)
Theorem seeds_have_start_triangle (elev : double) (st st' : state) (l : list Z) :
  (forall e, isinterior e = true -> is_Some (trib e)) ->
  contstarts elev st = Ok (l, st') ->
  Forall (fun ep => exists i e,
            edge_index (Z.land ep (-4)) = Some i /\
            edges st !! i = Some e /\
            is_Some (start_tri e ep)) l.
Proof.
  intros Hint. rewrite contstarts_run.
  destruct (existsb no_triangle (edges st)); [discriminate |].
  intros [= <- _]. unfold two_pass.
  assert (Hpass : forall P ep,
             In ep (flat_map (seeds_on coded_rule elev)
                      (List.filter P (indexed 0 (edges st)))) ->
             exists i e, edge_index (Z.land ep (-4)) = Some i /\
                         edges st !! i = Some e /\ is_Some (start_tri e ep)).
  { intros P ep Hin. apply in_flat_map in Hin. destruct Hin as ([i e] & Hie & Hin).
    apply filter_In in Hie. destruct Hie as [Hie _].
    apply indexed_In in Hie. destruct Hie as [_ He]. rewrite Nat.sub_0_r in He.
    exists i, e.
    unfold seeds_on in Hin. cbn [fst snd] in Hin.
    destruct (edge_tri e) as [tri |] eqn:Htri; [| destruct Hin].
    apply filter_In in Hin. destruct Hin as [Hin Hc].
    apply andb_true_iff in Hc. destruct Hc as [_ Hrule].
    assert (Hj : exists j, 0 <= j <= 2 /\ ep = j + edge_addr i).
    { unfold side_handles in Hin. simpl in Hin.
      destruct Hin as [<- | [<- | [<- | []]]];
        [exists 0 | exists 1 | exists 2]; (split; [lia | reflexivity]). }
    destruct Hj as (j & Hj & ->).
    destruct (side_handle (edges st) i j e ltac:(lia) He) as (Ha & _ & Hbit).
    split.
    { apply bit_cases in Hbit. destruct Hbit as (i' & e' & Hi' & _).
      rewrite Hi'. f_equal. apply edge_index_addr in Hi'.
      rewrite Ha in Hi'. symmetry. apply edge_addr_inj, Hi'. }
    split; [exact He |].
    unfold coded_rule in Hrule. unfold start_tri, edge_tri in *.
    destruct (tria e) as [t |] eqn:Hta.
    - injection Htri as <-.
      destruct (upleft t (subdir t (j + edge_addr i))); cbn [negb];
        [eexists; reflexivity |].
      rewrite orb_false_r in Hrule. apply Hint, Hrule.
    - rewrite Htri. eexists. reflexivity. }
  apply Forall_forall. intros ep Hin. apply list_elem_of_In in Hin.
  apply in_app_or in Hin. destruct Hin as [Hin | Hin]; eapply Hpass; exact Hin.
Qed.

End TraceMore.

Lemma trace_null_start_witness :
  @edge_index sample_layout (Z.land 4224 (-4)) = Some 2%nat /\
  @edges sample_mesh sample_state !! 2%nat
  = Some (@mkedge sample_mesh (Some 1%nat) None 0) /\
  @trace sample_mesh neighbours sample_layout 300 4224 (Fin 10) sample_state = Fault.
Proof.
  split; [reflexivity |]. split; [reflexivity |].
  apply (@trace_null_start sample_mesh neighbours sample_layout 300 4224 (Fin 10)
           sample_state 2%nat (@mkedge sample_mesh (Some 1%nat) None 0));
    [reflexivity | reflexivity | reflexivity |].
  right. exists 1%nat. split; reflexivity.
Defined.

Lemma trace_first_point_witness :
  (exists st',
     @trace nan_mesh neighbours sample_layout 300 4096 (Fin 10) nan_state
     = Ok ((polyline_new (Fin 10), None), st') /\
     @out nan_mesh st' = @out nan_mesh nan_state ++ [TracingStartsOnNan] /\
     @edges nan_mesh st'
     = <[0%nat := @edge_mark nan_mesh (Z.land 4096 3)
                    (@mkedge nan_mesh (Some 0%nat) None 0)]> (@edges nan_mesh nan_state) /\
     @contours nan_mesh st' = @contours nan_mesh nan_state) /\
  (forall c g st',
     @trace sample_mesh neighbours sample_layout 300 4096 (Fin 10) sample_state
     = Ok ((c, g), st') ->
     is_Some g /\
     exists ps, endpoints c = on_axis 0 :: ps /\
                Forall (fun q => xy_isfinite q = true) ps).
Proof.
  split.
  - exact (@trace_first_point nan_mesh neighbours sample_layout 300 4096 (Fin 10)
             nan_state 0%nat (@mkedge nan_mesh (Some 0%nat) None 0) 0%nat
             eq_refl eq_refl eq_refl).
  - exact (@trace_first_point sample_mesh neighbours sample_layout 300 4096 (Fin 10)
             sample_state 0%nat (@mkedge sample_mesh (Some 0%nat) None 0) 0%nat
             eq_refl eq_refl eq_refl).
Defined.

Lemma seeds_have_start_triangle_witness :
  (forall e, @isinterior sample_mesh neighbours e = true ->
             is_Some (@trib sample_mesh e)) /\
  Forall (fun ep => exists i e,
            @edge_index sample_layout (Z.land ep (-4)) = Some i /\
            @edges sample_mesh sample_state !! i = Some e /\
            is_Some (@start_tri sample_mesh e ep)) [4096; 4160].
Proof.
  assert (Hint : forall e, @isinterior sample_mesh neighbours e = true ->
                           is_Some (@trib sample_mesh e)).
  { intros [ta [tb |] c]; [eexists; reflexivity |].
    destruct ta; intros Hi; discriminate Hi. }
  split; [exact Hint |].
  apply (@seeds_have_start_triangle sample_mesh neighbours sample_layout (Fin 10)
           sample_state sample_state [4096; 4160] Hint).
  reflexivity.
Defined.

Section TraceFrame.

Context `{Edges} `{EdgeLayout}.

Lemma edge_kept_refl (e : edge) : edge_kept e e.
Proof. repeat split; auto. Qed.

Lemma edge_kept_trans (e1 e2 e3 : edge) :
  edge_kept e1 e2 -> edge_kept e2 e3 -> edge_kept e1 e3.
Proof.
  intros (Ha & Hb & Hc) (Ha' & Hb' & Hc').
  repeat split; try congruence. auto.
Qed.

Lemma edge_kept_mark (n : Z) (e : edge) : edge_kept e (edge_mark n e).
Proof.
  repeat split. intros m Hm. unfold edge_mark. simpl.
  rewrite Z.lor_spec, Hm. reflexivity.
Qed.

Lemma edges_kept_refl (es : list edge) : Forall2 edge_kept es es.
Proof.
  induction es; constructor; [apply edge_kept_refl | assumption].
Qed.

Lemma edges_kept_insert (es : list edge) (i : nat) (e e' : edge) :
  es !! i = Some e -> edge_kept e e' -> Forall2 edge_kept es (<[i := e']> es).
Proof.
  revert i. induction es as [| x es IH]; intros [| i] He Hk; try discriminate.
  - injection He as ->. constructor; [exact Hk | apply edges_kept_refl].
  - constructor; [apply edge_kept_refl | apply IH; assumption].
Qed.

Lemma only_marks_refl (st : state) : only_marks st st.
Proof.
  repeat split; [exists []; rewrite app_nil_r; reflexivity | apply edges_kept_refl].
Qed.

Lemma only_marks_trans (st1 st2 st3 : state) :
  only_marks st1 st2 -> only_marks st2 st3 -> only_marks st1 st3.
Proof.
  intros (Ht & Hc & (ms & Ho) & He) (Ht' & Hc' & (ms' & Ho') & He').
  refine (conj _ (conj _ (conj _ _))); try congruence.
  - exists (ms ++ ms'). rewrite Ho', Ho, app_assoc. reflexivity.
  - eapply Forall2_trans; [| exact He | exact He']. apply edge_kept_trans.
Qed.

Lemma wrote_only_marks (st st' : state) (msgs : list message) :
  wrote st msgs st' -> only_marks st st'.
Proof.
  intros (He & Ht & Hc & _ & Ho).
  refine (conj Ht (conj Hc (conj _ _))); [exists msgs; exact Ho |].
  rewrite He. apply edges_kept_refl.
Qed.

(** [mark] with all it leaves alone. *)
Lemma wp_mark_full (oof : Prop) (ep : Z) (st : state) Q :
  (forall i e st',
      edge_index (Z.land ep (-4)) = Some i ->
      edges st !! i = Some e ->
      edges st' = marked_edges (edges st) i e ep ->
      only_marks st st' ->
      Q tt st') ->
  wp True oof (mark ep) st Q.
Proof.
  intros HQ. unfold wp. rewrite mark_run.
  destruct (edge_index (Z.land ep (-4))) as [i |] eqn:Hi; [| exact I].
  destruct (edges st !! i) as [e |] eqn:He; [| exact I].
  apply (HQ i e); try assumption; try reflexivity.
  refine (conj eq_refl (conj eq_refl (conj _ _))); cbn [out edges].
  - exists []. rewrite app_nil_r. reflexivity.
  - apply edges_kept_insert with e; [exact He | apply edge_kept_mark].
Qed.

Lemma wp_and_Ok {A : Type} (flt oof : Prop) (m : M A) (st : state)
    (Q P : A -> state -> Prop) :
  wp flt oof m st Q ->
  (forall a st', m st = Ok (a, st') -> P a st') ->
  wp flt oof m st (fun a st' => Q a st' /\ P a st').
Proof.
  unfold wp. destruct (m st) as [[a st'] | |]; intros HQ HP; auto.
Qed.

(** One run of the body of the inner loop adds at most one point. *)
Lemma trace_step_points (tri : triangle) (elev : double) (edgep : Z)
    (w w' : walk) (st st' : state) :
  trace_step tri elev edgep w st = Ok (w', st') ->
  (length (endpoints (w_ret w')) <= S (length (endpoints (w_ret w))))%nat /\
  w_i w' = w_i w.
Proof.
  unfold trace_step, say, mbind, M_bind, mret, M_ret. cbv zeta.
  destruct (proceed tri (w_subedge w) elev >=? 0);
    [| intros [= <- _]; simpl; lia].
  destruct (proceed tri (w_subedge w) elev =? w_subedge w);
    (destruct (xy_isfinite (contourcept tri (proceed tri (w_subedge w) elev) elev));
     [| intros [= <- _]; simpl; lia]);
    (destruct (xy_ne (contourcept tri (proceed tri (w_subedge w) elev) elev)
                 (w_lastcept w));
     intros [= <- _]; simpl; rewrite ?length_app; simpl; lia).
Qed.

(** The inner loop adds at most as many points as the counter leaves it
    steps. *)
Lemma trace_proceed_points (fuel : nat) (tri : triangle) (elev : double)
    (edgep : Z) (w w' : walk) (st st' : state) :
  trace_proceed fuel tri elev edgep w st = Ok (w', st') ->
  0 <= w_i w < 256 ->
  Z.of_nat (length (endpoints (w_ret w')))
  <= Z.of_nat (length (endpoints (w_ret w))) + (256 - w_i w).
Proof.
  revert w st. induction fuel as [| fuel IH]; intros w st; [discriminate |].
  cbn [trace_proceed]. intros Hrun Hi.
  apply bind_Ok in Hrun. destruct Hrun as (w1 & st1 & Hstep & Hrest).
  apply trace_step_points in Hstep. destruct Hstep as [Hlen Hi1].
  destruct (w_subnext w1 >=? 0).
  - destruct (Z.ltb_spec (w_i w1 + 1) 256).
    + apply IH in Hrest; cbn [walk_incr w_i w_ret] in *; lia.
    + injection Hrest as <- _. cbn [walk_incr w_ret]. lia.
  - injection Hrest as <- _. lia.
Qed.

(** What the outer loop leaves alone and how many points it adds. *)
Lemma trace_loop_frame (fuel : nat) (elev : double) (firstcept : xy)
    (edgep : Z) (tri : triangle) (wasmarked : option bool)
    (lastcept : xy) (ret : polyline) (st : state) :
  wp True True
     (trace_loop fuel elev firstcept edgep tri wasmarked lastcept ret) st
     (fun t st' =>
        only_marks st st' /\
        (length (endpoints (t_ret t))
         <= length (endpoints ret) + 257 * (unmarked (edges st) + 1))%nat).
Proof.
  revert edgep tri wasmarked lastcept ret st.
  induction fuel as [| fuel IH]; intros edgep tri wasmarked lastcept ret st;
    [exact I |].
  cbn [trace_loop]. cbv zeta.
  apply wp_bind.
  eapply wp_mono.
  { apply wp_and_Ok.
    - apply (trace_proceed_spec True True); cbn [w_i walk_start]; [lia |].
      left. exact I.
    - intros w st1 Hrun. exact (trace_proceed_points _ _ _ _ _ _ _ _ Hrun). }
  intros w st1 [((ms1 & Hw1 & _) & _) Hpts].
  cbn [w_i w_ret walk_start] in Hpts. specialize (Hpts ltac:(lia)).
  pose proof (wrote_only_marks _ _ _ Hw1) as Hom1.
  destruct Hw1 as (He1 & _).
  apply wp_bind. eapply wp_mono; [apply edge_unchanged_spec |].
  intros _ st2 (ms2 & Hw2).
  pose proof (only_marks_trans _ _ _ Hom1 (wrote_only_marks _ _ _ Hw2)) as Hom2.
  destruct Hw2 as (He2 & _).
  destruct (edgepart tri (w_subedge w) =? 0).
  { apply wp_bind, wp_say. intros st3 Hw3. apply wp_ret. cbn [t_ret].
    split; [| lia].
    eapply only_marks_trans; [exact Hom2 | eapply wrote_only_marks, Hw3]. }
  apply wp_bind, wp_ismarked. intros was Hbit.
  apply wp_bind.
  apply (wp_mono True True _ st2
           (fun lr st' =>
              st' = st2 /\
              (length (endpoints (snd lr))
               <= length (endpoints (w_ret w)) + (if was then 0 else 1))%nat)).
  { destruct was; apply wp_ret; (split; [reflexivity |]); cbn [snd negb]; [lia |].
    destruct (xy_ne _ _ && xy_ne _ _ && xy_isfinite _);
      cbn [polyline_insert endpoints]; rewrite ?length_app; simpl; lia. }
  intros [lastcept' ret''] st2' [-> Hlen]. cbn [snd] in Hlen. cbv beta iota.
  apply wp_bind, wp_mark_full. intros i e st3 Hi He He3 Hom3.
  pose proof (only_marks_trans _ _ _ Hom2 Hom3) as Hom.
  apply wp_bind, wp_deref. intros i' e' _ _. cbv beta iota.
  destruct (othertri e' tri) as [ntri |].
  2:{ apply wp_ret. cbn [t_ret]. split; [exact Hom |]. destruct was; lia. }
  destruct was.
  { apply wp_ret. cbn [t_ret]. split; [exact Hom | lia]. }
  eapply wp_mono; [apply IH |].
  intros t st4 [Hom4 Hlen4]. split; [eapply only_marks_trans; eassumption |].
  pose proof (unmarked_mark (edges st2) i e (edgepart tri (w_subedge w)) He) as Hun.
  rewrite (bit_lookup _ _ _ _ _ Hbit Hi He) in Hun.
  rewrite <- He3, He2, He1 in Hun. lia.
Qed.

Lemma trace_frame (fuel : nat) (edgep : Z) (elev : double) (st : state) :
  wp True True (trace fuel edgep elev) st
     (fun r st' =>
        only_marks st st' /\
        (length (endpoints (fst r)) <= 1 + 257 * (unmarked (edges st) + 1))%nat).
Proof.
  unfold trace. cbv zeta.
  apply wp_bind, wp_deref. intros i0 e0 _ _. cbv beta iota.
  apply wp_bind, wp_mark_full. intros i e st1 Hi He He1 Hom1.
  apply wp_bind, wp_nonnull. intros tri _.
  destruct (xy_isnan (contourcept tri (subdir tri edgep) elev)).
  { apply wp_bind, wp_say. intros st2 Hw2. apply wp_ret. cbn [fst].
    split; [| simpl; lia].
    eapply only_marks_trans; [exact Hom1 | eapply wrote_only_marks, Hw2]. }
  apply wp_bind. eapply wp_mono; [apply trace_loop_frame |].
  intros t st2 [Hom2 Hlen]. apply wp_ret. cbn [fst].
  split; [eapply only_marks_trans; eassumption |].
  pose proof (unmarked_mark (edges st) i e edgep He) as Hun.
  rewrite <- He1 in Hun.
  cbn [polyline_insert polyline_new endpoints app length] in Hlen.
  assert (Hsame : length (endpoints (match t_ntri t with
                                     | Some _ => t_ret t
                                     | None => polyline_open (t_ret t)
                                     end)) = length (endpoints (t_ret t))).
  { destruct (t_ntri t); reflexivity. }
  rewrite Hsame. destruct (edge_ismarked (Z.land edgep 3) e); lia.
Qed.

(** X17.  [trace] changes mark bits and writes messages, and nothing else:
    the triangles, the contours collected so far, the number of edges and
    the triangles of every edge stay as they are, no mark bit is cleared,
    and the output is only added to. *)
Theorem trace_only_marks (fuel : nat) (edgep : Z) (elev : double)
    (st st' : state) (r : polyline * option traced) :
  trace fuel edgep elev st = Ok (r, st') ->
  only_marks st st'.
Proof.
  intros Hrun. pose proof (wp_Ok _ _ _ _ _ (trace_frame fuel edgep elev st)) as Hwp.
  rewrite Hrun in Hwp. apply Hwp.
Qed.

(** X18.  The polyline [trace] returns has at most [1 + 257 * (u + 1)]
    points, where [u] is the number of mark bits that are clear when it
    starts: every pass of the outer loop adds at most 256 points inside a
    triangle and one on the edge it reaches, and all but the last pass set
    a mark that was clear. *)
Theorem trace_point_bound (fuel : nat) (edgep : Z) (elev : double)
    (st st' : state) (r : polyline * option traced) :
  trace fuel edgep elev st = Ok (r, st') ->
  (length (endpoints (fst r)) <= 1 + 257 * (unmarked (edges st) + 1))%nat.
Proof.
  intros Hrun. pose proof (wp_Ok _ _ _ _ _ (trace_frame fuel edgep elev st)) as Hwp.
  rewrite Hrun in Hwp. apply Hwp.
Qed.

End TraceFrame.

Lemma trace_only_marks_witness :
  exists r st',
    @trace ring_mesh ring_neighbours sample_layout 300 4096 (Fin 10) ring_state
    = Ok (r, st') /\
    @only_marks ring_mesh ring_state st'.
Proof.
  destruct (@trace ring_mesh ring_neighbours sample_layout 300 4096 (Fin 10)
              ring_state) as [[r st'] | |] eqn:Hrun.
  - exists r, st'. split; [reflexivity |].
    exact (@trace_only_marks ring_mesh ring_neighbours sample_layout 300 4096
             (Fin 10) ring_state st' r Hrun).
  - apply (f_equal (fun x => match x with Ok _ => true | _ => false end)) in Hrun.
    vm_compute in Hrun. discriminate Hrun.
  - apply (f_equal (fun x => match x with Ok _ => true | _ => false end)) in Hrun.
    vm_compute in Hrun. discriminate Hrun.
Defined.

Lemma trace_point_bound_witness :
  exists r st',
    @trace sample_mesh neighbours sample_layout 300 4096 (Fin 10) sample_state
    = Ok (r, st') /\
    (length (endpoints (fst r))
     <= 1 + 257 * (@unmarked sample_mesh (@edges sample_mesh sample_state) + 1))%nat.
Proof.
  destruct (@trace sample_mesh neighbours sample_layout 300 4096 (Fin 10)
              sample_state) as [[r st'] | |] eqn:Hrun.
  - exists r, st'. split; [reflexivity |].
    exact (@trace_point_bound sample_mesh neighbours sample_layout 300 4096
             (Fin 10) sample_state st' r Hrun).
  - apply (f_equal (fun x => match x with Ok _ => true | _ => false end)) in Hrun.
    vm_compute in Hrun. discriminate Hrun.
  - apply (f_equal (fun x => match x with Ok _ => true | _ => false end)) in Hrun.
    vm_compute in Hrun. discriminate Hrun.
Defined.

(** ** roughcontours: the two collecting loops and the levels *)

Section Collecting.

Context `{Edges} `{EdgeLayout} `{Curves}.

Lemma collected_refl (st : state) : collected 0 st st.
Proof. exists []. rewrite app_nil_r. split; [reflexivity | simpl; lia]. Qed.

Lemma collected_trans (n m : nat) (st1 st2 st3 : state) :
  collected n st1 st2 -> collected m st2 st3 -> collected (n + m) st1 st3.
Proof.
  intros (new & Hc & Hn) (new' & Hc' & Hm). exists (new ++ new').
  rewrite Hc', Hc, app_assoc, length_app. split; [reflexivity | lia].
Qed.

Lemma collected_mono (n m : nat) (st st' : state) :
  (n <= m)%nat -> collected n st st' -> collected m st st'.
Proof. intros Hnm (new & Hc & Hn). exists new. split; [exact Hc | lia]. Qed.

(** The loop of lines 248-256 sets marks, writes messages and appends at
    most one contour for each seed. *)
Lemma boundary_traces_frame (fuel : nat) (cstarts : list Z) (elev : double)
    (st : state) :
  wp True True (boundary_traces fuel cstarts elev) st
     (fun _ st' =>
        triangles st' = triangles st /\
        Forall2 edge_kept (edges st) (edges st') /\
        collected (length cstarts) st st').
Proof.
  unfold boundary_traces. revert st.
  induction cstarts as [| ep cstarts IH]; intros st; cbn [for_each].
  { apply wp_ret. repeat split; [apply edges_kept_refl | apply collected_refl]. }
  apply wp_bind.
  apply (wp_mono True True _ st
           (fun _ st1 =>
              triangles st1 = triangles st /\
              Forall2 edge_kept (edges st) (edges st1) /\
              collected 1 st st1)).
  { apply wp_bind, wp_ismarked. intros was _.
    destruct was; cbn [negb].
    - apply wp_ret. repeat split; [apply edges_kept_refl |].
      apply (collected_mono 0); [lia | apply collected_refl].
    - apply wp_bind. eapply wp_mono; [apply trace_frame |].
      intros [ctour g] st1 [(Ht & Hc & _ & He) _]. cbv beta iota.
      unfold wp, push_contour. cbn [triangles edges contours].
      refine (conj Ht (conj He _)). exists [dedup ctour].
      rewrite Hc. split; [reflexivity | simpl; lia]. }
  intros [] st1 (Ht1 & He1 & Hc1).
  eapply wp_mono; [apply IH |].
  intros acc2 st2 (Ht2 & He2 & Hc2).
  refine (conj _ (conj _ _)).
  - congruence.
  - eapply Forall2_trans; [| exact He1 | exact He2]. apply edge_kept_trans.
  - change (length (ep :: cstarts)) with (1 + length cstarts)%nat.
    eapply collected_trans; eassumption.
Qed.

Lemma interior_loop (fuel : nat) (elev : double) (ts : list triangle) (st : state) :
  (256 <= fuel)%nat ->
  wp False False
     (for_each ts (fun tri _ =>
        ctour ← lift (intrace fuel tri elev);
        if negb (polyline_size ctour =? 0) then push_contour ctour else mret tt) tt) st
     (fun _ st' =>
        edges st' = edges st /\ triangles st' = triangles st /\
        out st' = out st /\ marklog st' = marklog st /\
        exists new, contours st' = contours st ++ new /\
                    (length new <= length ts)%nat /\
                    Forall (inner_contour elev) new).
Proof.
  intros Hfuel. revert st.
  induction ts as [| tri ts IH]; intros st; cbn [for_each].
  { apply wp_ret. repeat split. exists []. rewrite app_nil_r.
    repeat split; [simpl; lia | apply Forall_nil_2]. }
  apply wp_bind.
  destruct (intrace_spec fuel tri elev Hfuel) as (c & Hc & Hfin).
  destruct (intrace_shape fuel tri elev c Hc) as (_ & Hopen & Helev).
  apply (wp_mono False False _ st
           (fun _ st1 =>
              edges st1 = edges st /\ triangles st1 = triangles st /\
              out st1 = out st /\ marklog st1 = marklog st /\
              exists new, contours st1 = contours st ++ new /\
                          (length new <= 1)%nat /\
                          Forall (inner_contour elev) new)).
  { unfold wp. rewrite bind_run. unfold lift. rewrite Hc.
    unfold polyline_size. rewrite Hopen. cbn [polyline_new isopen].
    destruct (endpoints c) as [| p ps] eqn:Hps; cbn [length].
    - change (Z.of_nat 0 =? 0) with true. cbn [negb].
      rewrite ret_run. repeat split. exists []. rewrite app_nil_r.
      repeat split; [simpl; lia | apply Forall_nil_2].
    - change (Z.of_nat (S (length ps)) =? 0) with false. cbn [negb].
      unfold push_contour.
      cbn [edges triangles out marklog contours].
      repeat split. exists [c]. repeat split; [simpl; lia |].
      apply Forall_cons_2; [| apply Forall_nil_2].
      unfold inner_contour. rewrite Hps.
      refine (conj _ (conj Hfin (conj Hopen Helev))). discriminate. }
  intros [] st1 (He1 & Ht1 & Ho1 & Hl1 & new1 & Hc1 & Hn1 & Hin1).
  eapply wp_mono; [apply IH |].
  intros acc2 st2 (He2 & Ht2 & Ho2 & Hl2 & new2 & Hc2 & Hn2 & Hin2).
  repeat split; try congruence.
  exists (new1 ++ new2). rewrite Hc2, Hc1, app_assoc, length_app.
  repeat split; [simpl; lia | apply Forall_app; split; assumption].
Qed.

Lemma interior_traces_spec (fuel : nat) (elev : double) (st : state) :
  (256 <= fuel)%nat ->
  wp False False (interior_traces fuel elev) st
     (fun _ st' =>
        edges st' = edges st /\ triangles st' = triangles st /\
        out st' = out st /\ marklog st' = marklog st /\
        exists new, contours st' = contours st ++ new /\
                    (length new <= length (triangles st))%nat /\
                    Forall (inner_contour elev) new).
Proof.
  intros Hfuel. unfold interior_traces.
  apply wp_bind. unfold wp at 1, get_triangles.
  apply interior_loop, Hfuel.
Qed.

(** X19.  The loop of lines 257-265 returns, given fuel for one walk, and
    does nothing but append contours: at most one for each triangle, each
    with at least one point, all points finite, closed and at the
    elevation of the level. *)
Theorem interior_traces_appends (fuel : nat) (elev : double) (st : state) :
  (256 <= fuel)%nat ->
  exists st' new,
    interior_traces fuel elev st = Ok (tt, st') /\
    edges st' = edges st /\ triangles st' = triangles st /\ out st' = out st /\
    contours st' = contours st ++ new /\
    (length new <= length (triangles st))%nat /\
    Forall (inner_contour elev) new.
Proof.
  intros Hfuel.
  pose proof (wp_Ok _ _ _ _ _ (interior_traces_spec fuel elev st Hfuel)) as Hwp.
  destruct (interior_traces fuel elev st) as [[[] st'] | |]; try contradiction.
  destruct Hwp as (He & Ht & Ho & _ & new & Hc & Hn & Hin).
  exists st', new. repeat split; assumption.
Qed.

(** X20.  The loop of lines 248-256 changes mark bits, writes messages and
    appends contours, at most one for each seed; it leaves the contours
    collected before, the triangles and the triangles of every edge as
    they are and clears no mark. *)
Theorem boundary_traces_appends (fuel : nat) (cstarts : list Z) (elev : double)
    (st st' : state) :
  boundary_traces fuel cstarts elev st = Ok (tt, st') ->
  triangles st' = triangles st /\
  Forall2 edge_kept (edges st) (edges st') /\
  collected (length cstarts) st st'.
Proof.
  intros Hrun.
  pose proof (wp_Ok _ _ _ _ _ (boundary_traces_frame fuel cstarts elev st)) as Hwp.
  rewrite Hrun in Hwp. exact Hwp.
Qed.

Lemma unmarked_cleared (es : list edge) :
  unmarked (edge_clearmarks <$> es) = (4 * length es)%nat.
Proof.
  unfold unmarked. induction es as [| e es IH]; [reflexivity |].
  cbn [fmap list_fmap sum_list length]. fold (fmap edge_clearmarks es).
  fold (fmap edge_unmarked (edge_clearmarks <$> es)).
  rewrite IH. unfold edge_unmarked, edge_ismarked, edge_clearmarks. simpl. lia.
Qed.

Lemma kept_same_topology (es es' : list edge) :
  Forall2 edge_kept es es' -> same_topology es es'.
Proof.
  unfold same_topology. intros Hk.
  eapply Forall2_impl; [exact Hk |]. intros e e' (Ha & Hb & _). split; assumption.
Qed.

Lemma cleared_same_topology (es : list edge) :
  same_topology es (edge_clearmarks <$> es).
Proof.
  unfold same_topology. induction es; constructor; [split; reflexivity | assumption].
Qed.

Lemma same_topology_trans (es1 es2 es3 : list edge) :
  same_topology es1 es2 -> same_topology es2 es3 -> same_topology es1 es3.
Proof.
  unfold same_topology. intros H12 H23.
  eapply Forall2_trans; [| exact H12 | exact H23].
  intros x y z [? ?] [? ?]. split; congruence.
Qed.

(** One level, with its fuel. *)
Lemma roughcontours_level_spec (fuel : nat) (elev : double) (st : state) :
  (4 * length (edges st) + 256 <= fuel)%nat ->
  wp True False (roughcontours_level fuel elev) st
     (fun _ st' =>
        triangles st' = triangles st /\
        same_topology (edges st) (edges st') /\
        collected (length (edges st) * 3 + length (triangles st)) st st').
Proof.
  intros Hfuel. unfold roughcontours_level, wp.
  rewrite bind_run, contstarts_run.
  destruct (existsb no_triangle (edges st)) eqn:Hno; [exact I |].
  rewrite bind_run.
  change (clearmarks st) with
    (Ok (tt, {| edges := edge_clearmarks <$> edges st; triangles := triangles st;
                contours := contours st; out := out st; marklog := [] |})).
  cbv beta iota. rewrite bind_run.
  set (st2 := {| edges := edge_clearmarks <$> edges st; triangles := triangles st;
                 contours := contours st; out := out st; marklog := [] |}).
  set (cstarts := two_pass coded_rule elev (edges st)).
  assert (Hseeds : (length cstarts <= length (edges st) * 3)%nat).
  { subst cstarts. unfold two_pass.
    assert (Hpass : forall P n es,
               (length (flat_map (seeds_on coded_rule elev)
                          (List.filter P (indexed n es)))
                <= 3 * length (List.filter P (indexed n es)))%nat).
    { intros P n es. induction (List.filter P (indexed n es)) as [| ie l IH];
        [simpl; lia |].
      cbn [flat_map length]. rewrite length_app.
      assert (length (seeds_on coded_rule elev ie) <= 3)%nat; [| lia].
      unfold seeds_on. destruct (edge_tri (snd ie)); [| simpl; lia].
      etransitivity; [apply List.filter_length_le |]. reflexivity. }
    rewrite length_app.
    pose proof (Hpass (fun ie => negb (isinterior (snd ie))) 0%nat (edges st)).
    pose proof (Hpass (fun ie => isinterior (snd ie)) 0%nat (edges st)).
    pose proof (List.filter_length (fun ie : nat * edge => isinterior (snd ie))
                  (indexed 0 (edges st))) as Hsplit.
    assert (Hlen : forall n (es : list edge), length (indexed n es) = length es).
    { intros n es. revert n. induction es; intros n; simpl; [| rewrite IHes]; reflexivity. }
    rewrite Hlen in Hsplit. lia. }
  assert (Hfuel2 : (unmarked (edges st2) + 256 <= fuel)%nat).
  { subst st2. cbn [edges]. rewrite unmarked_cleared. lia. }
  pose proof (wp_Ok _ _ _ _ _
                (wp_conj _ _ _ _ _ _ _ _
                   (boundary_traces_spec False fuel cstarts elev st2 (or_intror Hfuel2))
                   (boundary_traces_frame fuel cstarts elev st2))) as Hb.
  destruct (boundary_traces fuel cstarts elev st2) as [[[] st3] | |];
    [| exact I | exact Hb].
  destruct Hb as [_ (Ht3 & He3 & Hc3)].
  pose proof (wp_Ok _ _ _ _ _ (interior_traces_spec fuel elev st3 ltac:(lia))) as Hi.
  destruct (interior_traces fuel elev st3) as [[[] st4] | |]; try contradiction.
  destruct Hi as (He4 & Ht4 & _ & _ & new & Hc4 & Hn4).
  refine (conj _ (conj _ _)).
  - rewrite Ht4, Ht3. reflexivity.
  - rewrite He4. eapply same_topology_trans; [apply cleared_same_topology |].
    apply kept_same_topology. exact He3.
  - eapply collected_trans.
    + eapply collected_mono; [exact Hseeds | exact Hc3].
    + exists new. rewrite Ht3 in Hn4. split; [exact Hc4 | exact (proj1 Hn4)].
Qed.

End Collecting.

Section Levels.

Context `{Edges} `{EdgeLayout} `{Curves} `{!Extent}.

Lemma to_int_range (d : double) (z : Z) :
  Dbl.to_int d = Some z -> -2147483648 <= z <= 2147483647.
Proof.
  unfold Dbl.to_int. destruct d as [| s | q]; try discriminate. cbv zeta.
  destruct (Z.leb_spec (-2147483648) (Qnum q ÷ Z.pos (Qden q)));
    destruct (Z.leb_spec (Qnum q ÷ Z.pos (Qden q)) 2147483647);
    cbn [andb]; try discriminate.
  intros [= <-]. lia.
Qed.

Lemma same_topology_length (es es' : list edge) :
  same_topology es es' -> length es' = length es.
Proof. intros Ht. symmetry. eapply Forall2_length, Ht. Qed.

Lemma same_topology_refl (es : list edge) : same_topology es es.
Proof. unfold same_topology. induction es; constructor; auto. Qed.

(** The levels from [i] to [last], one after the other. *)
Lemma roughcontours_levels_run (lfuel fuel : nat) (conterval : double) (top : Q)
    (i : Z) (st : state) :
  Qfloor top < 2147483647 ->
  Qfloor top - i + 1 <= Z.of_nat lfuel ->
  roughcontours_levels lfuel fuel conterval (Fin top) i st
  = for_each (seqZ i (Qfloor top - i + 1))
      (fun j _ => roughcontours_level fuel (Ieee.mul (of_int j) conterval)) tt st.
Proof.
  intros Htop. revert i st.
  assert (Hle : forall j, dbl_le (of_int j) (Fin top) = true <-> j <= Qfloor top).
  { intros j. unfold dbl_le, of_int. rewrite negb_true_iff, gt_Fin_false.
    split.
    - intros Hj. apply Qfloor_resp_le in Hj. rewrite Qfloor_Z in Hj. exact Hj.
    - intros Hj. apply Qle_trans with (inject_Z (Qfloor top)); [| apply Qfloor_le].
      rewrite <- Zle_Qle. exact Hj. }
  induction lfuel as [| lfuel IH]; intros i st Hfuel; cbn [roughcontours_levels];
    destruct (dbl_le (of_int i) (Fin top)) eqn:Hi.
  - apply Hle in Hi. lia.
  - assert (Hgt : ~ i <= Qfloor top) by (rewrite <- Hle; congruence).
    rewrite seqZ_nil by lia. reflexivity.
  - apply Hle in Hi.
    rewrite seqZ_cons by lia. rewrite for_each_cons, !bind_run.
    destruct (roughcontours_level fuel (Ieee.mul (of_int i) conterval) st)
      as [[[] st1] | |]; [| reflexivity ..].
    destruct (Z.ltb_spec i 2147483647); [| lia].
    replace (Z.succ i) with (i + 1) by lia.
    replace (Z.pred (Qfloor top - i + 1)) with (Qfloor top - (i + 1) + 1) by lia.
    apply IH. lia.
  - assert (Hgt : ~ i <= Qfloor top) by (rewrite <- Hle; congruence).
    rewrite seqZ_nil by lia. reflexivity.
Qed.

(** A run of levels does not run out of fuel and keeps the mesh. *)
Lemma levels_spec (fuel : nat) (conterval : double) (l : list Z) (st : state) :
  (4 * length (edges st) + 256 <= fuel)%nat ->
  wp True False
     (for_each l
        (fun j _ => roughcontours_level fuel (Ieee.mul (of_int j) conterval)) tt) st
     (fun _ st' =>
        triangles st' = triangles st /\ same_topology (edges st) (edges st')).
Proof.
  revert st. induction l as [| j l IH]; intros st Hfuel; cbn [for_each].
  { apply wp_ret. split; [reflexivity | apply same_topology_refl]. }
  apply wp_bind. eapply wp_mono; [apply roughcontours_level_spec, Hfuel |].
  intros [] st1 (Ht1 & He1 & _).
  eapply wp_mono.
  { apply IH. rewrite (same_topology_length _ _ He1). exact Hfuel. }
  intros [] st2 (Ht2 & He2). split; [congruence |].
  eapply same_topology_trans; eassumption.
Qed.

(** X21.  [roughcontours] runs the levels from [floor(lo/conterval)] to
    [ceil(hi/conterval)], each once and in rising order, at the elevation
    [i*conterval]; both quotients and the product are rounded as the
    machine rounds them.  This holds when the first quotient fits an
    [int] and the second is a number below the largest [int]: otherwise
    the conversion or the increment of [i] is undefined.  With fuel for
    the marks of the mesh no level runs out of fuel, and when the run
    returns the triangles and the triangles of every edge are as
    before. *)
Theorem roughcontours_runs_levels (lfuel fuel : nat) (conterval lo hi : double)
    (first : Z) (top : Q) (st st0 : state) :
  put_contours [] st = Ok (tt, st0) ->
  lohi st0 !! 0%nat = Some lo ->
  lohi st0 !! 1%nat = Some hi ->
  Dbl.to_int (dbl_floor (Ieee.div lo conterval)) = Some first ->
  dbl_ceil (Ieee.div hi conterval) = Fin top ->
  Qfloor top < 2147483647 ->
  Qfloor top - first + 1 <= Z.of_nat lfuel ->
  roughcontours lfuel fuel conterval st
  = for_each (seqZ first (Qfloor top - first + 1))
      (fun i _ => roughcontours_level fuel (Ieee.mul (of_int i) conterval)) tt st0 /\
  ((4 * length (edges st) + 256 <= fuel)%nat ->
   roughcontours lfuel fuel conterval st <> OutOfFuel /\
   forall st', roughcontours lfuel fuel conterval st = Ok (tt, st') ->
               triangles st' = triangles st /\
               same_topology (edges st) (edges st')).
Proof.
  intros Hput Hlo Hhi Hfirst Htop Hlast Hfuel.
  assert (Hrun : roughcontours lfuel fuel conterval st
                 = for_each (seqZ first (Qfloor top - first + 1))
                     (fun i _ => roughcontours_level fuel
                                   (Ieee.mul (of_int i) conterval)) tt st0).
  { unfold roughcontours. rewrite bind_run, Hput. cbv beta iota.
    rewrite bind_run. unfold get_lohi. cbv beta iota.
    rewrite bind_run. unfold at_index. rewrite Hlo, ret_run. cbv beta iota.
    rewrite bind_run. unfold lift. rewrite Hfirst. cbv beta iota.
    rewrite bind_run, Hhi, ret_run. cbv beta iota. rewrite Htop.
    apply roughcontours_levels_run; assumption. }
  split; [exact Hrun |].
  intros Hf. rewrite Hrun.
  injection Hput as <-.
  match goal with
  | |- context [for_each ?l ?body tt ?s] =>
      pose proof (wp_Ok _ _ _ _ _ (levels_spec fuel conterval l s Hf)) as Hwp;
      destruct (for_each l body tt s) as [[[] st1] | |]
  end.
  - split; [discriminate |]. intros st' [= <-]. exact Hwp.
  - split; [discriminate | discriminate].
  - contradiction.
Qed.

(** X22.  A contour interval that is zero or not a number makes
    [roughcontours] undefined, whatever the mesh: the quotient of line 244
    is then infinite or not a number and cannot be converted to [int]. *)
Theorem roughcontours_bad_interval (lfuel fuel : nat) (conterval : double)
    (st : state) :
  conterval = NaN \/ (exists c, conterval = Fin c /\ (c == 0)%Q) ->
  roughcontours lfuel fuel conterval st = Fault.
Proof.
  intros Hbad. unfold roughcontours.
  rewrite bind_run. unfold put_contours. cbv beta iota.
  rewrite bind_run. unfold get_lohi. cbv beta iota.
  rewrite bind_run. unfold at_index.
  destruct (lohi _ !! 0%nat) as [lo |]; [| reflexivity].
  rewrite ret_run. cbv beta iota. rewrite bind_run. unfold lift.
  assert (Hnone : Dbl.to_int (dbl_floor (Ieee.div lo conterval)) = None).
  { unfold Ieee.div. destruct Hbad as [-> | (c & -> & Hc)].
    - destruct lo; reflexivity.
    - assert (Hz : Dbl.qzero c = true).
      { unfold Dbl.qzero. unfold Qeq in Hc. simpl in Hc. apply Z.eqb_eq. lia. }
      destruct lo as [| s | q]; cbn [Dbl.div]; rewrite ?Hz; try reflexivity.
      destruct (Dbl.qzero q); reflexivity. }
  rewrite Hnone. reflexivity.
Qed.

End Levels.

Lemma boundary_traces_appends_witness :
  exists st',
    @boundary_traces sample_mesh neighbours sample_layout no_curves 300
      [4096; 4160] (Fin 10) sample_state = Ok (tt, st') /\
    @triangles sample_mesh st' = @triangles sample_mesh sample_state /\
    Forall2 (@edge_kept sample_mesh) (@edges sample_mesh sample_state)
            (@edges sample_mesh st') /\
    @collected sample_mesh (length [4096; 4160]) sample_state st'.
Proof.
  destruct (@boundary_traces sample_mesh neighbours sample_layout no_curves 300
              [4096; 4160] (Fin 10) sample_state) as [[[] st'] | |] eqn:Hrun.
  - exists st'. split; [reflexivity |].
    exact (@boundary_traces_appends sample_mesh neighbours sample_layout no_curves
             300 [4096; 4160] (Fin 10) sample_state st' Hrun).
  - apply (f_equal (fun x => match x with Ok _ => true | _ => false end)) in Hrun.
    vm_compute in Hrun. discriminate Hrun.
  - apply (f_equal (fun x => match x with Ok _ => true | _ => false end)) in Hrun.
    vm_compute in Hrun. discriminate Hrun.
Defined.

Lemma interior_traces_appends_witness :
  (256 <= 256)%nat /\
  exists st' new,
    @interior_traces loop_mesh 256 (Fin 10)
      (@mkstate loop_mesh [] [0%nat; 1%nat] [] [] []) = Ok (tt, st') /\
    @edges loop_mesh st' = [] /\
    @triangles loop_mesh st' = [0%nat; 1%nat] /\
    @out loop_mesh st' = [] /\
    @contours loop_mesh st' = [] ++ new /\
    (length new <= 2)%nat /\
    Forall (inner_contour (Fin 10)) new.
Proof.
  split; [lia |].
  apply (@interior_traces_appends loop_mesh 256 (Fin 10)
           (@mkstate loop_mesh [] [0%nat; 1%nat] [] [] [])).
  lia.
Defined.

Lemma roughcontours_runs_levels_witness :
  Qfloor 3 < 2147483647 /\
  Qfloor 3 - 0 + 1 <= Z.of_nat 4 /\
  @roughcontours sample_mesh neighbours sample_layout no_curves sample_extent
    4 300 (Fin 10) sample_state
  = @for_each sample_mesh Z unit (seqZ 0 (Qfloor 3 - 0 + 1))
      (fun i _ => @roughcontours_level sample_mesh neighbours sample_layout no_curves
                    300 (Ieee.mul (of_int i) (Fin 10))) tt sample_state /\
  ((4 * length (@edges sample_mesh sample_state) + 256 <= 300)%nat ->
   @roughcontours sample_mesh neighbours sample_layout no_curves sample_extent
     4 300 (Fin 10) sample_state <> OutOfFuel /\
   forall st',
     @roughcontours sample_mesh neighbours sample_layout no_curves sample_extent
       4 300 (Fin 10) sample_state = Ok (tt, st') ->
     @triangles sample_mesh st' = @triangles sample_mesh sample_state /\
     @same_topology sample_mesh (@edges sample_mesh sample_state)
       (@edges sample_mesh st')).
Proof.
  assert (Hl : Qfloor 3 < 2147483647) by reflexivity.
  assert (Hf : Qfloor 3 - 0 + 1 <= Z.of_nat 4) by (vm_compute; discriminate).
  split; [exact Hl |]. split; [exact Hf |].
  exact (@roughcontours_runs_levels sample_mesh neighbours sample_layout no_curves
           sample_extent 4 300 (Fin 10) (Fin 0) (Fin 25) 0 3 sample_state sample_state
           eq_refl eq_refl eq_refl eq_refl eq_refl Hl Hf).
Defined.

Lemma roughcontours_bad_interval_witness :
  (Fin 0 = NaN \/ exists c, Fin 0 = Fin c /\ (c == 0)%Q) /\
  @roughcontours sample_mesh neighbours sample_layout no_curves sample_extent
    10 300 (Fin 0) sample_state = Fault.
Proof.
  assert (Hbad : Fin 0 = NaN \/ exists c, Fin 0 = Fin c /\ (c == 0)%Q).
  { right. exists 0%Q. split; reflexivity. }
  split; [exact Hbad |].
  exact (@roughcontours_bad_interval sample_mesh neighbours sample_layout no_curves
           sample_extent 10 300 (Fin 0) sample_state Hbad).
Defined.

(** ** smoothcontours: what the refinement keeps *)

Section SmoothingMore.

Context `{Surface} `{SegmentConsts}.

Local Open Scope Q_scope.

(** The factor of line 307 is a positive number when the pass started
    with a contour that has points. *)
Lemma wide_positive (k sz origsz : Z) :
  (0 < origsz)%Z -> exists w, wide k sz origsz = Fin w /\ 0 < w.
Proof.
  intros Ho. unfold wide.
  destruct (Z.gtb_spec sz (2 * origsz)) as [Hgt | Hle].
  - assert (Hnz : Dbl.qzero (inject_Z origsz) = false).
    { unfold Dbl.qzero. simpl. apply Z.eqb_neq. lia. }
    cbn [Dbl.div]. rewrite Hnz.
    assert (Hq : 2 < inject_Z sz / inject_Z origsz).
    { apply Qlt_shift_div_l.
      - change 0 with (inject_Z 0). rewrite <- Zlt_Qlt. exact Ho.
      - change 2 with (inject_Z 2). rewrite <- inject_Z_mult, <- Zlt_Qlt. lia. }
    destruct (k =? 0)%Z; cbn [negb Dbl.mul];
      (eexists; split; [reflexivity | nra]).
  - destruct (k =? 0)%Z; cbn [negb Dbl.mul];
      (eexists; split; [reflexivity | reflexivity]).
Qed.

(** With a tolerance that is not negative, [splitpoint] is defined on
    finite clamp values and returns 0 or a fraction of the table. *)
Lemma splitpoint_nonneg_tolerance (l r t : Q) :
  0 <= t ->
  exists sp, splitpoint (Fin l) (Fin r) (Fin t) = Some sp /\
             (sp == 0 \/ 0.2113 <= sp <= 0.7887).
Proof.
  intros Ht.
  destruct (out_of_tolerance (Fin l) (Fin r) (Fin t)) eqn:Hout.
  - destruct (out_of_tolerance_branch_nonneg l r t Ht Hout)
      as (_ & i & v & Hi & _ & Hv & Hv1).
    rewrite (splitpoint_entry l r t i v Hout Hi Hv).
    eexists. split; [reflexivity |]. right.
    destruct (whichbig (Fin l) (Fin r)); lra.
  - exists 0. split; [| left; reflexivity].
    unfold splitpoint. simpl. rewrite Hout. reflexivity.
Qed.

(** X23.  With a positive contour interval, a pass that started on a
    contour with points, and finite deviations of the two sample points,
    lines 315-326 never reach an undefined case of [splitpoint], with
    either of the two tolerances, and the split fraction is 0 or lies in
    [0.2113, 0.7887]. *)
Theorem probe_defined (conterval : Q) (k sz origsz : Z) (sarc : spiralarc)
    (lpt rpt : xyz) (st : state) :
  0 < conterval ->
  (0 < origsz)%Z ->
  Dbl.isfinite (mesh_deviation lpt) = true ->
  Dbl.isfinite (mesh_deviation rpt) = true ->
  (forall t, Dbl.isfinite (tri_deviation t lpt) = true /\
             Dbl.isfinite (tri_deviation t rpt) = true) ->
  exists sp st',
    probe (Fin conterval) (wide k sz origsz) sarc lpt rpt st = Ok (sp, st') /\
    (sp == 0 \/ 0.2113 <= sp <= 0.7887).
Proof.
  intros Hc Ho Hml Hmr Htri.
  destruct (wide_positive k sz origsz Ho) as (w & Hw & Hw0).
  unfold probe. cbv zeta. rewrite Hw. cbn [Dbl.mul].
  destruct (findt (arc_middle sarc)) as [t |].
  - destruct (Htri t) as [Htl Htr].
    destruct (mesh_deviation lpt) as [| | ml]; try discriminate.
    destruct (mesh_deviation rpt) as [| | mr]; try discriminate.
    destruct (tri_deviation t lpt) as [| | tl]; try discriminate.
    destruct (tri_deviation t rpt) as [| | tr]; try discriminate.
    destruct (splitpoint_nonneg_tolerance ml mr 0 ltac:(lra)) as (sp0 & Hsp0 & Hr0).
    destruct (splitpoint_nonneg_tolerance tl tr (conterval * w) ltac:(nra))
      as (sp1 & Hsp1 & Hr1).
    destruct (_ && _ && negb _).
    + rewrite Hsp0. exists sp0, st. split; [reflexivity | exact Hr0].
    + rewrite Hsp1. exists sp1, st. split; [reflexivity | exact Hr1].
  - eexists _, _. split; [reflexivity |]. right. lra.
Qed.

Lemma refined_refl (c : polyline) : refined c c.
Proof. repeat split. reflexivity. Qed.

Lemma refined_trans (c1 c2 c3 : polyline) :
  refined c1 c2 -> refined c2 c3 -> refined c1 c3.
Proof.
  intros (He & Ho & Hs) (He' & Ho' & Hs').
  repeat split; try congruence. etransitivity; eassumption.
Qed.

Lemma refined_insert_at (p : xy) (pos : Z) (c : polyline) :
  refined c (polyline_insert_at p pos c).
Proof.
  repeat split. cbn [polyline_insert_at endpoints].
  rewrite <- (take_drop (Z.to_nat pos) (endpoints c)) at 1.
  apply sublist_app; [reflexivity |]. apply sublist_cons. reflexivity.
Qed.

Lemma refined_smooth (c : polyline) : refined c (polyline_smooth c).
Proof. repeat split. reflexivity. Qed.

Lemma insert_at_size (p : xy) (pos : Z) (c : polyline) :
  (0 < polyline_size c)%Z ->
  polyline_size (polyline_insert_at p pos c) = (polyline_size c + 1)%Z.
Proof.
  unfold polyline_size. cbn [polyline_insert_at endpoints isopen].
  rewrite length_app. cbn [length]. rewrite length_take, length_drop.
  destruct (isopen c); lia.
Qed.

Lemma probe_wrote (conterval wd : double) (sarc : spiralarc) (lpt rpt : xyz)
    (st : state) :
  wp True True (probe conterval wd sarc lpt rpt) st
     (fun _ st' => exists msgs, wrote st msgs st').
Proof.
  unfold probe. cbv zeta.
  destruct (findt (arc_middle sarc)) as [t |].
  - match goal with
    | |- wp _ _ (match ?sp with _ => _ end) _ _ => destruct sp
    end; [| exact I].
    apply wp_ret. exists []. apply wrote_refl.
  - apply wp_bind, wp_say. intros st1 Hw. apply wp_ret. eexists. exact Hw.
Qed.

(** One run of the body of the loop of line 304. *)
Lemma visit_spec (conterval : double) (k origsz : Z) (v : sweep) (st : state) :
  wp True True (visit conterval k origsz v) st
     (fun v' st' => (exists msgs, wrote st msgs st') /\ visit_post conterval v v').
Proof.
  assert (Hsame : forall st', (exists msgs, wrote st msgs st') ->
            (exists msgs, wrote st msgs st') /\
            visit_post conterval v
              {| sw_n := visited v; sw_sz := sw_sz v; sw_j := sw_j v; sw_c := sw_c v |}).
  { intros st' Hw. split; [exact Hw |]. split; [reflexivity |].
    left. repeat split. }
  assert (Hnone : exists msgs, wrote st msgs st) by (exists []; apply wrote_refl).
  unfold visit. cbv zeta. fold (visited v).
  destruct (xyz_isfinite _ && xyz_isfinite _); [| apply wp_ret, Hsame, Hnone].
  apply wp_bind.
  apply (wp_mono True True _ st (fun _ st1 => exists msgs, wrote st msgs st1)).
  { destruct (getdelta _ =? 883276262)%Z.
    - apply wp_say. intros st1 Hw. eexists. exact Hw.
    - apply wp_ret. exact Hnone. }
  intros _ st1 (ms1 & Hw1).
  apply wp_bind. eapply wp_mono; [apply probe_wrote |].
  intros sp st2 (ms2 & Hw2).
  assert (Hw : exists msgs, wrote st msgs st2).
  { eexists. eapply wrote_trans; eassumption. }
  destruct (negb (Qeq_bool sp 0)); cbn [andb]; [| apply wp_ret, Hsame, Hw].
  destruct (Dbl.gt (sarc_length (getspiralarc (sw_c v) (visited v))) conterval)
    eqn:Hlong; [| apply wp_ret, Hsame, Hw].
  apply wp_bind, wp_nonnull. intros t _.
  match goal with
  | |- wp _ _ (if xyz_isfinite ?newpt then _ else _) _ _ =>
      destruct (xyz_isfinite newpt) eqn:Hfin; [| apply wp_ret, Hsame, Hw];
      set (pt := newpt) in *
  end.
  apply wp_ret. split; [exact Hw |]. split; [reflexivity |].
  right. exists (xy_of pt). cbn [sw_c sw_sz sw_j].
  repeat split; try assumption.
  unfold xyz_isfinite in Hfin. unfold xy_isfinite, xy_of. cbn [east north].
  apply andb_true_iff in Hfin. destruct Hfin as [Hfin _]. exact Hfin.
Qed.

Lemma visit_post_refined (conterval : double) (v v' : sweep) :
  visit_post conterval v v' ->
  refined (sw_c v) (sw_c v') /\
  curvy (sw_c v') = curvy (sw_c v).
Proof.
  intros [_ [(Hc & Hsz & _) | (p & _ & Hc & Hsz & _)]]; rewrite Hc.
  - split; [apply refined_refl | reflexivity].
  - split; [apply refined_insert_at | reflexivity].
Qed.

(** The loop of line 304. *)
Lemma refine_spec (fuel : nat) (conterval : double) (k origsz : Z)
    (v : sweep) (st : state) :
  wp True True (refine fuel conterval k origsz v) st
     (fun v' st' =>
        (exists msgs, wrote st msgs st') /\
        refined (sw_c v) (sw_c v') /\
        curvy (sw_c v') = curvy (sw_c v) /\
        (sw_sz v' <= sw_j v')%Z).
Proof.
  revert v st. induction fuel as [| fuel IH]; intros v st; cbn [refine];
    (destruct (Z.ltb_spec (sw_j v) (sw_sz v));
     [| apply wp_ret; split; [exists []; apply wrote_refl |];
        repeat split; auto]).
  - exact I.
  - apply wp_bind. eapply wp_mono; [apply visit_spec |].
    intros v1 st1 [(ms1 & Hw1) Hpost].
    apply visit_post_refined in Hpost. destruct Hpost as (Hr1 & Hcv1).
    eapply wp_mono; [apply IH |].
    intros v2 st2 ((ms2 & Hw2) & Hr2 & Hcv2 & Hend).
    cbn [sw_c sw_sz] in *.
    split; [eexists; eapply wrote_trans; eassumption |].
    split; [eapply refined_trans; eassumption |].
    split; [congruence | exact Hend].
Qed.

Lemma smoothpass_spec (fuel : nat) (conterval : double) (k : Z)
    (nc : Z * polyline) (st : state) :
  wp True True (smoothpass fuel conterval k nc) st
     (fun nc' st' =>
        (exists msgs, wrote st msgs st') /\
        refined (snd nc) (snd nc') /\
        curvy (snd nc') = (if (k =? 0)%Z then curvy (snd nc) else true)).
Proof.
  unfold smoothpass. cbv zeta.
  apply wp_bind. eapply wp_mono; [apply refine_spec |].
  intros v st1 (Hw & Hr & Hcv & _). cbn [sw_c] in *.
  apply wp_ret. cbn [snd]. split; [exact Hw |].
  destruct (k =? 0)%Z; cbn [negb] in *; (split; [| exact Hcv]).
  - exact Hr.
  - eapply refined_trans; [apply refined_smooth | exact Hr].
Qed.

Lemma smoothcontour_spec (fuel : nat) (conterval : double) (i size : Z)
    (nc : Z * polyline) (st : state) :
  wp True True (smoothcontour fuel conterval i size nc) st
     (fun nc' st' =>
        (exists msgs, wrote st msgs st') /\
        refined (snd nc) (snd nc') /\
        curvy (snd nc') = true).
Proof.
  unfold smoothcontour. cbv zeta.
  apply wp_bind, wp_say. intros st1 Hw1.
  apply wp_bind.
  apply (wp_mono True True _ st1 (fun _ st2 => exists msgs, wrote st1 msgs st2)).
  { destruct (_ && _).
    - apply wp_say. intros st2 Hw2. eexists. exact Hw2.
    - apply wp_ret. exists []. apply wrote_refl. }
  intros _ st2 (ms2 & Hw2).
  cbn [for_each]. apply wp_bind.
  eapply wp_mono; [apply smoothpass_spec |].
  intros nc1 st3 ((ms3 & Hw3) & Hr3 & _).
  apply wp_bind. eapply wp_mono; [apply smoothpass_spec |].
  intros nc2 st4 ((ms4 & Hw4) & Hr4 & Hcv4). apply wp_ret.
  split.
  - eexists. eapply wrote_trans; [| exact Hw4].
    eapply wrote_trans; [| exact Hw3]. eapply wrote_trans; eassumption.
  - split; [eapply refined_trans; eassumption | exact Hcv4].
Qed.

Lemma smoothcontours_spec (fuel : nat) (conterval : double) (st : state) :
  wp True True (smoothcontours fuel conterval) st
     (fun _ st' =>
        edges st' = edges st /\ triangles st' = triangles st /\
        marklog st' = marklog st /\
        (exists msgs, out st' = out st ++ msgs) /\
        Forall2 (fun c c' => refined c c' /\ curvy c' = true)
                (contours st) (contours st')).
Proof.
  unfold smoothcontours.
  apply wp_bind. unfold wp at 1, get_contours.
  generalize (Z.of_nat (length (contours st))) as size. intros size.
  apply wp_bind.
  assert (Hloop : forall cs i n done st0,
             wp True True
               (for_each (indexed i cs) (fun '(i, c) '(n, done) =>
                  '(n, c') ← smoothcontour fuel conterval (Z.of_nat i) size (n, c);
                  mret (n, done ++ [c'])) (n, done)) st0
               (fun r st' =>
                  (exists msgs, wrote st0 msgs st') /\
                  exists new, snd r = done ++ new /\
                              Forall2 (fun c c' => refined c c' /\ curvy c' = true)
                                      cs new)).
  { induction cs as [| c cs IH]; intros i n done st0; cbn [indexed for_each].
    - apply wp_ret. split; [exists []; apply wrote_refl |].
      exists []. rewrite app_nil_r. split; [reflexivity | constructor].
    - apply wp_bind. apply wp_bind.
      eapply wp_mono; [apply smoothcontour_spec |].
      intros [n1 c1] st1 ((ms1 & Hw1) & Hr1 & Hcv1). cbn [snd] in *.
      apply wp_ret.
      eapply wp_mono; [apply IH |].
      intros [n2 done2] st2 ((ms2 & Hw2) & new & Hnew & Hall). cbn [snd] in *.
      split; [eexists; eapply wrote_trans; eassumption |].
      exists (c1 :: new). rewrite Hnew, <- app_assoc. split; [reflexivity |].
      constructor; [split; assumption | exact Hall]. }
  eapply wp_mono; [apply Hloop |].
  intros [n cs'] st1 ((ms & He & Ht & _ & Hl & Ho) & new & Hnew & Hall).
  cbn [snd app] in Hnew. subst cs'.
  unfold wp, put_contours. cbn [edges triangles marklog out contours].
  repeat split; try assumption. exists ms. exact Ho.
Qed.

(** X24.  Smoothing only refines: when [smoothcontours] returns there are
    as many contours as before, each with the elevation and the open flag
    it had and with all its points, in their order, among the points it
    has now; each has been switched to curves. The edges, their marks and
    the triangles are not touched and the output is only added to. *)
Theorem smoothcontours_refines (fuel : nat) (conterval : double) (st st' : state) :
  smoothcontours fuel conterval st = Ok (tt, st') ->
  edges st' = edges st /\ triangles st' = triangles st /\
  (exists msgs, out st' = out st ++ msgs) /\
  Forall2 (fun c c' => refined c c' /\ curvy c' = true)
          (contours st) (contours st').
Proof.
  intros Hrun.
  pose proof (wp_Ok _ _ _ _ _ (smoothcontours_spec fuel conterval st)) as Hwp.
  rewrite Hrun in Hwp. destruct Hwp as (He & Ht & _ & Ho & Hall).
  repeat split; assumption.
Qed.

(** X25.  One run of the body of the loop of line 304 keeps the segment
    index and the segment count in step with the contour: when [relprime]
    gives a stride that is not negative, the segment looked at is one of
    the contour, [sz] stays the number of its segments, and a point that
    is inserted goes right after the point the segment starts at; in an
    open contour it goes before the point the segment ends at, so it is
    never put after the last point.  [j] is reset exactly when a point is
    inserted. *)
Theorem visit_in_range (conterval : double) (k origsz : Z) (v v' : sweep)
    (st st' : state) :
  (0 <= sw_n v)%Z ->
  (0 <= relprime (sw_sz v))%Z ->
  (0 < sw_sz v)%Z ->
  sw_sz v = polyline_size (sw_c v) ->
  visit conterval k origsz v st = Ok (v', st') ->
  (0 <= sw_n v' < sw_sz v)%Z /\
  sw_sz v' = polyline_size (sw_c v') /\
  ((sw_c v' = sw_c v /\ sw_sz v' = sw_sz v /\ sw_j v' = sw_j v) \/
   (exists p l1 a l2,
      endpoints (sw_c v) = l1 ++ a :: l2 /\
      Z.of_nat (length l1) = sw_n v' /\
      endpoints (sw_c v') = l1 ++ a :: p :: l2 /\
      (isopen (sw_c v) = true -> l2 <> []) /\
      xy_isfinite p = true /\
      sw_sz v' = (sw_sz v + 1)%Z /\ sw_j v' = 0%Z)).
Proof.
  intros Hn Hrel Hsz Hinv Hrun.
  pose proof (wp_Ok _ _ _ _ _ (visit_spec conterval k origsz v st)) as Hwp.
  rewrite Hrun in Hwp. destruct Hwp as [_ Hpost].
  destruct Hpost as [Hn' Hcases].
  assert (Hrange : (0 <= visited v < sw_sz v)%Z).
  { unfold visited. apply Z.rem_bound_pos; lia. }
  rewrite Hn'. split; [exact Hrange |].
  destruct Hcases as [Hsame | (p & Hp & Hc & Hsz' & Hj & _)].
  { split; [| left; exact Hsame].
    destruct Hsame as (-> & -> & _). exact Hinv. }
  split.
  { rewrite Hc, Hsz', insert_at_size by lia. lia. }
  right.
  assert (Hlen : (Z.to_nat (visited v) < length (endpoints (sw_c v)))%nat).
  { unfold polyline_size in Hinv. destruct (isopen (sw_c v)); lia. }
  destruct (lookup_lt_is_Some_2 _ _ Hlen) as [a Ha].
  exists p, (take (Z.to_nat (visited v)) (endpoints (sw_c v))), a,
         (drop (S (Z.to_nat (visited v))) (endpoints (sw_c v))).
  split; [symmetry; apply take_drop_middle, Ha |].
  split; [rewrite length_take; lia |].
  split.
  { rewrite Hc. cbn [polyline_insert_at endpoints].
    replace (Z.to_nat (visited v + 1)) with (S (Z.to_nat (visited v))) by lia.
    rewrite (take_S_r _ _ _ Ha), <- app_assoc. reflexivity. }
  split.
  { intros Hopen Hnil. apply (f_equal length) in Hnil.
    rewrite length_drop in Hnil. cbn [length] in Hnil.
    unfold polyline_size in Hinv. rewrite Hopen in Hinv. lia. }
  repeat split; assumption.
Qed.

(** X26.  A segment that is not longer than the contour interval is never
    split. *)
Theorem visit_short_segment (conterval : double) (k origsz : Z) (v v' : sweep)
    (st st' : state) :
  Dbl.gt (sarc_length (getspiralarc (sw_c v) (visited v))) conterval = false ->
  visit conterval k origsz v st = Ok (v', st') ->
  sw_c v' = sw_c v /\ sw_sz v' = sw_sz v /\ sw_j v' = sw_j v.
Proof.
  intros Hshort Hrun.
  pose proof (wp_Ok _ _ _ _ _ (visit_spec conterval k origsz v st)) as Hwp.
  rewrite Hrun in Hwp. destruct Hwp as [_ [_ Hcases]].
  destruct Hcases as [Hsame | (p & _ & _ & _ & _ & Hlong)]; [exact Hsame |].
  rewrite Hshort in Hlong. discriminate.
Qed.

End SmoothingMore.

(** ** segment: stations *)

Section Stations.

Context `{Vertical}.

Local Open Scope Q_scope.

Lemma qzero_true (q : Q) : q == 0 -> Dbl.qzero q = true.
Proof.
  intros Hq. unfold Dbl.qzero. unfold Qeq in Hq. simpl in Hq.
  apply Z.eqb_eq. lia.
Qed.

(** A quotient by zero is infinite or not a number. *)
Lemma div_zero_not_finite (x : double) (y : Q) :
  y == 0 -> Dbl.isfinite (Ieee.div x (Fin y)) = false.
Proof.
  intros Hy. apply qzero_true in Hy. unfold Ieee.div.
  destruct x as [| s | q]; cbn [Dbl.div]; rewrite ?Hy; try reflexivity.
  destruct (Dbl.qzero q); reflexivity.
Qed.

(** X30.  A segment of length zero has no station: both plan coordinates
    of what [station] returns are infinite or not a number, whatever the
    distance asked for, so the point is never finite. *)
Theorem station_of_point (s : Seg.seg) (len : Q) (along : double) :
  Seg.length s = Fin len ->
  len == 0 ->
  Dbl.isfinite (xyz_east (Seg.station s along)) = false /\
  Dbl.isfinite (xyz_north (Seg.station s along)) = false /\
  xyz_isfinite (Seg.station s along) = false.
Proof.
  intros Hl Hlen. unfold xyz_isfinite, Seg.station. cbv zeta.
  cbn [xyz_east xyz_north xyz_elev]. rewrite Hl.
  rewrite !(div_zero_not_finite _ len Hlen). repeat split.
Qed.

End Stations.

Lemma probe_defined_witness :
  (0 < 1)%Q /\ 0 < 2 /\
  Dbl.isfinite (@mesh_deviation sample_mesh no_curves level_surface sample_lpt) = true /\
  Dbl.isfinite (@mesh_deviation sample_mesh no_curves level_surface sample_rpt) = true /\
  (forall t,
     Dbl.isfinite (@tri_deviation sample_mesh no_curves level_surface t sample_lpt)
     = true /\
     Dbl.isfinite (@tri_deviation sample_mesh no_curves level_surface t sample_rpt)
     = true) /\
  exists sp st',
    @probe sample_mesh no_curves level_surface sample_consts (Fin 1) (wide 0 2 2) tt
      sample_lpt sample_rpt sample_state = Ok (sp, st') /\
    (sp == 0 \/ 0.2113 <= sp <= 0.7887)%Q.
Proof.
  assert (Htri : forall t,
             Dbl.isfinite (@tri_deviation sample_mesh no_curves level_surface t
                             sample_lpt) = true /\
             Dbl.isfinite (@tri_deviation sample_mesh no_curves level_surface t
                             sample_rpt) = true)
    by (intros t; split; reflexivity).
  split; [reflexivity |]. split; [lia |].
  split; [reflexivity |]. split; [reflexivity |]. split; [exact Htri |].
  apply (@probe_defined sample_mesh no_curves level_surface sample_consts 1 0 2 2 tt
           sample_lpt sample_rpt sample_state);
    [reflexivity | lia | reflexivity | reflexivity | exact Htri].
Defined.

Lemma smoothcontours_refines_witness :
  exists st',
    @smoothcontours sample_mesh arc_curves raised_surface sample_consts 10 (Fin 3)
      contour_state = Ok (tt, st') /\
    @edges sample_mesh st' = @edges sample_mesh contour_state /\
    @triangles sample_mesh st' = @triangles sample_mesh contour_state /\
    (exists msgs, @out sample_mesh st' = @out sample_mesh contour_state ++ msgs) /\
    Forall2 (fun c c' => refined c c' /\ curvy c' = true)
            (@contours sample_mesh contour_state) (@contours sample_mesh st').
Proof.
  destruct (@smoothcontours sample_mesh arc_curves raised_surface sample_consts 10
              (Fin 3) contour_state) as [[[] st'] | |] eqn:Hrun.
  - exists st'. split; [reflexivity |].
    exact (@smoothcontours_refines sample_mesh arc_curves raised_surface sample_consts
             10 (Fin 3) contour_state st' Hrun).
  - apply (f_equal (fun x => match x with Ok _ => true | _ => false end)) in Hrun.
    vm_compute in Hrun. discriminate Hrun.
  - apply (f_equal (fun x => match x with Ok _ => true | _ => false end)) in Hrun.
    vm_compute in Hrun. discriminate Hrun.
Defined.

Lemma visit_in_range_witness :
  0 <= sw_n sample_sweep /\
  0 <= @relprime arc_curves (sw_sz sample_sweep) /\
  0 < sw_sz sample_sweep /\
  sw_sz sample_sweep = polyline_size (sw_c sample_sweep) /\
  exists v' st',
    @visit sample_mesh arc_curves raised_surface sample_consts (Fin 3) 0 1
      sample_sweep contour_state = Ok (v', st') /\
    0 <= sw_n v' < sw_sz sample_sweep /\
    sw_sz v' = polyline_size (sw_c v').
Proof.
  assert (H1 : 0 <= sw_n sample_sweep) by (simpl; lia).
  assert (H2 : 0 <= @relprime arc_curves (sw_sz sample_sweep)) by (simpl; lia).
  assert (H3 : 0 < sw_sz sample_sweep) by (simpl; lia).
  assert (H4 : sw_sz sample_sweep = polyline_size (sw_c sample_sweep)) by reflexivity.
  split; [exact H1 |]. split; [exact H2 |]. split; [exact H3 |]. split; [exact H4 |].
  destruct (@visit sample_mesh arc_curves raised_surface sample_consts (Fin 3) 0 1
              sample_sweep contour_state) as [[v' st'] | |] eqn:Hrun.
  - exists v', st'. split; [reflexivity |].
    destruct (@visit_in_range sample_mesh arc_curves raised_surface sample_consts
                (Fin 3) 0 1 sample_sweep v' contour_state st' H1 H2 H3 H4 Hrun)
      as (Hn & Hsz & _).
    split; assumption.
  - apply (f_equal (fun x => match x with Ok _ => true | _ => false end)) in Hrun.
    vm_compute in Hrun. discriminate Hrun.
  - apply (f_equal (fun x => match x with Ok _ => true | _ => false end)) in Hrun.
    vm_compute in Hrun. discriminate Hrun.
Defined.

Lemma visit_short_segment_witness :
  Dbl.gt (@sarc_length no_curves
            (@getspiralarc no_curves (sw_c sample_sweep)
               (@visited no_curves sample_sweep))) (Fin 20) = false /\
  exists v' st',
    @visit sample_mesh no_curves sample_surface sample_consts (Fin 20) 0 1
      sample_sweep contour_state = Ok (v', st') /\
    sw_c v' = sw_c sample_sweep /\ sw_sz v' = sw_sz sample_sweep /\
    sw_j v' = sw_j sample_sweep.
Proof.
  assert (Hshort : Dbl.gt (@sarc_length no_curves
                             (@getspiralarc no_curves (sw_c sample_sweep)
                                (@visited no_curves sample_sweep))) (Fin 20) = false)
    by reflexivity.
  split; [exact Hshort |].
  destruct (@visit sample_mesh no_curves sample_surface sample_consts (Fin 20) 0 1
              sample_sweep contour_state) as [[v' st'] | |] eqn:Hrun.
  - exists v', st'. split; [reflexivity |].
    exact (@visit_short_segment sample_mesh no_curves sample_surface sample_consts
             (Fin 20) 0 1 sample_sweep v' contour_state st' Hshort Hrun).
  - apply (f_equal (fun x => match x with Ok _ => true | _ => false end)) in Hrun.
    vm_compute in Hrun. discriminate Hrun.
  - apply (f_equal (fun x => match x with Ok _ => true | _ => false end)) in Hrun.
    vm_compute in Hrun. discriminate Hrun.
Defined.

Lemma station_of_point_witness :
  @Seg.length sample_vertical point_seg = Fin 0 /\
  (0 == 0)%Q /\
  Dbl.isfinite (xyz_east (@Seg.station sample_vertical point_seg (Fin 1))) = false /\
  Dbl.isfinite (xyz_north (@Seg.station sample_vertical point_seg (Fin 1))) = false /\
  xyz_isfinite (@Seg.station sample_vertical point_seg (Fin 1)) = false.
Proof.
  split; [reflexivity |]. split; [reflexivity |].
  apply (@station_of_point sample_vertical point_seg 0 (Fin 1)); reflexivity.
Defined.
